(** * CreditVision AI: the numeric core of [open1.py]

    A shallow embedding of the five core functions of the estimator
    ([simulate_alt_data_features], [generate_civil_score],
    [calculate_loan_interest_rate], [calculate_max_loan_and_emi] and
    [get_mock_bank_loan_options]) together with the properties stated
    for them.

    The Python code computes on [float]s.  The functions are written once,
    against the interface [PyFloat] that lists the float operations the
    source uses, and are then read in two ways:

    - [Exact]: floats idealised as exact rationals ([Q]), the usual
      real-number reading of numeric code;
    - [Binary64]: IEEE 754 binary64 as the kernel's primitive floats,
      which is what a Python float is; concrete scenarios are evaluated
      here bit for bit, and what is stated for every input is proved
      from the specification of the float operations: a sum, product
      or quotient is the float nearest to the exact result, hence lies
      between any two floats that bound the exact result.

    Facts that only follow the control flow hold in every reading.
    Python exceptions are results of type [res]; the two random draws of
    the offer generator are arguments. *)

From Stdlib Require Import ZArith QArith Qround Qabs Qpower Qminmax Lia Lqa.
From Stdlib Require Import List String Bool.
From Stdlib Require Import Floats.
Import ListNotations.

(** ** Exceptions *)

Inductive exn : Type :=
| OverflowError
| ZeroDivisionError
| ValueError.

Inductive res (A : Type) : Type :=
| Ok (a : A)
| Raise (e : exn).

Arguments Ok {A} a.
Arguments Raise {A} e.

Definition bind {A B : Type} (m : res A) (k : A -> res B) : res B :=
  match m with
  | Ok a => k a
  | Raise e => Raise e
  end.

Declare Scope py_scope.
Delimit Scope py_scope with py.

Notation "x <- m ;; k" := (bind m (fun x => k))
  (at level 61, m at next level, right associativity) : py_scope.

(** [try: body except OverflowError: handler]. Any other exception
    passes through. *)
Definition try_except_OverflowError {A : Type} (body handler : res A) : res A :=
  match body with
  | Raise OverflowError => handler
  | r => r
  end.

Definition raises {A : Type} (m : res A) : Prop :=
  exists e, m = Raise e.

(** ** The float operations of the source *)

Class PyFloat (F : Type) : Type := {
  (** a float literal, given by its decimal value *)
  lit : Q -> F;
  (** an [int] operand of a mixed [int]/[float] operation *)
  of_int : Z -> F;
  fadd : F -> F -> F;
  fsub : F -> F -> F;
  fmul : F -> F -> F;
  fopp : F -> F;
  (** IEEE division: what [/] does on a Python float when the divisor
      is not zero. *)
  fdiv : F -> F -> F;
  (** [a / b] on two [int]s *)
  int_truediv : Z -> Z -> F;
  (** [x ** n] on a float and an [int] *)
  fpow : F -> Z -> res F;
  feqb : F -> F -> bool;
  fltb : F -> F -> bool;
  fleb : F -> F -> bool;
  (** [round(x, ndigits)] on a Python float *)
  py_round : F -> Z -> F;
  (** [int(x)] *)
  py_int : F -> res Z
}.

Infix "+" := fadd : py_scope.
Infix "-" := fsub : py_scope.
Infix "*" := fmul : py_scope.
Notation "- x" := (fopp x) : py_scope.
Infix "==" := feqb (at level 70, no associativity) : py_scope.
Infix "<?" := fltb : py_scope.
Infix "<=?" := fleb : py_scope.
Notation "x >? y" := (fltb y x) (only parsing) : py_scope.

(** ** Configuration and constants (source lines 7-21) *)

Definition CIVIL_SCORE_MIN : Z := 300.
Definition CIVIL_SCORE_MAX : Z := 900.
Definition ANNUAL_INTEREST_RATE_DEFAULT : Q := 0.09.
Definition MAX_EMI_TO_INCOME_RATIO : Q := 0.45.

Definition JOB_TYPES : list string :=
  [ "Gig Worker (e.g., Delivery, Driver)";
    "Farmer / Agricultural Worker";
    "Small Shop Owner / Local Business";
    "Salaried (Formal Employment)";
    "Freelancer / Consultant (Irregular Income)";
    "Other" ]%string.

Definition LOAN_TENURES_YEARS : list Z := [5; 10; 15; 20; 25; 30]%Z.

(** ** Python dictionaries with string keys, in insertion order *)

Definition dict (V : Type) : Type := list (string * V).

Fixpoint dict_set {V : Type} (k : string) (v : V) (d : dict V) : dict V :=
  match d with
  | [] => [(k, v)]
  | (k', v') :: d' =>
      if String.eqb k k' then (k', v) :: d' else (k', v') :: dict_set k v d'
  end.

(** [d.update(u)] *)
Definition dict_update {V : Type} (d u : dict V) : dict V :=
  fold_left (fun acc kv => dict_set (fst kv) (snd kv) acc) u d.

Definition dict_values {V : Type} (d : dict V) : list V := map snd d.

Definition len {A : Type} (l : list A) : Z := Z.of_nat (List.length l).

(** One lender offer: the dictionary appended to [options]. *)
Record offer (F : Type) : Type := {
  bank_name : string;
  loan_product_name : string;
  offered_loan_amount : F;
  interest_rate_pa : F;
  tenure_years : Z;
  estimated_emi : F;
  notes : string
}.

Arguments bank_name {F} _.
Arguments loan_product_name {F} _.
Arguments offered_loan_amount {F} _.
Arguments interest_rate_pa {F} _.
Arguments tenure_years {F} _.
Arguments estimated_emi {F} _.
Arguments notes {F} _.

(** ** The core functions *)

Section Core.
  Context {F : Type} {PF : PyFloat F}.
  Local Open Scope py_scope.

(** [x / y] on Python floats *)
Definition py_div (x y : F) : res F :=
  if y == of_int 0 then Raise ZeroDivisionError else Ok (fdiv x y).

(** [x / n] on a Python float and an [int]: [float(n)] is zero exactly
    when [n] is. *)
Definition py_div_int (x : F) (n : Z) : res F :=
  if (n =? 0)%Z then Raise ZeroDivisionError else Ok (fdiv x (of_int n)).

(** [max(a, b)] and [min(a, b)]: the second argument replaces the first
    when it compares strictly better. *)
Definition py_max (a b : F) : F := if b >? a then b else a.
Definition py_min (a b : F) : F := if b <? a then b else a.

(** [sum(values)] starts from the [int] 0 and adds from left to right.
    (Python 3.12 and later carry a compensation of the rounding errors
    along; the sums differ in the last place at most.) *)
Definition py_sum (l : list F) : F := fold_left fadd l (of_int 0).

(** source lines 25-76 *)
Definition simulate_alt_data_features (job_type : string) : dict F :=
  let features : dict F :=
    [ ("income_stability_proxy", lit 0.5);
      ("digital_transaction_volume", lit 0.5);
      ("social_reputation_proxy", lit 0.5);
      ("asset_ownership_proxy", lit 0.5);
      ("skill_versatility_proxy", lit 0.5) ]%string in
  if String.eqb job_type "Gig Worker (e.g., Delivery, Driver)" then
    dict_update features
      [ ("income_stability_proxy", lit 0.6);
        ("digital_transaction_volume", lit 0.7);
        ("social_reputation_proxy", lit 0.65);
        ("skill_versatility_proxy", lit 0.7) ]%string
  else if String.eqb job_type "Farmer / Agricultural Worker" then
    dict_update features
      [ ("income_stability_proxy", lit 0.4);
        ("asset_ownership_proxy", lit 0.7);
        ("social_reputation_proxy", lit 0.6);
        ("digital_transaction_volume", lit 0.3) ]%string
  else if String.eqb job_type "Small Shop Owner / Local Business" then
    dict_update features
      [ ("income_stability_proxy", lit 0.65);
        ("digital_transaction_volume", lit 0.75);
        ("social_reputation_proxy", lit 0.7);
        ("asset_ownership_proxy", lit 0.6) ]%string
  else if String.eqb job_type "Salaried (Formal Employment)" then
    dict_update features
      [ ("income_stability_proxy", lit 0.9);
        ("digital_transaction_volume", lit 0.8);
        ("asset_ownership_proxy", lit 0.6);
        ("skill_versatility_proxy", lit 0.7) ]%string
  else if String.eqb job_type "Freelancer / Consultant (Irregular Income)" then
    dict_update features
      [ ("income_stability_proxy", lit 0.55);
        ("digital_transaction_volume", lit 0.85);
        ("social_reputation_proxy", lit 0.75);
        ("skill_versatility_proxy", lit 0.8) ]%string
  else features.

(** source lines 83-86: the average of the feature scores *)
Definition avg_feature_score (alt_data_features : dict F) : res F :=
  match alt_data_features with
  | [] => Ok (lit 0.5)
  | _ => py_div_int (py_sum (dict_values alt_data_features))
                    (len alt_data_features)
  end.

(** source lines 78-94 *)
Definition generate_civil_score (alt_data_features : dict F) : res Z :=
  avg <- avg_feature_score alt_data_features ;;
  civil_score <-
    py_int (of_int CIVIL_SCORE_MIN
            + avg * of_int (CIVIL_SCORE_MAX - CIVIL_SCORE_MIN)) ;;
  Ok (Z.max CIVIL_SCORE_MIN (Z.min civil_score CIVIL_SCORE_MAX)).

(** source lines 96-112 *)
Definition calculate_loan_interest_rate (civil_score : Z) : F :=
  let score_diff_from_mid :=
    fdiv (of_int civil_score
          - (of_int CIVIL_SCORE_MIN
             + int_truediv (CIVIL_SCORE_MAX - CIVIL_SCORE_MIN) 2))
         (of_int 100) in
  let rate_adjustment := - (score_diff_from_mid * lit 0.0025) in
  let estimated_annual_rate :=
    lit ANNUAL_INTEREST_RATE_DEFAULT + rate_adjustment in
  py_max (lit 0.07) (py_min estimated_annual_rate (lit 0.15)).

(** source lines 143 and 149: [P / n if n > 0 else 0] *)
Definition zero_rate_emi (max_loan_amount : F) (number_of_payments : Z)
  : res F :=
  if (number_of_payments >? 0)%Z
  then py_div_int max_loan_amount number_of_payments
  else Ok (of_int 0).

(** source line 130: the present value of an ordinary annuity,
    [installment * (1 - (1 + r) ** -n) / r] *)
Definition present_value (installment monthly_rate : F) (n : Z) : res F :=
  p <- fpow (of_int 1 + monthly_rate) (- n)%Z ;;
  py_div (installment * (of_int 1 - p)) monthly_rate.

(** source lines 124-132 *)
Definition max_loan_amount_for
    (max_permissible_emi monthly_interest_rate : F) (number_of_payments : Z)
  : res F :=
  if monthly_interest_rate == of_int 0
  then Ok (max_permissible_emi * of_int number_of_payments)
  else
    try_except_OverflowError
      (present_value max_permissible_emi monthly_interest_rate
                     number_of_payments)
      (Ok (of_int 0)).

(** source lines 146-151: [P * r * (1+r)^n / ((1+r)^n - 1)] *)
Definition amortized_emi
    (max_loan_amount monthly_interest_rate : F) (number_of_payments : Z)
  : res F :=
  p1 <- fpow (of_int 1 + monthly_interest_rate) number_of_payments ;;
  let numerator := max_loan_amount * monthly_interest_rate * p1 in
  p2 <- fpow (of_int 1 + monthly_interest_rate) number_of_payments ;;
  let denominator := p2 - of_int 1 in
  if denominator == of_int 0
  then zero_rate_emi max_loan_amount number_of_payments
  else py_div numerator denominator.

(** source lines 142-153 *)
Definition actual_emi_for
    (monthly_income max_loan_amount monthly_interest_rate : F)
    (number_of_payments : Z) : res F :=
  if monthly_interest_rate == of_int 0
  then zero_rate_emi max_loan_amount number_of_payments
  else
    try_except_OverflowError
      (amortized_emi max_loan_amount monthly_interest_rate
                     number_of_payments)
      (Ok monthly_income).

(** source lines 114-155 *)
Definition calculate_max_loan_and_emi
    (monthly_income annual_interest_rate : F) (loan_tenure_years : Z)
  : res (F * F) :=
  let max_permissible_emi := monthly_income * lit MAX_EMI_TO_INCOME_RATIO in
  let monthly_interest_rate := fdiv annual_interest_rate (of_int 12) in
  let number_of_payments := (loan_tenure_years * 12)%Z in
  max_loan_amount <-
    max_loan_amount_for max_permissible_emi monthly_interest_rate
                        number_of_payments ;;
  if max_loan_amount <=? of_int 0 then Ok (of_int 0, of_int 0)
  else
    actual_emi <-
      actual_emi_for monthly_income max_loan_amount monthly_interest_rate
                     number_of_payments ;;
    Ok (py_round max_loan_amount 2, py_round actual_emi 2).

(** source lines 171-179 and 199-207: the installment of one lender,
    recomputed for its own amount. Every division has a divisor that
    was tested to be positive. *)
Definition bank_emi_recalc (bank_loan_amount bank_interest_rate : F)
    (loan_tenure_years : Z) : res F :=
  let monthly_rate := fdiv bank_interest_rate (of_int 12) in
  let num_payments := (loan_tenure_years * 12)%Z in
  let fallback :=
    if (num_payments >? 0)%Z
    then fdiv bank_loan_amount (of_int num_payments)
    else of_int 0 in
  if (monthly_rate >? of_int 0) && (num_payments >? 0)%Z then
    p0 <- fpow (of_int 1 + monthly_rate) num_payments ;;
    if (p0 - of_int 1) >? of_int 0 then
      p1 <- fpow (of_int 1 + monthly_rate) num_payments ;;
      p2 <- fpow (of_int 1 + monthly_rate) num_payments ;;
      Ok (fdiv (bank_loan_amount * monthly_rate * p1) (p2 - of_int 1))
    else Ok fallback
  else Ok fallback.

Definition bank1_interest_rate (civil_score : Z)
    (base_annual_interest_rate : F) : F :=
  let bank1_rate_adj := lit 0.005 in
  py_min (lit 0.16)
    (py_max (lit 0.075)
       (base_annual_interest_rate + bank1_rate_adj
        - int_truediv (civil_score - 600) 100 * lit 0.001)).

Definition bank2_interest_rate (civil_score : Z)
    (base_annual_interest_rate : F) : F :=
  let bank2_rate_adj := lit (-0.002) in
  py_min (lit 0.14)
    (py_max (lit 0.07)
       (base_annual_interest_rate + bank2_rate_adj
        - int_truediv (civil_score - 650) 100 * lit 0.002)).

Definition bank1_offer (amount rate : F) (years : Z) (emi : F) : offer F :=
  {| bank_name := "Inclusive Housing Finance Ltd.";
     loan_product_name := "Sahay Home Loan";
     offered_loan_amount := amount;
     interest_rate_pa := py_round (rate * of_int 100) 2;
     tenure_years := years;
     estimated_emi := py_round emi 2;
     notes := "Focuses on financial inclusion, flexible documentation (simulated)." |}.

Definition bank2_offer (amount rate : F) (years : Z) (emi : F) : offer F :=
  {| bank_name := "Progressive National Bank";
     loan_product_name := "MyFirstHome Loan";
     offered_loan_amount := amount;
     interest_rate_pa := py_round (rate * of_int 100) 2;
     tenure_years := years;
     estimated_emi := py_round emi 2;
     notes := "Competitive rates, standard processing (simulated)." |}.

Definition generic_offer (max_loan_calculated calculated_emi : F)
    (years : Z) (base_annual_interest_rate : F) : offer F :=
  {| bank_name := "Generic Lender Co.";
     loan_product_name := "Basic Home Loan";
     offered_loan_amount := py_round (max_loan_calculated * lit 0.9) (-3);
     interest_rate_pa :=
       py_round (base_annual_interest_rate * of_int 100) 2 + lit 1.0;
     tenure_years := years;
     estimated_emi := calculated_emi * lit 1.05;
     notes := "A basic loan option (simulated)." |}.

(** source lines 158-233. [draw1] and [draw2] are the two values
    [np.random.uniform(0.90, 0.98)] and [np.random.uniform(0.95, 1.0)]
    return, in the order the source draws them; they are Python floats,
    so every [round] of the function is Python's. *)
Definition get_mock_bank_loan_options
    (max_loan_calculated calculated_emi : F) (civil_score : Z)
    (loan_tenure_years : Z) (base_annual_interest_rate : F)
    (draw1 draw2 : F) : res (list (offer F)) :=
  let options : list (offer F) := [] in
  let bank1_rate := bank1_interest_rate civil_score base_annual_interest_rate in
  let bank1_loan_amount := py_round (max_loan_calculated * draw1) (-3) in
  _ <- calculate_max_loan_and_emi (of_int 0) bank1_rate loan_tenure_years ;;
  bank1_emi <- bank_emi_recalc bank1_loan_amount bank1_rate loan_tenure_years ;;
  let options :=
    if bank1_loan_amount >? of_int 10000
    then options ++ [bank1_offer bank1_loan_amount bank1_rate
                       loan_tenure_years bank1_emi]
    else options in
  let bank2_rate := bank2_interest_rate civil_score base_annual_interest_rate in
  let bank2_loan_amount := py_round (max_loan_calculated * draw2) (-3) in
  bank2_emi <- bank_emi_recalc bank2_loan_amount bank2_rate loan_tenure_years ;;
  let options :=
    if bank2_loan_amount >? of_int 10000
    then options ++ [bank2_offer bank2_loan_amount bank2_rate
                       loan_tenure_years bank2_emi]
    else options in
  let options :=
    match options with
    | [] =>
        if max_loan_calculated >? of_int 0
        then options ++ [generic_offer max_loan_calculated calculated_emi
                           loan_tenure_years base_annual_interest_rate]
        else options
    | _ => options
    end in
  Ok options.

End Core.

(** ** First reading: exact rational arithmetic *)

Module Exact.
  Local Open Scope Q_scope.

(** Round to the nearest integer, ties to the even one. *)
Definition round_half_even (q : Q) : Z :=
  let f := Qfloor q in
  match Qcompare (q - inject_Z f) (1 # 2) with
  | Lt => f
  | Gt => (f + 1)%Z
  | Eq => if Z.even f then f else (f + 1)%Z
  end.

(** [round(x, ndigits)]: the multiple of [10 ^ (- ndigits)] nearest to
    [x], ties to even. *)
Definition round_ndigits (x : Q) (ndigits : Z) : Q :=
  inject_Z (round_half_even (x * 10 ^ ndigits)) / 10 ^ ndigits.

(** [int(x)] truncates towards zero. *)
Definition trunc (x : Q) : Z := Z.quot (Qnum x) (Z.pos (Qden x)).

(** [x ** n]: only [0 ** n] with [n < 0] fails. *)
Definition pow (x : Q) (n : Z) : res Q :=
  if Qeq_bool x 0 && (n <? 0)%Z then Raise ZeroDivisionError
  else Ok (x ^ n).

Definition Qltb (x y : Q) : bool := negb (Qle_bool y x).

#[export] Instance exact : PyFloat Q := {
  lit := fun q => q;
  of_int := inject_Z;
  fadd := Qplus;
  fsub := Qminus;
  fmul := Qmult;
  fopp := Qopp;
  fdiv := Qdiv;
  int_truediv := fun a b => inject_Z a / inject_Z b;
  fpow := pow;
  feqb := Qeq_bool;
  fltb := Qltb;
  fleb := Qle_bool;
  py_round := round_ndigits;
  py_int := fun x => Ok (trunc x)
}.

End Exact.

(** ** Second reading: IEEE 754 binary64 *)

Module Binary64.
  Local Open Scope Z_scope.

(** The rational value of a finite float. *)
Definition SF2Q (x : spec_float) : option Q :=
  match x with
  | S754_zero _ => Some 0%Q
  | S754_finite s m e => Some (inject_Z (cond_Zopp s (Z.pos m)) * 2 ^ e)%Q
  | S754_infinity _ | S754_nan => None
  end.

Definition F2Q (x : float) : option Q := SF2Q (Prim2SF x).

(** The binary64 nearest to a rational, ties to even, and an infinity
    beyond the range. The quotient is first cut to at least 63
    significant bits, the lost part kept as one sticky bit: no binary64
    rounding boundary lies strictly between two such neighbours. *)
Definition Q2SF (q : Q) : spec_float :=
  let n := Qnum q in
  let d := Z.pos (Qden q) in
  if n =? 0 then S754_zero false
  else
    let a := Z.abs n in
    let k := Z.max 0 (Z.log2 d - Z.log2 a + 64) in
    let m := (a * 2 ^ k) / d in
    let sticky := if (a * 2 ^ k) mod d =? 0 then 0 else 1 in
    binary_normalize prec emax (Z.sgn n * (2 * m + sticky)) (- k - 1) false.

Definition Q2F (q : Q) : float := SF2Prim (Q2SF q).

(** [float(n)] for an [int]: the nearest binary64. *)
Definition Z2F (n : Z) : float :=
  SF2Prim (binary_normalize prec emax n 0 false).

Definition is_finite (x : float) : bool :=
  match Prim2SF x with
  | S754_zero _ | S754_finite _ _ _ => true
  | _ => false
  end.

(** The sign bit of a float ([true] for [-0.0] and the negative
    numbers). *)
Definition sign_bit (x : float) : bool :=
  match Prim2SF x with
  | S754_zero s | S754_infinity s | S754_finite s _ _ => s
  | S754_nan => false
  end.

(** [round(x, ndigits)] of a Python float rounds the exact value of [x]
    in decimal, ties to even, and returns the nearest float; a result
    that is zero keeps the sign of [x]; infinities and NaN round to
    themselves. *)
Definition round_ndigits (x : float) (ndigits : Z) : float :=
  match F2Q x with
  | Some q =>
      let r := Exact.round_ndigits q ndigits in
      if Qeq_bool r 0 && sign_bit x
      then PrimFloat.opp PrimFloat.zero
      else Q2F r
  | None => x
  end.

(** [int(x)]: truncation; [ValueError] on NaN and [OverflowError] on an
    infinity. *)
Definition to_int (x : float) : res Z :=
  match Prim2SF x with
  | S754_nan => Raise ValueError
  | S754_infinity _ => Raise OverflowError
  | sf => match SF2Q sf with
          | Some q => Ok (Exact.trunc q)
          | None => Raise ValueError
          end
  end.

(** [a / b] on [int]s is the correctly rounded quotient. *)
Definition int_div (a b : Z) : float :=
  if b =? 0 then PrimFloat.nan else Q2F (inject_Z a / inject_Z b).

(** [m * 2^e] with the trailing zero bits of [m] moved to the exponent:
    the same number, written with the least mantissa. *)
Fixpoint strip_zeros (m : positive) (e : Z) : positive * Z :=
  match m with
  | xO p => strip_zeros p (e + 1)
  | _ => (m, e)
  end.

(** [x ** n] rounded correctly: the reference the platform's [pow] is
    compared with. [OverflowError] when the result is out of range,
    [ZeroDivisionError] for a zero base and a negative exponent; a
    result too small to represent is 0. *)
Definition pow_cr (x : float) (n : Z) : res float :=
  if n =? 0 then Ok PrimFloat.one
  else
    match Prim2SF x with
    | S754_nan => Ok PrimFloat.nan
    | S754_infinity s =>
        if n <? 0 then Ok (if s && Z.odd n then PrimFloat.opp PrimFloat.zero
                           else PrimFloat.zero)
        else Ok (if s && Z.odd n then PrimFloat.neg_infinity
                 else PrimFloat.infinity)
    | S754_zero s =>
        if n <? 0 then Raise ZeroDivisionError
        else Ok (if s && Z.odd n then PrimFloat.opp PrimFloat.zero
                 else PrimFloat.zero)
    | S754_finite s m e =>
        let '(m', e') := strip_zeros m e in
        let q := (inject_Z (cond_Zopp s (Z.pos m')) * 2 ^ e')%Q in
        let r := Q2F (q ^ n)%Q in
        if is_finite r then Ok r else Raise OverflowError
    end.

(** The instance, for a given [pow]. *)
Definition binary64 (pw : float -> Z -> res float) : PyFloat float := {|
  lit := Q2F;
  of_int := Z2F;
  fadd := PrimFloat.add;
  fsub := PrimFloat.sub;
  fmul := PrimFloat.mul;
  fopp := PrimFloat.opp;
  fdiv := PrimFloat.div;
  int_truediv := int_div;
  fpow := pw;
  feqb := PrimFloat.eqb;
  fltb := PrimFloat.ltb;
  fleb := PrimFloat.leb;
  py_round := round_ndigits;
  py_int := to_int
|}.

End Binary64.

(** ** Notions used in the statements *)

Definition returns {A : Type} (m : res A) : Prop :=
  exists a, m = Ok a.

(** What [**] gives when it fails for no other reason than the size of
    its result. *)
Definition ok_or_overflow {A : Type} (m : res A) : Prop :=
  m = Raise OverflowError \/ returns m.

Section Options.
Context {F : Type} {PF : PyFloat F}.
Local Open Scope py_scope.

(** The list [get_mock_bank_loan_options] builds (source lines 182-231)
    once both lenders' amounts [a1], [a2] and installments [e1], [e2]
    are computed. *)
Definition assemble_options
    (max_loan_calculated calculated_emi : F) (civil_score : Z)
    (loan_tenure_years : Z) (base_annual_interest_rate : F)
    (a1 e1 a2 e2 : F) : list (offer F) :=
  let options : list (offer F) := [] in
  let options :=
    if a1 >? of_int 10000
    then options ++ [bank1_offer a1
                       (bank1_interest_rate civil_score base_annual_interest_rate)
                       loan_tenure_years e1]
    else options in
  let options :=
    if a2 >? of_int 10000
    then options ++ [bank2_offer a2
                       (bank2_interest_rate civil_score base_annual_interest_rate)
                       loan_tenure_years e2]
    else options in
  match options with
  | [] =>
      if max_loan_calculated >? of_int 0
      then options ++ [generic_offer max_loan_calculated calculated_emi
                         loan_tenure_years base_annual_interest_rate]
      else options
  | _ => options
  end.

(** The three powers the offer generator asks for return: the one of
    the engine call of source line 169 and the two of the lenders'
    installments (source lines 173-174 and 201-202). *)
Definition lender_powers_return
    (civil_score loan_tenure_years : Z) (base_annual_interest_rate : F)
  : Prop :=
  returns (fpow (of_int 1
                 + fdiv (bank1_interest_rate civil_score base_annual_interest_rate)
                        (of_int 12))
                (- (loan_tenure_years * 12))%Z)
  /\ returns (fpow (of_int 1
                    + fdiv (bank1_interest_rate civil_score
                              base_annual_interest_rate) (of_int 12))
                   (loan_tenure_years * 12)%Z)
  /\ returns (fpow (of_int 1
                    + fdiv (bank2_interest_rate civil_score
                              base_annual_interest_rate) (of_int 12))
                   (loan_tenure_years * 12)%Z).

End Options.

(** The scores a [CreditScore] ranges over. *)
Definition credit_scores : list Z :=
  map (fun k => (CIVIL_SCORE_MIN + Z.of_nat k)%Z)
      (seq 0 (Z.to_nat (CIVIL_SCORE_MAX - CIVIL_SCORE_MIN) + 1)).

Definition SALARIED : string := "Salaried (Formal Employment)".

(** The keys of the feature dictionary (source lines 31-35), in
    insertion order. *)
Definition FEATURE_NAMES : list string :=
  [ "income_stability_proxy";
    "digital_transaction_volume";
    "social_reputation_proxy";
    "asset_ownership_proxy";
    "skill_versatility_proxy" ]%string.

(** The job types with a branch of their own in
    [simulate_alt_data_features]: all of [JOB_TYPES] but "Other". *)
Definition NAMED_JOB_TYPES : list string := removelast JOB_TYPES.

(** [clamp x lo hi] on rationals. *)
Definition clamp (x lo hi : Q) : Q := Qmax lo (Qmin x hi).

(** Two floats at most one unit in the last place apart. *)
Definition near (c p : float) : Prop :=
  p = c \/ p = next_up c \/ p = next_down c.

(** [pw] agrees with the correctly rounded power at [(x, n)] up to one
    unit in the last place: the accuracy a platform's [pow] has. *)
Definition pow_accurate_at (pw : float -> Z -> res float) (x : float) (n : Z)
  : Prop :=
  exists c p, Binary64.pow_cr x n = Ok c /\ pw x n = Ok p /\ near c p.

(** The binary64 reading with the correctly rounded power. *)
Definition b64 : PyFloat float := Binary64.binary64 Binary64.pow_cr.

Definition fle (x y : float) : Prop := PrimFloat.leb x y = true.
Definition flt (x y : float) : Prop := PrimFloat.ltb x y = true.

(** A float in [0.0, 1.0]: the range of a feature score. *)
Definition unit_float (x : float) : Prop :=
  fle (Binary64.Z2F 0) x /\ fle x (Binary64.Z2F 1).

(** An annual rate between 7% and 15%, as floats. *)
Definition documented_rate (rate : float) : Prop :=
  fle (Binary64.Q2F 0.07) rate /\ fle rate (Binary64.Q2F 0.15).

(** [1e308]: a float close to the largest one. *)
Definition huge_income : float := Binary64.Q2F (10 ^ 308).

(** A float that is neither [0.0] nor [-0.0]. *)
Definition nonzero (x : float) : bool :=
  match Prim2SF x with
  | S754_zero _ => false
  | _ => true
  end.

(** Signs of binary64 values, read off their specification: a value
    that is [<= 0] (a zero, a negative number or minus infinity), a
    positive finite value, and a value that carries the sign [s] and is
    not NaN. *)
Definition sf_nonpos (x : spec_float) : bool :=
  match x with
  | S754_zero _ | S754_finite true _ _ | S754_infinity true => true
  | _ => false
  end.

Definition sf_pos_finite (x : spec_float) : bool :=
  match x with
  | S754_finite false _ _ => true
  | _ => false
  end.

Definition sf_signed (s : bool) (x : spec_float) : Prop :=
  x = S754_zero s \/ x = S754_infinity s \/ exists m e, x = S754_finite s m e.

Definition float_nonpos (x : float) : bool := sf_nonpos (Prim2SF x).
Definition float_pos_finite (x : float) : bool := sf_pos_finite (Prim2SF x).

(** [1 + annual_rate / 12] in binary64: the base of both powers of
    [calculate_max_loan_and_emi]. *)
Definition monthly_base (annual_rate : float) : float :=
  PrimFloat.add (Binary64.Z2F 1) (PrimFloat.div annual_rate (Binary64.Z2F 12)).

(** A [pow] that answers [p1] to a negative exponent and [p2] to any
    other: the two values [calculate_max_loan_and_emi] asks for. *)
Definition two_valued_pow (p1 p2 : float) : float -> Z -> res float :=
  fun _ n => if (n <? 0)%Z then Ok p1 else Ok p2.

(** An offer of one of the two named lenders whose rate, in percent as
    the offer carries it, lies in the range that lender clamps to. *)
Definition b64_rate_in_lender_range (o : offer float) : Prop :=
  (bank_name o = "Inclusive Housing Finance Ltd."%string
   /\ fle (Binary64.Q2F 7.5) (interest_rate_pa o)
   /\ fle (interest_rate_pa o) (Binary64.Q2F 16))
  \/ (bank_name o = "Progressive National Bank"%string
      /\ fle (Binary64.Q2F 7) (interest_rate_pa o)
      /\ fle (interest_rate_pa o) (Binary64.Q2F 14)).

#[export] Existing Instance Exact.exact.

Ltac b64_ops :=
  cbn [lit of_int fadd fsub fmul fopp fdiv int_truediv fpow feqb fltb fleb
       py_round py_int Binary64.binary64] in *.

(** The correctly rounded values of [1.0075000000000001 ** -180] and
    [1.0075000000000001 ** 180] (about 0.26054943373706679 and
    3.8380432674789429): the two powers of the scenario 25000, 0.09, 15. *)
Definition scenario_pow_neg : float :=
  SF2Prim (S754_finite false 4693641330759391 (-54)).

Definition scenario_pow_pos : float :=
  SF2Prim (S754_finite false 8642505114625004 (-51)).

(** The rate of every credit score in binary64, and the check that it
    never increases with the score. *)
Definition b64_rate_table : list (Z * float) :=
  map (fun s => (s, calculate_loan_interest_rate (PF := b64) s)) credit_scores.

Definition antitone_table (t : list (Z * float)) : bool :=
  forallb (fun a =>
    forallb (fun b => implb (fst a <=? fst b)%Z (PrimFloat.leb (snd b) (snd a)))
            t) t.

(** ** Values of binary64 numbers *)

Section Values.
Local Open Scope Z_scope.

(** [2 ^ e] as a rational, and the value [m * 2 ^ e]. *)
Definition bpow (e : Z) : Q := (2 ^ e)%Q.

Definition mval (m e : Z) : Q := (inject_Z m * bpow e)%Q.

(** The record holds the mantissa with no bit lost so far. *)
Definition rec_exact (mrs : shr_record) : bool :=
  negb (shr_r mrs) && negb (shr_s mrs).

(** [b] is [a] shifted right by [k] bits. *)
Definition shifted (k : Z) (a b : shr_record) : Prop :=
  shr_m b = shr_m a / 2 ^ k
  /\ (rec_exact a = true -> shr_m a mod 2 ^ k = 0 -> rec_exact b = true).

(** [x] is a finite float, zero or positive, of value [q]. *)
Definition fval (x : float) (q : Q) : Prop :=
  match Prim2SF x with
  | S754_zero _ => (q == 0)%Q
  | S754_finite false m e => (q == mval (Z.pos m) e)%Q
  | _ => False
  end.

(** [x] is a finite float, zero or positive, whose value lies in
    [[lo, hi]]. *)
Definition in_range (x : float) (lo hi : Q) : Prop :=
  exists q, fval x q /\ (lo <= q)%Q /\ (q <= hi)%Q.

End Values.

Ltac exact_ops :=
  cbn [lit of_int fadd fsub fmul fopp fdiv int_truediv fpow feqb fltb fleb
       py_round py_int Exact.exact] in *.

(** ** Facts that hold in every reading

    They only follow the control flow of the source: which exception is
    caught where, and which divisions are guarded. *)

Lemma returns_Ok {A : Type} (a : A) : returns (Ok a).
Proof. exists a; reflexivity. Qed.

Lemma returns_not_raises {A : Type} (m : res A) : returns m -> ~ raises m.
Proof. intros [a ->] [e H]. discriminate. Qed.

#[local] Hint Resolve returns_Ok : core.

Section CoreFacts.
Context {F : Type} {PF : PyFloat F}.
Local Open Scope py_scope.

Lemma zero_rate_emi_returns (P : F) (n : Z) : returns (zero_rate_emi P n).
Proof.
  unfold zero_rate_emi, py_div_int.
  destruct (Z.gtb_spec n 0); [|auto].
  destruct (Z.eqb_spec n 0); [lia|auto].
Qed.

Lemma zero_rate_emi_pos (P : F) (n : Z) :
  (0 < n)%Z -> zero_rate_emi P n = Ok (fdiv P (of_int n)).
Proof.
  intros Hn. unfold zero_rate_emi, py_div_int.
  destruct (Z.gtb_spec n 0); [|lia].
  destruct (Z.eqb_spec n 0); [lia|reflexivity].
Qed.

Lemma py_div_guarded (x y : F) :
  (y == of_int 0) = false -> py_div x y = Ok (fdiv x y).
Proof. intros H; unfold py_div; rewrite H; reflexivity. Qed.

Lemma max_loan_amount_for_zero_rate (emi r : F) (n : Z) :
  (r == of_int 0) = true ->
  max_loan_amount_for emi r n = Ok (emi * of_int n).
Proof. intros H; unfold max_loan_amount_for; rewrite H; reflexivity. Qed.

Lemma max_loan_amount_for_value (emi r : F) (n : Z) (p : F) :
  (r == of_int 0) = false ->
  fpow (of_int 1 + r) (- n) = Ok p ->
  max_loan_amount_for emi r n = Ok (fdiv (emi * (of_int 1 - p)) r).
Proof.
  intros Hr Hp. unfold max_loan_amount_for, present_value.
  rewrite Hr, Hp. simpl. rewrite (py_div_guarded _ _ Hr). reflexivity.
Qed.

Lemma max_loan_amount_for_overflow (emi r : F) (n : Z) :
  (r == of_int 0) = false ->
  fpow (of_int 1 + r) (- n) = Raise OverflowError ->
  max_loan_amount_for emi r n = Ok (of_int 0).
Proof.
  intros Hr Hp. unfold max_loan_amount_for, present_value.
  rewrite Hr, Hp. reflexivity.
Qed.

Lemma max_loan_amount_for_returns (emi r : F) (n : Z) :
  ok_or_overflow (fpow (of_int 1 + r) (- n)) ->
  returns (max_loan_amount_for emi r n).
Proof.
  intros Hp. destruct (r == of_int 0) eqn:Hr.
  - rewrite max_loan_amount_for_zero_rate; auto.
  - destruct Hp as [Hp | [p Hp]].
    + rewrite max_loan_amount_for_overflow; auto.
    + rewrite (max_loan_amount_for_value _ _ _ _ Hr Hp); auto.
Qed.

Lemma amortized_emi_value (P r : F) (n : Z) (p : F) :
  fpow (of_int 1 + r) n = Ok p ->
  (p - of_int 1 == of_int 0) = false ->
  amortized_emi P r n = Ok (fdiv (P * r * p) (p - of_int 1)).
Proof.
  intros Hp Hd. unfold amortized_emi. rewrite Hp. simpl.
  rewrite Hd. apply py_div_guarded, Hd.
Qed.

Lemma amortized_emi_zero_denominator (P r : F) (n : Z) (p : F) :
  fpow (of_int 1 + r) n = Ok p ->
  (p - of_int 1 == of_int 0) = true ->
  amortized_emi P r n = zero_rate_emi P n.
Proof.
  intros Hp Hd. unfold amortized_emi. rewrite Hp. simpl.
  rewrite Hd. reflexivity.
Qed.

Lemma actual_emi_for_zero_rate (income P r : F) (n : Z) :
  (r == of_int 0) = true ->
  actual_emi_for income P r n = zero_rate_emi P n.
Proof. intros H; unfold actual_emi_for; rewrite H; reflexivity. Qed.

Lemma actual_emi_for_value (income P r : F) (n : Z) (p : F) :
  (r == of_int 0) = false ->
  fpow (of_int 1 + r) n = Ok p ->
  (p - of_int 1 == of_int 0) = false ->
  actual_emi_for income P r n = Ok (fdiv (P * r * p) (p - of_int 1)).
Proof.
  intros Hr Hp Hd. unfold actual_emi_for. rewrite Hr.
  rewrite (amortized_emi_value _ _ _ _ Hp Hd). reflexivity.
Qed.

Lemma actual_emi_for_overflow (income P r : F) (n : Z) :
  (r == of_int 0) = false ->
  fpow (of_int 1 + r) n = Raise OverflowError ->
  actual_emi_for income P r n = Ok income.
Proof.
  intros Hr Hp. unfold actual_emi_for, amortized_emi.
  rewrite Hr, Hp. reflexivity.
Qed.

Lemma actual_emi_for_zero_denominator (income P r : F) (n : Z) (p : F) :
  (r == of_int 0) = false ->
  fpow (of_int 1 + r) n = Ok p ->
  (p - of_int 1 == of_int 0) = true ->
  (0 < n)%Z ->
  actual_emi_for income P r n = Ok (fdiv P (of_int n)).
Proof.
  intros Hr Hp Hd Hn. unfold actual_emi_for. rewrite Hr.
  rewrite (amortized_emi_zero_denominator _ _ _ _ Hp Hd).
  rewrite (zero_rate_emi_pos _ _ Hn). reflexivity.
Qed.

Lemma actual_emi_for_returns (income P r : F) (n : Z) :
  ok_or_overflow (fpow (of_int 1 + r) n) ->
  returns (actual_emi_for income P r n).
Proof.
  intros Hp. destruct (r == of_int 0) eqn:Hr.
  - rewrite actual_emi_for_zero_rate; auto using zero_rate_emi_returns.
  - destruct Hp as [Hp | [p Hp]].
    + rewrite actual_emi_for_overflow; auto.
    + destruct (p - of_int 1 == of_int 0) eqn:Hd.
      * unfold actual_emi_for. rewrite Hr.
        rewrite (amortized_emi_zero_denominator _ _ _ _ Hp Hd).
        destruct (zero_rate_emi_returns P n) as [E ->]. simpl. auto.
      * rewrite (actual_emi_for_value _ _ _ _ _ Hr Hp Hd); auto.
Qed.

Lemma calculate_unfold (income rate : F) (years : Z) :
  calculate_max_loan_and_emi income rate years
  = (P <- max_loan_amount_for (income * lit MAX_EMI_TO_INCOME_RATIO)
                              (fdiv rate (of_int 12)) (years * 12) ;;
     if P <=? of_int 0 then Ok (of_int 0, of_int 0)
     else (E <- actual_emi_for income P (fdiv rate (of_int 12)) (years * 12) ;;
           Ok (py_round P 2, py_round E 2))).
Proof. reflexivity. Qed.

(** The engine raises nothing as long as [**] raises nothing but
    [OverflowError]. *)
Lemma calculate_returns (income rate : F) (years : Z) :
  ok_or_overflow (fpow (of_int 1 + fdiv rate (of_int 12)) (- (years * 12))) ->
  ok_or_overflow (fpow (of_int 1 + fdiv rate (of_int 12)) (years * 12)) ->
  returns (calculate_max_loan_and_emi income rate years).
Proof.
  intros H1 H2. rewrite calculate_unfold.
  destruct (max_loan_amount_for_returns
              (income * lit MAX_EMI_TO_INCOME_RATIO) _ _ H1) as [P ->].
  simpl. destruct (P <=? of_int 0); auto.
  destruct (actual_emi_for_returns income P _ _ H2) as [E ->].
  simpl. auto.
Qed.

Lemma calculate_nonpositive (income rate : F) (years : Z) (P : F) :
  max_loan_amount_for (income * lit MAX_EMI_TO_INCOME_RATIO)
                      (fdiv rate (of_int 12)) (years * 12) = Ok P ->
  (P <=? of_int 0) = true ->
  calculate_max_loan_and_emi income rate years = Ok (of_int 0, of_int 0).
Proof.
  intros HP Hle. rewrite calculate_unfold, HP. simpl. rewrite Hle.
  reflexivity.
Qed.

Lemma calculate_positive (income rate : F) (years : Z) (P E : F) :
  max_loan_amount_for (income * lit MAX_EMI_TO_INCOME_RATIO)
                      (fdiv rate (of_int 12)) (years * 12) = Ok P ->
  (P <=? of_int 0) = false ->
  actual_emi_for income P (fdiv rate (of_int 12)) (years * 12) = Ok E ->
  calculate_max_loan_and_emi income rate years
  = Ok (py_round P 2, py_round E 2).
Proof.
  intros HP Hle HE. rewrite calculate_unfold, HP. simpl. rewrite Hle, HE.
  reflexivity.
Qed.

(** An [OverflowError] of the present-value computation ends in [(0, 0)]. *)
Lemma calculate_pv_overflow (income rate : F) (years : Z) :
  (of_int 0 <=? of_int 0) = true ->
  (fdiv rate (of_int 12) == of_int 0) = false ->
  fpow (of_int 1 + fdiv rate (of_int 12)) (- (years * 12))
  = Raise OverflowError ->
  calculate_max_loan_and_emi income rate years = Ok (of_int 0, of_int 0).
Proof.
  intros H0 Hr Hp. apply calculate_nonpositive with (P := of_int 0); auto.
  apply max_loan_amount_for_overflow; auto.
Qed.

(** The offer list, once the three inner computations have returned. *)
Lemma get_mock_value
    (max emi : F) (score years : Z) (base u1 u2 : F) (x : F * F) (e1 e2 : F) :
  calculate_max_loan_and_emi (of_int 0) (bank1_interest_rate score base) years
  = Ok x ->
  bank_emi_recalc (py_round (max * u1) (-3)) (bank1_interest_rate score base)
                  years = Ok e1 ->
  bank_emi_recalc (py_round (max * u2) (-3)) (bank2_interest_rate score base)
                  years = Ok e2 ->
  get_mock_bank_loan_options max emi score years base u1 u2
  = Ok (assemble_options max emi score years base
          (py_round (max * u1) (-3)) e1 (py_round (max * u2) (-3)) e2).
Proof.
  intros H0 H1 H2. unfold get_mock_bank_loan_options.
  rewrite H0. simpl. rewrite H1. simpl. rewrite H2. reflexivity.
Qed.

Lemma get_mock_inv
    (max emi : F) (score years : Z) (base u1 u2 : F) (l : list (offer F)) :
  get_mock_bank_loan_options max emi score years base u1 u2 = Ok l ->
  exists e1 e2,
    l = assemble_options max emi score years base
          (py_round (max * u1) (-3)) e1 (py_round (max * u2) (-3)) e2.
Proof.
  unfold get_mock_bank_loan_options.
  destruct (calculate_max_loan_and_emi _ _ _) as [x|]; [simpl|discriminate].
  destruct (bank_emi_recalc _ _ _) as [e1|]; [simpl|discriminate].
  destruct (bank_emi_recalc _ _ _) as [e2|]; [simpl|discriminate].
  intros [= <-]. exists e1, e2. reflexivity.
Qed.

(** Neither lender qualifies and the maximum is positive: the list is the
    one generic offer. *)
Lemma assemble_options_fallback
    (max emi : F) (score years : Z) (base a1 e1 a2 e2 : F) :
  (a1 >? of_int 10000) = false ->
  (a2 >? of_int 10000) = false ->
  (max >? of_int 0) = true ->
  assemble_options max emi score years base a1 e1 a2 e2
  = [generic_offer max emi years base].
Proof.
  intros H1 H2 H3. unfold assemble_options. rewrite H1, H2. simpl.
  rewrite H3. reflexivity.
Qed.

Lemma assemble_options_both
    (max emi : F) (score years : Z) (base a1 e1 a2 e2 : F) :
  (a1 >? of_int 10000) = true ->
  (a2 >? of_int 10000) = true ->
  assemble_options max emi score years base a1 e1 a2 e2
  = [bank1_offer a1 (bank1_interest_rate score base) years e1;
     bank2_offer a2 (bank2_interest_rate score base) years e2].
Proof.
  intros H1 H2. unfold assemble_options. rewrite H1, H2. reflexivity.
Qed.

Lemma assemble_options_none
    (max emi : F) (score years : Z) (base a1 e1 a2 e2 : F) :
  (a1 >? of_int 10000) = false ->
  (a2 >? of_int 10000) = false ->
  (max >? of_int 0) = false ->
  assemble_options max emi score years base a1 e1 a2 e2 = [].
Proof.
  intros H1 H2 H3. unfold assemble_options. rewrite H1, H2. simpl.
  rewrite H3. reflexivity.
Qed.

(** [min(hi, max(lo, e))] lies between [lo] and [hi] in any reading in
    which a strict comparison implies the large one. *)
Lemma py_min_max_bounds (lo hi e : F) :
  (forall x y : F, (x <? y) = true -> (x <=? y) = true) ->
  (lo <=? lo) = true -> (hi <=? hi) = true -> (lo <=? hi) = true ->
  (lo <=? py_min hi (py_max lo e)) = true
  /\ (py_min hi (py_max lo e) <=? hi) = true.
Proof.
  intros Hlt Hlo Hhi Hlh. unfold py_min, py_max.
  destruct (lo <? e) eqn:E1.
  - destruct (e <? hi) eqn:E2; auto.
  - destruct (lo <? hi) eqn:E2; auto.
Qed.

(** [max(lo, min(e, hi))] likewise; here the comparisons must also be
    total on the values that compare with themselves (all but NaN). *)
Lemma py_max_min_bounds (lo hi e : F) :
  (forall x y : F, (x <? y) = true -> (x <=? y) = true) ->
  (forall x y : F, (x <? y) = true -> (y <=? y) = true) ->
  (forall x y : F, (x <=? x) = true -> (y <=? y) = true ->
                   (x <? y) = false -> (y <=? x) = true) ->
  (lo <=? lo) = true -> (hi <=? hi) = true -> (lo <=? hi) = true ->
  (lo <=? py_max lo (py_min e hi)) = true
  /\ (py_max lo (py_min e hi) <=? hi) = true.
Proof.
  intros Hlt Hrefl Htot Hlo Hhi Hlh. unfold py_min, py_max.
  destruct (hi <? e) eqn:E1.
  - destruct (lo <? hi) eqn:E2; auto.
  - destruct (lo <? e) eqn:E2; auto.
    split; [auto|]. apply Htot; eauto.
Qed.

Lemma avg_feature_score_nonempty (d : dict F) :
  d <> [] ->
  avg_feature_score d = Ok (fdiv (py_sum (dict_values d)) (of_int (len d))).
Proof.
  destruct d as [|kv d]; [congruence|]. intros _.
  unfold avg_feature_score, py_div_int, len.
  destruct (Z.eqb_spec (Z.of_nat (List.length (kv :: d))) 0) as [E|E].
  - simpl List.length in E. lia.
  - reflexivity.
Qed.

(** A score that is returned is the clamped truncation of
    [300 + average * 600]. *)
Lemma generate_civil_score_inv (d : dict F) (s : Z) :
  generate_civil_score d = Ok s ->
  exists (avg : F) (c : Z),
    avg_feature_score d = Ok avg
    /\ py_int (of_int 300 + avg * of_int 600) = Ok c
    /\ s = Z.max 300 (Z.min c 900)
    /\ (300 <= s <= 900)%Z.
Proof.
  unfold generate_civil_score.
  destruct (avg_feature_score d) as [avg|]; [cbn [bind]|discriminate].
  change (of_int CIVIL_SCORE_MIN) with (of_int 300).
  change (of_int (CIVIL_SCORE_MAX - CIVIL_SCORE_MIN)) with (of_int 600).
  destruct (py_int _) as [c|] eqn:E; [cbn [bind]|discriminate].
  unfold CIVIL_SCORE_MIN, CIVIL_SCORE_MAX. intros [= <-].
  exists avg, c. split; [reflexivity|]. split; [exact E|].
  split; [reflexivity|lia].
Qed.

(** An [OverflowError] of the installment recomputation ends in the
    income as the installment. *)
Lemma calculate_installment_overflow (income rate : F) (years : Z) (P : F) :
  (fdiv rate (of_int 12) == of_int 0) = false ->
  max_loan_amount_for (income * lit MAX_EMI_TO_INCOME_RATIO)
                      (fdiv rate (of_int 12)) (years * 12) = Ok P ->
  (P <=? of_int 0) = false ->
  fpow (of_int 1 + fdiv rate (of_int 12)) (years * 12) = Raise OverflowError ->
  calculate_max_loan_and_emi income rate years
  = Ok (py_round P 2, py_round income 2).
Proof.
  intros Hr HP Hle Hp. apply calculate_positive; auto.
  apply actual_emi_for_overflow; assumption.
Qed.

(** *** The offer generator returns when its powers do *)

Lemma bank_emi_recalc_returns_pow (a r : F) (years : Z) :
  returns (fpow (of_int 1 + fdiv r (of_int 12)) (years * 12)%Z) ->
  returns (bank_emi_recalc a r years).
Proof.
  intros [p Hp]. unfold bank_emi_recalc.
  destruct (_ && _); [|apply returns_Ok].
  rewrite Hp. cbn [bind]. destruct (_ <? _); apply returns_Ok.
Qed.

Lemma get_mock_returns_pow
    (max emi : F) (score years : Z) (base u1 u2 : F) :
  returns (fpow (of_int 1 + fdiv (bank1_interest_rate score base) (of_int 12))
             (- (years * 12))%Z) ->
  returns (fpow (of_int 1 + fdiv (bank1_interest_rate score base) (of_int 12))
             (years * 12)%Z) ->
  returns (fpow (of_int 1 + fdiv (bank2_interest_rate score base) (of_int 12))
             (years * 12)%Z) ->
  exists e1 e2,
    get_mock_bank_loan_options max emi score years base u1 u2
    = Ok (assemble_options max emi score years base
            (py_round (max * u1) (-3)) e1 (py_round (max * u2) (-3)) e2).
Proof.
  intros H1 H2 H3.
  destruct (calculate_returns (of_int 0) (bank1_interest_rate score base) years
              (or_intror H1) (or_intror H2)) as [x Hx].
  destruct (bank_emi_recalc_returns_pow (py_round (max * u1) (-3))
              (bank1_interest_rate score base) years H2) as [e1 E1].
  destruct (bank_emi_recalc_returns_pow (py_round (max * u2) (-3))
              (bank2_interest_rate score base) years H3) as [e2 E2].
  exists e1, e2.
  exact (get_mock_value max emi score years base u1 u2 x e1 e2 Hx E1 E2).
Qed.

(** *** The feature sets and the shape of the offer lists *)

Lemma simulate_keys (job_type : string) :
  map fst (simulate_alt_data_features job_type) = FEATURE_NAMES.
Proof.
  unfold simulate_alt_data_features.
  repeat (destruct (String.eqb job_type _); [reflexivity|]).
  reflexivity.
Qed.

Lemma simulate_length (job_type : string) :
  List.length (simulate_alt_data_features job_type) = 5%nat.
Proof.
  rewrite <- (length_map fst), simulate_keys. reflexivity.
Qed.

Lemma simulate_other (job_type : string) :
  existsb (String.eqb job_type) NAMED_JOB_TYPES = false ->
  simulate_alt_data_features job_type
  = map (fun k => (k, lit 0.5)) FEATURE_NAMES.
Proof.
  unfold NAMED_JOB_TYPES, JOB_TYPES. cbn [removelast existsb].
  intros H. unfold simulate_alt_data_features.
  repeat (destruct (String.eqb job_type _); [discriminate H|]).
  reflexivity.
Qed.

Lemma offers_shape
    (max emi : F) (score years : Z) (base u1 u2 : F) (l : list (offer F)) :
  get_mock_bank_loan_options max emi score years base u1 u2 = Ok l ->
  (List.length l <= 2)%nat
  /\ (fltb (of_int 0) max = true -> l <> [])
  /\ (forall o, In o l -> tenure_years o = years)
  /\ (forall o, In o l ->
        (bank_name o = "Generic Lender Co."%string /\ l = [o]
         /\ fltb (of_int 10000) (py_round (fmul max u1) (-3)) = false
         /\ fltb (of_int 10000) (py_round (fmul max u2) (-3)) = false)
        \/ (bank_name o <> "Generic Lender Co."%string
            /\ fltb (of_int 10000) (offered_loan_amount o) = true)).
Proof.
  intros H. destruct (get_mock_inv _ _ _ _ _ _ _ _ H) as (e1 & e2 & ->).
  clear H. unfold assemble_options.
  destruct (fltb (of_int 10000) (py_round (fmul max u1) (-3))) eqn:Q1;
  destruct (fltb (of_int 10000) (py_round (fmul max u2) (-3))) eqn:Q2;
  cbn [app];
  try destruct (fltb (of_int 0) max) eqn:Q0; cbn [app List.length In];
  (split; [lia|]); (split; [try discriminate; try congruence|]);
  (split; [intros o Ho; repeat (destruct Ho as [<-|Ho]; [reflexivity|]);
           contradiction|]);
  intros o Ho; repeat (destruct Ho as [<-|Ho];
    [first [ right; split; [discriminate|assumption]
           | left; split; [reflexivity|]; split; [reflexivity|];
             split; reflexivity ]|]); contradiction.
Qed.

End CoreFacts.

(** ** Facts of the exact reading *)

Section ExactFacts.
Local Open Scope Q_scope.

Lemma Qltb_true (x y : Q) : Exact.Qltb x y = true <-> x < y.
Proof.
  unfold Exact.Qltb. rewrite negb_true_iff.
  split; intros H.
  - apply Qnot_le_lt. intros C. apply Qle_bool_iff in C. congruence.
  - destruct (Qle_bool y x) eqn:E; [|reflexivity].
    apply Qle_bool_iff in E. apply Qlt_not_le in H. contradiction.
Qed.

Lemma Qltb_false (x y : Q) : Exact.Qltb x y = false <-> y <= x.
Proof.
  unfold Exact.Qltb. rewrite negb_false_iff. apply Qle_bool_iff.
Qed.

Lemma Qle_bool_false (x y : Q) : Qle_bool x y = false <-> y < x.
Proof.
  split; intros H.
  - apply Qnot_le_lt. intros C. apply Qle_bool_iff in C. congruence.
  - destruct (Qle_bool x y) eqn:E; [|reflexivity].
    apply Qle_bool_iff in E. apply Qlt_not_le in H. contradiction.
Qed.

Lemma Qeq_bool_false (x y : Q) : Qeq_bool x y = false <-> ~ x == y.
Proof.
  split; intros H.
  - intros C. apply Qeq_bool_iff in C. congruence.
  - destruct (Qeq_bool x y) eqn:E; [|reflexivity].
    apply Qeq_bool_iff in E. contradiction.
Qed.

Lemma floor_frac_bounds (q : Q) :
  0 <= q - inject_Z (Qfloor q) /\ q - inject_Z (Qfloor q) < 1.
Proof.
  pose proof (Qfloor_le q). pose proof (Qlt_floor q).
  rewrite inject_Z_plus in H0. change (inject_Z 1) with 1 in H0. split; lra.
Qed.

Lemma round_half_even_bounds (q : Q) :
  q - (1 # 2) <= inject_Z (Exact.round_half_even q)
  /\ inject_Z (Exact.round_half_even q) <= q + (1 # 2).
Proof.
  unfold Exact.round_half_even.
  destruct (floor_frac_bounds q) as [H0 H1].
  destruct (Qcompare_spec (q - inject_Z (Qfloor q)) (1 # 2)) as [E|E|E].
  - destruct (Z.even (Qfloor q)); rewrite ?inject_Z_plus;
      change (inject_Z 1) with 1; split; lra.
  - split; lra.
  - rewrite inject_Z_plus. change (inject_Z 1) with 1. split; lra.
Qed.

Lemma round_half_even_Z (z : Z) : Exact.round_half_even (inject_Z z) = z.
Proof.
  unfold Exact.round_half_even. rewrite Qfloor_Z.
  destruct (Qcompare_spec (inject_Z z - inject_Z z) (1 # 2)) as [E|E|E];
    try reflexivity; lra.
Qed.

Lemma inject_Z_lt_inv (a b : Z) : inject_Z a < inject_Z b -> (a < b)%Z.
Proof. rewrite <- Zlt_Qlt. auto. Qed.

Lemma round_half_even_mono (x y : Q) :
  x <= y -> (Exact.round_half_even x <= Exact.round_half_even y)%Z.
Proof.
  intros Hxy. pose proof (Qfloor_resp_le _ _ Hxy) as Hf.
  unfold Exact.round_half_even.
  destruct (floor_frac_bounds x) as [Hx0 Hx1].
  destruct (floor_frac_bounds y) as [Hy0 Hy1].
  destruct (Z.eq_dec (Qfloor x) (Qfloor y)) as [E|E].
  - rewrite E in *.
    destruct (Qcompare_spec (x - inject_Z (Qfloor y)) (1 # 2));
    destruct (Qcompare_spec (y - inject_Z (Qfloor y)) (1 # 2));
    destruct (Z.even (Qfloor y)); try lia; lra.
  - assert (Qfloor x + 1 <= Qfloor y)%Z by lia.
    destruct (Qcompare_spec (x - inject_Z (Qfloor x)) (1 # 2));
    destruct (Qcompare_spec (y - inject_Z (Qfloor y)) (1 # 2));
    destruct (Z.even (Qfloor y)); destruct (Z.even (Qfloor x)); lia.
Qed.

Lemma round_half_even_ge (q : Q) (z : Z) :
  inject_Z z <= q -> (z <= Exact.round_half_even q)%Z.
Proof.
  intros H. rewrite <- (round_half_even_Z z). apply round_half_even_mono, H.
Qed.

Lemma round_half_even_le (q : Q) (z : Z) :
  q <= inject_Z z -> (Exact.round_half_even q <= z)%Z.
Proof.
  intros H. pose proof (round_half_even_mono _ _ H) as M.
  rewrite round_half_even_Z in M. exact M.
Qed.

Lemma inject_Z_12 : / inject_Z 12 = 1 # 12. Proof. reflexivity. Qed.

Lemma monthly_rate_nonneg (rate : Q) : 0 <= rate -> 0 <= rate / inject_Z 12.
Proof. intros H. unfold Qdiv. rewrite inject_Z_12. lra. Qed.

Lemma pow_exact_ok (x : Q) (n : Z) : ~ x == 0 -> Exact.pow x n = Ok (x ^ n).
Proof.
  intros H. unfold Exact.pow. apply Qeq_bool_false in H. rewrite H. reflexivity.
Qed.

Lemma pow_exact_pos (x : Q) (n : Z) : 0 < x -> Exact.pow x n = Ok (x ^ n).
Proof. intros H. apply pow_exact_ok. lra. Qed.

Lemma exact_calculate_returns (income rate : Q) (years : Z) :
  0 <= rate -> returns (calculate_max_loan_and_emi income rate years).
Proof.
  intros Hr. pose proof (monthly_rate_nonneg rate Hr) as Hm.
  apply calculate_returns; right; exact_ops;
    (rewrite pow_exact_pos; [apply returns_Ok|]);
    change (inject_Z 1) with 1; lra.
Qed.

(** *** RateEstimator *)

Lemma py_min_Qmin (a b : Q) : py_min a b == Qmin a b.
Proof.
  unfold py_min. exact_ops. destruct (Exact.Qltb b a) eqn:E.
  - apply Qltb_true in E. rewrite Q.min_r; lra.
  - apply Qltb_false in E. rewrite Q.min_l; lra.
Qed.

Lemma py_max_Qmax (a b : Q) : py_max a b == Qmax a b.
Proof.
  unfold py_max. exact_ops. destruct (Exact.Qltb a b) eqn:E.
  - apply Qltb_true in E. rewrite Q.max_r; lra.
  - apply Qltb_false in E. rewrite Q.max_l; lra.
Qed.

Lemma exact_rate_clamp (score : Z) :
  calculate_loan_interest_rate score
  == clamp (0.09 - ((inject_Z score - 600) / 100) * 0.0025) 0.07 0.15.
Proof.
  unfold calculate_loan_interest_rate, clamp.
  rewrite py_max_Qmax, py_min_Qmin. exact_ops.
  unfold ANNUAL_INTEREST_RATE_DEFAULT, CIVIL_SCORE_MIN, CIVIL_SCORE_MAX.
  apply Q.max_compat; [reflexivity|].
  apply Q.min_compat; [|reflexivity].
  change (inject_Z (900 - 300) / inject_Z 2) with (600 # 2).
  change (inject_Z 300) with (300 # 1). change (inject_Z 100) with (100 # 1).
  field.
Qed.

Lemma clamp_bounds (x lo hi : Q) : lo <= hi -> lo <= clamp x lo hi <= hi.
Proof.
  intros H. unfold clamp.
  destruct (Q.max_spec lo (Qmin x hi)) as [[? ->]|[? ->]];
  destruct (Q.min_spec x hi) as [[? E]|[? E]]; rewrite ?E in *; split; lra.
Qed.

Lemma clamp_mono (x y lo hi : Q) : x <= y -> clamp x lo hi <= clamp y lo hi.
Proof.
  intros H. unfold clamp.
  apply Q.max_le_compat_l. apply Q.min_le_compat_r. exact H.
Qed.

Lemma exact_rate_bounds (score : Z) :
  0.07 <= calculate_loan_interest_rate score <= 0.15.
Proof. rewrite exact_rate_clamp. apply clamp_bounds. lra. Qed.

Lemma exact_rate_antitone (s1 s2 : Z) :
  (s1 <= s2)%Z ->
  calculate_loan_interest_rate s2 <= calculate_loan_interest_rate s1.
Proof.
  intros H. rewrite !exact_rate_clamp. apply clamp_mono.
  rewrite Zle_Qle in H. unfold Qdiv. change (/ 100) with (1 # 100). lra.
Qed.

(** *** Lender rates *)

Lemma Qltb_Qle_bool (x y : Q) : fltb x y = true -> fleb x y = true.
Proof. exact_ops. rewrite Qltb_true, Qle_bool_iff. lra. Qed.

Lemma exact_bank1_rate_bounds (score : Z) (base : Q) :
  0.075 <= bank1_interest_rate score base <= 0.16.
Proof.
  unfold bank1_interest_rate.
  destruct (py_min_max_bounds (F := Q) 0.075 0.16
              (base + lit 0.005 - int_truediv (score - 600) 100 * lit 0.001)%py
              Qltb_Qle_bool eq_refl eq_refl eq_refl) as [H1 H2].
  split; apply Qle_bool_iff; assumption.
Qed.

Lemma exact_bank2_rate_bounds (score : Z) (base : Q) :
  0.07 <= bank2_interest_rate score base <= 0.14.
Proof.
  unfold bank2_interest_rate.
  destruct (py_min_max_bounds (F := Q) 0.07 0.14
              (base + lit (-0.002) - int_truediv (score - 650) 100 * lit 0.002)%py
              Qltb_Qle_bool eq_refl eq_refl eq_refl) as [H1 H2].
  split; apply Qle_bool_iff; assumption.
Qed.

(** *** Offers *)

Lemma round_ndigits_2 (x : Q) :
  Exact.round_ndigits x 2 = inject_Z (Exact.round_half_even (x * 100)) * (1 # 100).
Proof. reflexivity. Qed.

Lemma round_ndigits_m3 (x : Q) :
  Exact.round_ndigits x (-3)
  = inject_Z (Exact.round_half_even (x * (1 # 1000))) * 1000.
Proof. reflexivity. Qed.

Lemma exact_bank_emi_recalc_returns (a r : Q) (years : Z) :
  0 <= r -> returns (bank_emi_recalc a r years).
Proof.
  intros Hr. pose proof (monthly_rate_nonneg r Hr) as Hm.
  unfold bank_emi_recalc.
  destruct (_ && _); [|apply returns_Ok].
  exact_ops. rewrite pow_exact_pos by (change (inject_Z 1) with 1; lra).
  simpl. destruct (Exact.Qltb _ _); apply returns_Ok.
Qed.

Lemma exact_get_mock_returns
    (max emi : Q) (score years : Z) (base u1 u2 : Q) :
  exists e1 e2,
    get_mock_bank_loan_options max emi score years base u1 u2
    = Ok (assemble_options max emi score years base
            (Exact.round_ndigits (max * u1) (-3)) e1
            (Exact.round_ndigits (max * u2) (-3)) e2).
Proof.
  pose proof (exact_bank1_rate_bounds score base) as B1.
  pose proof (exact_bank2_rate_bounds score base) as B2.
  destruct (exact_calculate_returns (of_int 0)
              (bank1_interest_rate score base) years) as [x Hx]; [lra|].
  destruct (exact_bank_emi_recalc_returns
              (py_round (max * u1) (-3)) (bank1_interest_rate score base) years)
    as [e1 H1]; [lra|].
  destruct (exact_bank_emi_recalc_returns
              (py_round (max * u2) (-3)) (bank2_interest_rate score base) years)
    as [e2 H2]; [lra|].
  exists e1, e2.
  exact (get_mock_value max emi score years base u1 u2 x e1 e2 Hx H1 H2).
Qed.

End ExactFacts.

(** ** Facts of the binary64 reading *)

Lemma SFcompare_lt_le (x y : spec_float) :
  SFltb x y = true -> SFleb x y = true.
Proof. unfold SFltb, SFleb. destruct (SFcompare x y) as [[]|]; congruence. Qed.

Lemma float_lt_le (x y : float) :
  PrimFloat.ltb x y = true -> PrimFloat.leb x y = true.
Proof. rewrite ltb_spec, leb_spec. apply SFcompare_lt_le. Qed.

Lemma SFcompare_refl (x : spec_float) :
  x <> S754_nan -> SFcompare x x = Some Eq.
Proof.
  destruct x as [s|s| |s m e]; simpl; try congruence; intros _.
  - destruct s; reflexivity.
  - rewrite Z.compare_refl, Pos.compare_cont_refl. destruct s; reflexivity.
Qed.

Lemma SFcompare_None (x y : spec_float) :
  SFcompare x y = None -> x = S754_nan \/ y = S754_nan.
Proof.
  destruct x as [s|s| |s m e], y as [s'|s'| |s' m' e']; simpl; auto;
    discriminate.
Qed.

Lemma SFcompare_antisym (x y : spec_float) :
  SFcompare y x = option_map CompOpp (SFcompare x y).
Proof.
  destruct x as [s|s| |s m e], y as [s'|s'| |s' m' e']; simpl; auto;
    try (destruct s; reflexivity); try (destruct s'; reflexivity);
    try (destruct s, s'; reflexivity).
  destruct s, s'; simpl; try reflexivity;
    rewrite (Z.compare_antisym e e'); destruct (e ?= e')%Z eqn:E; simpl;
      try reflexivity;
      rewrite (Pos.compare_cont_antisym m m' Eq); simpl;
      destruct (Pos.compare_cont Eq m m'); reflexivity.
Qed.

Lemma float_lt_refl_r (x y : float) :
  PrimFloat.ltb x y = true -> PrimFloat.leb y y = true.
Proof.
  rewrite ltb_spec, leb_spec. unfold SFltb, SFleb. intros H.
  rewrite SFcompare_refl; [reflexivity|].
  intros E. rewrite E in H.
  destruct (Prim2SF x); simpl in H; discriminate.
Qed.

Lemma float_le_total (x y : float) :
  PrimFloat.leb x x = true -> PrimFloat.leb y y = true ->
  PrimFloat.ltb x y = false -> PrimFloat.leb y x = true.
Proof.
  rewrite ltb_spec, !leb_spec. unfold SFltb, SFleb. intros Hx Hy.
  rewrite (SFcompare_antisym (Prim2SF x) (Prim2SF y)).
  destruct (SFcompare (Prim2SF x) (Prim2SF y)) as [[]|] eqn:E; simpl;
    try congruence.
  apply SFcompare_None in E. destruct E as [E|E]; rewrite E in *;
    simpl in *; discriminate.
Qed.

(** The power never fails on a base that is not zero, except by the size of its result. *)
Lemma pow_cr_ok_or_overflow (x : float) (n : Z) :
  (forall s, Prim2SF x <> S754_zero s) ->
  ok_or_overflow (Binary64.pow_cr x n).
Proof.
  intros Hx. unfold Binary64.pow_cr.
  destruct (n =? 0)%Z; [right; apply returns_Ok|].
  destruct (Prim2SF x) as [s|s| |s m e] eqn:E.
  - exfalso. apply (Hx s). reflexivity.
  - right. destruct (n <? 0)%Z; apply returns_Ok.
  - right. apply returns_Ok.
  - destruct (Binary64.strip_zeros m e) as [m' e'].
    destruct (Binary64.is_finite _); [right; apply returns_Ok|left; reflexivity].
Qed.

Lemma nonzero_spec (x : float) :
  nonzero x = true -> forall s, Prim2SF x <> S754_zero s.
Proof. unfold nonzero. intros H s E. rewrite E in H. discriminate. Qed.

Lemma credit_scores_spec (s : Z) :
  (CIVIL_SCORE_MIN <= s <= CIVIL_SCORE_MAX)%Z -> In s credit_scores.
Proof.
  intros H. unfold credit_scores. apply in_map_iff.
  exists (Z.to_nat (s - CIVIL_SCORE_MIN)). split.
  - rewrite Z2Nat.id; lia.
  - apply in_seq. unfold CIVIL_SCORE_MIN, CIVIL_SCORE_MAX in *. lia.
Qed.

Lemma b64_pipeline_bases_nonzero :
  forallb (fun s => nonzero (monthly_base (calculate_loan_interest_rate (PF := b64) s)))
          credit_scores = true.
Proof. vm_compute. reflexivity. Qed.

Lemma b64_calculate_returns (income : float) (score years : Z) :
  (CIVIL_SCORE_MIN <= score <= CIVIL_SCORE_MAX)%Z ->
  returns (calculate_max_loan_and_emi (PF := b64) income
             (calculate_loan_interest_rate (PF := b64) score) years).
Proof.
  intros Hs. apply credit_scores_spec in Hs.
  pose proof (proj1 (forallb_forall _ _) b64_pipeline_bases_nonzero _ Hs) as Hb.
  pose proof (nonzero_spec _ Hb) as Hz.
  apply (calculate_returns (PF := b64)); apply pow_cr_ok_or_overflow; exact Hz.
Qed.

(** rate *)
Lemma b64_rate_bounds (score : Z) :
  fle (Binary64.Q2F 0.07) (calculate_loan_interest_rate (PF := b64) score)
  /\ fle (calculate_loan_interest_rate (PF := b64) score) (Binary64.Q2F 0.15).
Proof.
  unfold calculate_loan_interest_rate, fle.
  apply (py_max_min_bounds (PF := b64));
    [ exact float_lt_le | exact float_lt_refl_r | exact float_le_total
    | vm_compute; reflexivity .. ].
Qed.

Section Binary64Facts.
Local Open Scope Z_scope.

Lemma b64_calculate_pow_ext (pw pw' : float -> Z -> res float)
    (income rate : float) (years : Z) :
  pw (monthly_base rate) (- (years * 12)) = pw' (monthly_base rate) (- (years * 12)) ->
  pw (monthly_base rate) (years * 12) = pw' (monthly_base rate) (years * 12) ->
  calculate_max_loan_and_emi (PF := Binary64.binary64 pw) income rate years
  = calculate_max_loan_and_emi (PF := Binary64.binary64 pw') income rate years.
Proof.
  unfold monthly_base. intros H1 H2.
  unfold calculate_max_loan_and_emi, max_loan_amount_for, present_value,
    actual_emi_for, amortized_emi, zero_rate_emi, py_div, py_div_int.
  b64_ops. rewrite H1, H2. reflexivity.
Qed.

Lemma b64_present_value_pow_ext (pw pw' : float -> Z -> res float)
    (installment rate : float) (n : Z) :
  pw (monthly_base rate) (- n) = pw' (monthly_base rate) (- n) ->
  present_value (PF := Binary64.binary64 pw) installment
                (PrimFloat.div rate (Binary64.Z2F 12)) n
  = present_value (PF := Binary64.binary64 pw') installment
                  (PrimFloat.div rate (Binary64.Z2F 12)) n.
Proof.
  unfold monthly_base. intros H1.
  unfold present_value, py_div. b64_ops. rewrite H1. reflexivity.
Qed.

#[local] Set Warnings "-inexact-float".

(** [Q2F] reads the decimal literals of the source as the kernel's own
    parser of float literals does. *)
Lemma Q2F_reads_literals :
  map Binary64.Q2F
    [0.5; 0.6; 0.7; 0.65; 0.4; 0.3; 0.75; 0.9; 0.8; 0.55; 0.85;
     0.0025; 0.09; 0.07; 0.15; 0.45; 0.005; 0.075; 0.16; 0.001;
     -0.002; 0.14; 0.002; 1.0; 1.05]%Q
  = [0.5; 0.6; 0.7; 0.65; 0.4; 0.3; 0.75; 0.9; 0.8; 0.55; 0.85;
     0.0025; 0.09; 0.07; 0.15; 0.45; 0.005; 0.075; 0.16; 0.001;
     -0.002; 0.14; 0.002; 1.0; 1.05]%float.
Proof. vm_compute. reflexivity. Qed.

Lemma Z2F_reads_ints :
  map Binary64.Z2F [0; 1; 2; 12; 100; 300; 600; 10000; 25000]
  = [0; 1; 2; 12; 100; 300; 600; 10000; 25000]%float.
Proof. vm_compute. reflexivity. Qed.

Lemma pow_cr_scenario_neg :
  Binary64.pow_cr (monthly_base (Binary64.Q2F 0.09%Q)) (-180) = Ok scenario_pow_neg.
Proof. vm_compute. reflexivity. Qed.

Lemma pow_cr_scenario_pos :
  Binary64.pow_cr (monthly_base (Binary64.Q2F 0.09%Q)) 180 = Ok scenario_pow_pos.
Proof. vm_compute. reflexivity. Qed.

Lemma b64_scenario (pw : float -> Z -> res float) :
  pow_accurate_at pw (monthly_base (Binary64.Q2F 0.09%Q)) (- (15 * 12)) ->
  pow_accurate_at pw (monthly_base (Binary64.Q2F 0.09%Q)) (15 * 12) ->
  exists P E V : float,
    calculate_max_loan_and_emi (PF := Binary64.binary64 pw)
      (Binary64.Z2F 25000) (Binary64.Q2F 0.09%Q) 15 = Ok (P, E)
    /\ E = Binary64.round_ndigits
             (PrimFloat.mul (Binary64.Z2F 25000) (Binary64.Q2F 0.45%Q)) 2
    /\ present_value (PF := Binary64.binary64 pw) E
         (PrimFloat.div (Binary64.Q2F 0.09%Q) (Binary64.Z2F 12)) (15 * 12) = Ok V
    /\ fle (PrimFloat.abs (PrimFloat.sub V P)) (Binary64.Z2F 1).
Proof.
  intros (c1 & p1 & Hc1 & Hp1 & N1) (c2 & p2 & Hc2 & Hp2 & N2).
  change (- (15 * 12))%Z with (-180)%Z in *.
  change (15 * 12)%Z with 180%Z in *.
  rewrite pow_cr_scenario_neg in Hc1. injection Hc1 as <-.
  rewrite pow_cr_scenario_pos in Hc2. injection Hc2 as <-.
  assert (Hcalc :
    calculate_max_loan_and_emi (PF := Binary64.binary64 pw)
      (Binary64.Z2F 25000) (Binary64.Q2F 0.09%Q) 15
    = calculate_max_loan_and_emi (PF := Binary64.binary64 (two_valued_pow p1 p2))
      (Binary64.Z2F 25000) (Binary64.Q2F 0.09%Q) 15).
  { apply b64_calculate_pow_ext.
    - exact Hp1.
    - exact Hp2. }
  assert (Hpv : forall E,
    present_value (PF := Binary64.binary64 pw) E
      (PrimFloat.div (Binary64.Q2F 0.09%Q) (Binary64.Z2F 12)) 180
    = present_value (PF := Binary64.binary64 (two_valued_pow p1 p2)) E
      (PrimFloat.div (Binary64.Q2F 0.09%Q) (Binary64.Z2F 12)) 180).
  { intros E. apply b64_present_value_pow_ext. exact Hp1. }
  rewrite Hcalc. clear Hcalc Hp1 Hp2.
  destruct N1 as [-> | [-> | ->]], N2 as [-> | [-> | ->]];
    (eexists; eexists; eexists;
     split; [vm_compute; reflexivity|];
     split; [vm_compute; reflexivity|];
     split; [rewrite Hpv; vm_compute; reflexivity|vm_compute; reflexivity]).
Qed.

Lemma antitone_table_spec (t : list (Z * float)) :
  antitone_table t = true ->
  forall (s1 : Z) (r1 : float) (s2 : Z) (r2 : float),
    In (s1, r1) t -> In (s2, r2) t -> (s1 <= s2)%Z -> fle r2 r1.
Proof.
  unfold antitone_table. intros T s1 r1 s2 r2 I1 I2 H.
  rewrite forallb_forall in T. specialize (T _ I1).
  rewrite forallb_forall in T. specialize (T _ I2).
  cbn [fst snd] in T. destruct (Z.leb_spec s1 s2); [exact T|lia].
Qed.

Lemma b64_rate_table_antitone : antitone_table b64_rate_table = true.
Proof. vm_compute. reflexivity. Qed.

Lemma b64_rate_table_In (s : Z) :
  (CIVIL_SCORE_MIN <= s <= CIVIL_SCORE_MAX)%Z ->
  In (s, calculate_loan_interest_rate (PF := b64) s) b64_rate_table.
Proof.
  intros H.
  exact (in_map (fun s => (s, calculate_loan_interest_rate (PF := b64) s))
                credit_scores s (credit_scores_spec s H)).
Qed.

Lemma b64_rate_antitone (s1 s2 : Z) :
  (CIVIL_SCORE_MIN <= s1)%Z -> (s1 <= s2)%Z -> (s2 <= CIVIL_SCORE_MAX)%Z ->
  fle (calculate_loan_interest_rate (PF := b64) s2)
      (calculate_loan_interest_rate (PF := b64) s1).
Proof.
  intros H1 H12 H2.
  apply (antitone_table_spec b64_rate_table b64_rate_table_antitone
           s1 _ s2 _); [apply b64_rate_table_In; lia
                       |apply b64_rate_table_In; lia|exact H12].
Qed.

(** *** Signs of products and quotients *)

Lemma shr_1_nonneg (mrs : shr_record) : 0 <= shr_m mrs -> 0 <= shr_m (shr_1 mrs).
Proof.
  destruct mrs as [m r s]. simpl.
  destruct m as [|[p|p|]|p]; simpl; lia.
Qed.

Lemma iter_pos_shr_1_nonneg (p : positive) (mrs : shr_record) :
  0 <= shr_m mrs -> 0 <= shr_m (iter_pos shr_1 p mrs).
Proof.
  revert mrs. induction p as [p IH|p IH|]; intros mrs H; simpl.
  - apply IH, IH, shr_1_nonneg, H.
  - apply IH, IH, H.
  - apply shr_1_nonneg, H.
Qed.

Lemma shr_nonneg (mrs : shr_record) (e n : Z) :
  0 <= shr_m mrs -> 0 <= shr_m (fst (shr mrs e n)).
Proof.
  intros H. unfold shr. destruct n; simpl; auto.
  apply iter_pos_shr_1_nonneg, H.
Qed.

Lemma shr_record_of_loc_m (m : Z) (l : location) :
  shr_m (shr_record_of_loc m l) = m.
Proof. destruct l as [|[]]; reflexivity. Qed.

Lemma shr_fexp_nonneg (m e : Z) (l : location) :
  0 <= m -> 0 <= shr_m (fst (shr_fexp prec emax m e l)).
Proof.
  intros H. unfold shr_fexp. apply shr_nonneg.
  rewrite shr_record_of_loc_m. exact H.
Qed.

Lemma round_nearest_even_nonneg (m : Z) (l : location) :
  0 <= m -> 0 <= round_nearest_even m l.
Proof.
  intros H. unfold round_nearest_even.
  destruct l as [|[]]; try destruct (Z.even m); lia.
Qed.

Lemma binary_round_aux_signed (s : bool) (m e : Z) (l : location) :
  0 <= m -> sf_signed s (binary_round_aux prec emax s m e l).
Proof.
  intros H. unfold binary_round_aux.
  pose proof (shr_fexp_nonneg m e l H) as H1.
  destruct (shr_fexp prec emax m e l) as [mrs' e'].
  cbn [fst] in H1.
  pose proof (shr_fexp_nonneg _ e' loc_Exact
                (round_nearest_even_nonneg _ (loc_of_shr_record mrs') H1)) as H2.
  destruct (shr_fexp prec emax _ e' loc_Exact) as [mrs'' e''].
  cbn [fst] in H2.
  destruct (shr_m mrs'') as [|p|p].
  - left. reflexivity.
  - destruct (e'' <=? emax - prec).
    + right. right. eauto.
    + right. left. reflexivity.
  - lia.
Qed.

Lemma sf_signed_true_nonpos (x : spec_float) :
  sf_signed true x -> sf_nonpos x = true.
Proof. intros [->|[->|(m & e & ->)]]; reflexivity. Qed.

Lemma SFmul_nonpos_pos (x y : spec_float) :
  sf_nonpos x = true -> sf_pos_finite y = true ->
  sf_nonpos (SFmul prec emax x y) = true.
Proof.
  destruct y as [| | |[|] my ey]; try discriminate. intros Hx _.
  destruct x as [sx|[|]| |[|] mx ex]; try discriminate; try reflexivity.
  cbn [SFmul xorb]. apply sf_signed_true_nonpos.
  apply binary_round_aux_signed. lia.
Qed.

Lemma SFdiv_core_binary_nonneg (m1 : positive) (e1 : Z) (m2 : positive) (e2 : Z) :
  0 <= fst (fst (SFdiv_core_binary prec emax (Z.pos m1) e1 (Z.pos m2) e2)).
Proof.
  unfold SFdiv_core_binary.
  set (s := _ - _ - _).
  set (m' := match s with Z.pos _ => Z.shiftl (Z.pos m1) s | 0 => Z.pos m1 | Z.neg _ => 0 end).
  assert (Hm : 0 <= m').
  { subst m'. destruct s; try lia. apply Z.shiftl_nonneg. lia. }
  pose proof (Z_div_mod m' (Z.pos m2) eq_refl) as D.
  destruct (Z.div_eucl m' (Z.pos m2)) as [q r]. cbn [fst].
  destruct D as [D1 D2]. nia.
Qed.

Lemma SFdiv_nonpos_pos (x y : spec_float) :
  sf_nonpos x = true -> sf_pos_finite y = true ->
  sf_nonpos (SFdiv prec emax x y) = true.
Proof.
  destruct y as [| | |[|] my ey]; try discriminate. intros Hx _.
  destruct x as [sx|[|]| |[|] mx ex]; try discriminate; try reflexivity.
  cbn [SFdiv xorb].
  pose proof (SFdiv_core_binary_nonneg mx ex my ey) as H.
  destruct (SFdiv_core_binary prec emax (Z.pos mx) ex (Z.pos my) ey) as [[mz ez] lz].
  cbn [fst] in H. apply sf_signed_true_nonpos.
  apply binary_round_aux_signed. exact H.
Qed.

Lemma float_mul_nonpos_pos (x y : float) :
  float_nonpos x = true -> float_pos_finite y = true ->
  float_nonpos (PrimFloat.mul x y) = true.
Proof.
  unfold float_nonpos, float_pos_finite. rewrite mul_spec.
  apply SFmul_nonpos_pos.
Qed.

Lemma float_div_nonpos_pos (x y : float) :
  float_nonpos x = true -> float_pos_finite y = true ->
  float_nonpos (PrimFloat.div x y) = true.
Proof.
  unfold float_nonpos, float_pos_finite. rewrite div_spec.
  apply SFdiv_nonpos_pos.
Qed.

Lemma float_nonpos_leb (x : float) :
  PrimFloat.leb x (Binary64.Z2F 0) = true <-> float_nonpos x = true.
Proof.
  rewrite leb_spec. unfold float_nonpos.
  change (Prim2SF (Binary64.Z2F 0)) with (S754_zero false).
  unfold SFleb. destruct (Prim2SF x) as [s|[|]| |[|] m e]; cbn;
    split; intros H; try reflexivity; try discriminate H.
Qed.

Lemma float_pos_finite_nonzero (x : float) :
  float_pos_finite x = true -> PrimFloat.eqb x (Binary64.Z2F 0) = false.
Proof.
  rewrite eqb_spec. unfold float_pos_finite.
  change (Prim2SF (Binary64.Z2F 0)) with (S754_zero false).
  destruct (Prim2SF x) as [s|[|]| |[|] m e]; cbn; intros H;
    try reflexivity; try discriminate H.
Qed.

Lemma b64_calculate_nonpositive_income
    (pw : float -> Z -> res float) (income rate : float) (years : Z)
    (p : float) :
  PrimFloat.leb income (Binary64.Z2F 0) = true ->
  float_pos_finite (PrimFloat.div rate (Binary64.Z2F 12)) = true ->
  pw (monthly_base rate) (- (years * 12)) = Ok p ->
  float_pos_finite (PrimFloat.sub (Binary64.Z2F 1) p) = true ->
  calculate_max_loan_and_emi (PF := Binary64.binary64 pw) income rate years
  = Ok (Binary64.Z2F 0, Binary64.Z2F 0).
Proof.
  intros Hi Hr Hp H1p.
  apply (calculate_nonpositive (PF := Binary64.binary64 pw) income rate years
           (PrimFloat.div
              (PrimFloat.mul (PrimFloat.mul income (Binary64.Q2F 0.45%Q))
                             (PrimFloat.sub (Binary64.Z2F 1) p))
              (PrimFloat.div rate (Binary64.Z2F 12)))).
  - apply (max_loan_amount_for_value (PF := Binary64.binary64 pw)).
    + b64_ops. apply float_pos_finite_nonzero. exact Hr.
    + exact Hp.
  - b64_ops. apply float_nonpos_leb. apply float_div_nonpos_pos; [|exact Hr].
    apply float_mul_nonpos_pos; [|exact H1p].
    apply float_mul_nonpos_pos; [apply float_nonpos_leb; exact Hi|].
    vm_compute. reflexivity.
Qed.

End Binary64Facts.

Section ExactOffers.
Local Open Scope Q_scope.

(** *** Offers in the exact reading *)

Lemma exact_offers_fallback (max emi : Q) (score years : Z) (base u1 u2 : Q) :
  Exact.round_ndigits (max * u1) (-3) <= 10000 ->
  Exact.round_ndigits (max * u2) (-3) <= 10000 ->
  0 < max ->
  get_mock_bank_loan_options max emi score years base u1 u2
  = Ok [generic_offer max emi years base].
Proof.
  intros H1 H2 H3.
  destruct (exact_get_mock_returns max emi score years base u1 u2)
    as (e1 & e2 & H).
  rewrite H. f_equal. apply assemble_options_fallback.
  - exact_ops. apply Qltb_false. exact H1.
  - exact_ops. apply Qltb_false. exact H2.
  - exact_ops. apply Qltb_true. exact H3.
Qed.

End ExactOffers.

(** ** Rounding in binary64

    The operations of [SpecFloat] round to nearest; the lemmas below bound
    a rounded result by the floats that bound the exact one. *)

Section Binary64Rounding.
Local Open Scope Z_scope.

(** *** Powers of two *)

Lemma bpow_pos (e : Z) : (0 < bpow e)%Q.
Proof. apply Qpower_0_lt. reflexivity. Qed.

Lemma bpow_plus (a b : Z) : (bpow (a + b) == bpow a * bpow b)%Q.
Proof. apply Qpower_plus. discriminate. Qed.

Lemma bpow_Z (k : Z) : 0 <= k -> (bpow k == inject_Z (2 ^ k))%Q.
Proof. intros H. unfold bpow. rewrite Zpower_Qpower by exact H. reflexivity. Qed.

Lemma bpow_ge_1 (k : Z) : 0 <= k -> (1 <= bpow k)%Q.
Proof.
  intros H. rewrite bpow_Z by exact H.
  change 1%Q with (inject_Z 1). rewrite <- Zle_Qle.
  pose proof (Z.pow_pos_nonneg 2 k). lia.
Qed.

Lemma bpow_le (a b : Z) : a <= b -> (bpow a <= bpow b)%Q.
Proof.
  intros H. replace b with (a + (b - a)) by lia. rewrite bpow_plus.
  pose proof (bpow_pos a). pose proof (bpow_ge_1 (b - a) ltac:(lia)). nra.
Qed.

Lemma mval_shift (m e k : Z) :
  0 <= k -> (mval (m * 2 ^ k) e == mval m (e + k))%Q.
Proof.
  intros H. unfold mval. rewrite (Z.add_comm e k), bpow_plus.
  rewrite inject_Z_mult, (bpow_Z k H). ring.
Qed.

Lemma mval_le (m1 m2 e : Z) : m1 <= m2 -> (mval m1 e <= mval m2 e)%Q.
Proof.
  intros H. unfold mval. pose proof (bpow_pos e).
  rewrite Zle_Qle in H. nra.
Qed.

Lemma mval_le_inv (m1 m2 e : Z) : (mval m1 e <= mval m2 e)%Q -> m1 <= m2.
Proof.
  unfold mval. intros H. pose proof (bpow_pos e) as P.
  rewrite Zle_Qle. apply (Qmult_le_r _ _ _ P). exact H.
Qed.

Lemma mval_lt_inv (m1 m2 e : Z) : (mval m1 e < mval m2 e)%Q -> m1 < m2.
Proof.
  unfold mval. intros H. pose proof (bpow_pos e) as P.
  rewrite Zlt_Qlt. apply (Qmult_lt_r _ _ _ P). exact H.
Qed.

Lemma mval_eq_inv (m1 m2 e : Z) : (mval m1 e == mval m2 e)%Q -> m1 = m2.
Proof.
  intros H. apply Z.le_antisymm; apply (mval_le_inv _ _ e); rewrite H;
    apply Qle_refl.
Qed.

(** [m < 2 ^ j] bounds the value by a power of two. *)
Lemma mval_lt_bpow (m e j : Z) :
  0 <= j -> m < 2 ^ j -> (mval m e < bpow (j + e))%Q.
Proof.
  intros Hj H. unfold mval. rewrite bpow_plus, (bpow_Z j Hj).
  pose proof (bpow_pos e). rewrite Zlt_Qlt in H. nra.
Qed.

Lemma mval_le_bpow (m e j : Z) :
  0 <= j -> m <= 2 ^ j -> (mval m e <= bpow (j + e))%Q.
Proof.
  intros Hj H. unfold mval. rewrite bpow_plus, (bpow_Z j Hj).
  pose proof (bpow_pos e). rewrite Zle_Qle in H. nra.
Qed.

Lemma mval_ge_bpow (m e j : Z) :
  0 <= j -> 2 ^ j <= m -> (bpow (j + e) <= mval m e)%Q.
Proof.
  intros Hj H. unfold mval. rewrite bpow_plus, (bpow_Z j Hj).
  pose proof (bpow_pos e). rewrite Zle_Qle in H. nra.
Qed.

(** *** Digits and canonical mantissas *)

Lemma digits2_pos_bounds (m : positive) :
  2 ^ (Z.pos (digits2_pos m) - 1) <= Z.pos m < 2 ^ Z.pos (digits2_pos m).
Proof.
  induction m as [m IH|m IH|]; cbn [digits2_pos].
  - rewrite Pos2Z.inj_succ, Pos2Z.inj_xI.
    replace (Z.succ (Z.pos (digits2_pos m)) - 1)
      with (Z.succ (Z.pos (digits2_pos m) - 1)) by lia.
    rewrite !Z.pow_succ_r by lia. destruct IH as [L U].
    set (A := 2 ^ (Z.pos (digits2_pos m) - 1)) in *.
    set (B := 2 ^ Z.pos (digits2_pos m)) in *. lia.
  - rewrite Pos2Z.inj_succ. change (Z.pos m~0) with (2 * Z.pos m).
    replace (Z.succ (Z.pos (digits2_pos m)) - 1)
      with (Z.succ (Z.pos (digits2_pos m) - 1)) by lia.
    rewrite !Z.pow_succ_r by lia. destruct IH as [L U].
    set (A := 2 ^ (Z.pos (digits2_pos m) - 1)) in *.
    set (B := 2 ^ Z.pos (digits2_pos m)) in *. lia.
  - simpl. lia.
Qed.

Lemma Zdigits2_nonneg (m : Z) : 0 <= Zdigits2 m.
Proof. destruct m; simpl; lia. Qed.

Lemma Zdigits2_bounds (m : Z) :
  0 < m -> 2 ^ (Zdigits2 m - 1) <= m < 2 ^ Zdigits2 m.
Proof.
  destruct m as [|p|p]; try lia. intros _. apply digits2_pos_bounds.
Qed.

Lemma Zdigits2_upper (m : Z) : 0 <= m -> m < 2 ^ Zdigits2 m.
Proof.
  intros H. destruct (Z.eq_dec m 0) as [->|N]; [simpl; lia|].
  apply Zdigits2_bounds. lia.
Qed.

Lemma Zdigits2_le (m j : Z) : 0 <= j -> 0 <= m -> m < 2 ^ j -> Zdigits2 m <= j.
Proof.
  intros Hj Hm H. destruct (Z.eq_dec m 0) as [->|N]; [simpl; lia|].
  destruct (Zdigits2_bounds m ltac:(lia)) as [L _].
  destruct (Z.le_gt_cases (Zdigits2 m) j) as [C|C]; [exact C|].
  exfalso. assert (2 ^ j <= 2 ^ (Zdigits2 m - 1))
    by (apply Z.pow_le_mono_r; lia). lia.
Qed.

Lemma Zdigits2_ge (m j : Z) : 0 <= j -> 2 ^ j <= m -> j + 1 <= Zdigits2 m.
Proof.
  intros Hj H. assert (0 < m) by (pose proof (Z.pow_pos_nonneg 2 j); lia).
  destruct (Zdigits2_bounds m ltac:(lia)) as [_ U].
  destruct (Z.le_gt_cases (j + 1) (Zdigits2 m)) as [C|C]; [exact C|].
  exfalso. assert (2 ^ Zdigits2 m <= 2 ^ j)
    by (apply Z.pow_le_mono_r; lia). lia.
Qed.

Lemma fexp_b64 (x : Z) : fexp prec emax x = Z.max (x - 53) (-1074).
Proof. reflexivity. Qed.

Lemma bounded_spec (m : positive) (e : Z) :
  bounded prec emax m e = true ->
  -1074 <= e <= 971
  /\ Z.pos (digits2_pos m) <= 53
  /\ (-1074 < e -> Z.pos (digits2_pos m) = 53).
Proof.
  unfold bounded, canonical_mantissa. rewrite fexp_b64.
  change (emax - prec) with 971.
  intros H. apply andb_prop in H. destruct H as [H1 H2].
  apply Z.eqb_eq in H1. apply Z.leb_le in H2. lia.
Qed.

Lemma bounded_intro (m : positive) (e : Z) :
  -1074 <= e <= 971 -> Z.pos (digits2_pos m) <= 53 ->
  (-1074 < e -> Z.pos (digits2_pos m) = 53) ->
  bounded prec emax m e = true.
Proof.
  intros H1 H2 H3. unfold bounded, canonical_mantissa. rewrite fexp_b64.
  change (emax - prec) with 971.
  apply andb_true_intro. split; [apply Z.eqb_eq|apply Z.leb_le]; lia.
Qed.

Lemma bounded_mantissa (m : positive) (e : Z) :
  bounded prec emax m e = true ->
  Z.pos m < 2 ^ 53 /\ (-1074 < e -> 2 ^ 52 <= Z.pos m).
Proof.
  intros H. destruct (bounded_spec m e H) as (He & Hd & Hn).
  destruct (digits2_pos_bounds m) as [L U]. split.
  - assert (2 ^ Z.pos (digits2_pos m) <= 2 ^ 53)
      by (apply Z.pow_le_mono_r; lia). lia.
  - intros C. rewrite (Hn C) in L. exact L.
Qed.

(** *** Shifting right *)

Lemma mod_mul_split (a x y : Z) :
  0 < x -> 0 < y -> a mod (x * y) = 0 -> a mod x = 0 /\ (a / x) mod y = 0.
Proof.
  intros Hx Hy H.
  assert (E : a = x * y * (a / (x * y))).
  { pose proof (Z.div_mod a (x * y) ltac:(lia)). lia. }
  set (q := a / (x * y)) in *.
  assert (A : a = (y * q) * x) by lia.
  split.
  - rewrite A. apply Z_mod_mult.
  - rewrite A, Z_div_mult by lia. rewrite Z.mul_comm. apply Z_mod_mult.
Qed.

Lemma shifted_comp (j k : Z) (a b c : shr_record) :
  0 <= j -> 0 <= k -> shifted j a b -> shifted k b c -> shifted (j + k) a c.
Proof.
  intros Hj Hk [M1 E1] [M2 E2].
  assert (Pj : 0 < 2 ^ j) by (apply Z.pow_pos_nonneg; lia).
  assert (Pk : 0 < 2 ^ k) by (apply Z.pow_pos_nonneg; lia).
  split.
  - rewrite M2, M1, Z.pow_add_r by lia. apply Z.div_div; lia.
  - intros Ha Hm. rewrite Z.pow_add_r in Hm by lia.
    destruct (mod_mul_split _ _ _ Pj Pk Hm) as [Hm1 Hm2].
    apply E2; [apply E1; assumption|]. rewrite M1. exact Hm2.
Qed.

Lemma shr_1_shifted (mrs : shr_record) :
  0 <= shr_m mrs -> shifted 1 mrs (shr_1 mrs).
Proof.
  destruct mrs as [m r s]. cbn [shr_m]. intros Hm.
  unfold shifted, rec_exact. cbn [shr_m shr_r shr_s]. change (2 ^ 1) with 2.
  destruct m as [|[p|p|]|p]; try lia; cbn [shr_1 shr_m shr_r shr_s].
  - split; [reflexivity|]. intros H _.
    apply andb_prop in H. destruct H as [Hr Hs].
    destruct r, s; try discriminate. reflexivity.
  - split.
    + rewrite Pos2Z.inj_xI. apply Z.div_unique with 1; lia.
    + intros _ H. exfalso. rewrite Pos2Z.inj_xI in H.
      pose proof (Z.div_mod (2 * Z.pos p + 1) 2 ltac:(lia)). lia.
  - split.
    + change (Z.pos p~0) with (2 * Z.pos p).
      apply Z.div_unique with 0; lia.
    + intros H _. apply andb_prop in H. destruct H as [Hr Hs].
      destruct r, s; try discriminate. reflexivity.
  - split; [reflexivity|]. intros _ H. discriminate H.
Qed.

Lemma shifted_nonneg (k : Z) (a b : shr_record) :
  0 <= k -> shifted k a b -> 0 <= shr_m a -> 0 <= shr_m b.
Proof.
  intros Hk [M _] H. rewrite M. apply Z.div_pos; [exact H|].
  apply Z.pow_pos_nonneg; lia.
Qed.

Lemma iter_pos_shr_1_shifted (p : positive) :
  forall mrs, 0 <= shr_m mrs -> shifted (Z.pos p) mrs (iter_pos shr_1 p mrs).
Proof.
  induction p as [p IH|p IH|]; intros mrs H; cbn [iter_pos].
  - replace (Z.pos p~1) with (1 + Z.pos p + Z.pos p) by lia.
    pose proof (shr_1_shifted mrs H) as S1.
    pose proof (shifted_nonneg 1 _ _ ltac:(lia) S1 H) as H1.
    pose proof (IH _ H1) as S2.
    pose proof (shifted_nonneg (Z.pos p) _ _ ltac:(lia) S2 H1) as H2.
    pose proof (IH _ H2) as S3.
    refine (shifted_comp (1 + Z.pos p) (Z.pos p) _ _ _ _ _ _ S3); try lia.
    refine (shifted_comp 1 (Z.pos p) _ _ _ _ _ S1 S2); lia.
  - replace (Z.pos p~0) with (Z.pos p + Z.pos p) by lia.
    pose proof (IH _ H) as S2.
    pose proof (shifted_nonneg (Z.pos p) _ _ ltac:(lia) S2 H) as H2.
    pose proof (IH _ H2) as S3.
    refine (shifted_comp (Z.pos p) (Z.pos p) _ _ _ _ _ S2 S3); lia.
  - apply shr_1_shifted, H.
Qed.

Lemma shifted_0 (mrs : shr_record) : shifted 0 mrs mrs.
Proof.
  split; [change (2 ^ 0) with 1; rewrite Z.div_1_r; reflexivity|].
  intros H _. exact H.
Qed.

Lemma shr_shifted (mrs : shr_record) (e n : Z) :
  0 <= shr_m mrs -> 0 <= n ->
  snd (shr mrs e n) = e + n /\ shifted n mrs (fst (shr mrs e n)).
Proof.
  intros H Hn. destruct n as [|p|p]; try lia; cbn [shr fst snd].
  - split; [lia|apply shifted_0].
  - split; [reflexivity|apply iter_pos_shr_1_shifted, H].
Qed.

Lemma loc_of_exact (mrs : shr_record) :
  rec_exact mrs = true -> loc_of_shr_record mrs = loc_Exact.
Proof.
  destruct mrs as [m r s]. unfold rec_exact. cbn. destruct r, s; try discriminate.
  reflexivity.
Qed.

Lemma round_nearest_even_bounds (m : Z) (l : location) :
  m <= round_nearest_even m l <= m + 1.
Proof.
  unfold round_nearest_even. destruct l as [|[]]; try destruct (Z.even m); lia.
Qed.

(** The first step of [binary_round_aux]: the mantissa cut to the
    exponent of its binade. *)
Lemma shr_fexp_spec (m e : Z) (l : location) :
  0 <= m -> e <= fexp prec emax (Zdigits2 m + e) ->
  let e' := fexp prec emax (Zdigits2 m + e) in
  exists mrs',
    shr_fexp prec emax m e l = (mrs', e')
    /\ shr_m mrs' = m / 2 ^ (e' - e)
    /\ (l = loc_Exact -> m mod 2 ^ (e' - e) = 0 -> rec_exact mrs' = true).
Proof.
  intros Hm He e'. unfold shr_fexp. fold e'.
  assert (H0 : 0 <= shr_m (shr_record_of_loc m l))
    by (rewrite shr_record_of_loc_m; exact Hm).
  destruct (shr_shifted (shr_record_of_loc m l) e (e' - e) H0 ltac:(lia))
    as [S1 [S2 S3]].
  destruct (shr (shr_record_of_loc m l) e (e' - e)) as [mrs' e''].
  cbn [fst snd] in *. exists mrs'. split; [f_equal; lia|]. split.
  - rewrite S2, shr_record_of_loc_m. reflexivity.
  - intros -> Hmod. apply S3; [reflexivity|].
    rewrite shr_record_of_loc_m. exact Hmod.
Qed.

(** A mantissa of at most 53 bits at an exponent that is not below the
    least one is left alone. *)
Lemma shr_fexp_small (m e : Z) :
  0 <= m -> m < 2 ^ 53 -> -1074 <= e ->
  shr_fexp prec emax m e loc_Exact = (shr_record_of_loc m loc_Exact, e).
Proof.
  intros H0 H1 He. unfold shr_fexp. rewrite fexp_b64.
  pose proof (Zdigits2_le m 53 ltac:(lia) H0 H1) as D.
  pose proof (Zdigits2_nonneg m) as D0.
  destruct (Z.max (Zdigits2 m + e - 53) (-1074) - e) as [|p|p] eqn:E;
    try reflexivity.
  lia.
Qed.

Lemma shr_fexp_2_53 (e : Z) :
  -1074 <= e ->
  shr_fexp prec emax (2 ^ 53) e loc_Exact
  = (Build_shr_record (2 ^ 52) false false, e + 1).
Proof.
  intros He. unfold shr_fexp. rewrite fexp_b64.
  change (Zdigits2 (2 ^ 53)) with 54.
  replace (Z.max (54 + e - 53) (-1074) - e) with 1 by lia.
  reflexivity.
Qed.

(** What [binary_round_aux] returns, on a mantissa with enough bits. *)
Lemma binary_round_aux_spec (s : bool) (m e : Z) (l : location) :
  0 <= m -> e <= fexp prec emax (Zdigits2 m + e) ->
  let e' := fexp prec emax (Zdigits2 m + e) in
  let m' := m / 2 ^ (e' - e) in
  exists m'' : Z,
    m' <= m'' <= m' + 1
    /\ (l = loc_Exact -> m mod 2 ^ (e' - e) = 0 -> m'' = m')
    /\ 0 <= m' < 2 ^ 53
    /\ (-1074 < e' -> 2 ^ 52 <= m')
    /\ -1074 <= e'
    /\ binary_round_aux prec emax s m e l
       = if m'' =? 0 then S754_zero s
         else if m'' =? 2 ^ 53
              then (if e' + 1 <=? 971
                    then S754_finite s (Z.to_pos (2 ^ 52)) (e' + 1)
                    else S754_infinity s)
              else (if e' <=? 971
                    then S754_finite s (Z.to_pos m'') e'
                    else S754_infinity s).
Proof.
  intros Hm He e' m'.
  destruct (shr_fexp_spec m e l Hm He) as (mrs' & E1 & M1 & X1).
  fold e' in E1, M1, X1. fold m' in M1.
  assert (He' : -1074 <= e') by (unfold e'; rewrite fexp_b64; lia).
  assert (Pk : 0 < 2 ^ (e' - e)) by (apply Z.pow_pos_nonneg; lia).
  assert (Hm' : 0 <= m' < 2 ^ 53).
  { split; [apply Z.div_pos; lia|].
    apply Z.div_lt_upper_bound; [exact Pk|].
    rewrite <- Z.pow_add_r by lia.
    pose proof (Zdigits2_upper m Hm) as U.
    pose proof (Zdigits2_nonneg m) as D0.
    assert (2 ^ Zdigits2 m <= 2 ^ (e' - e + 53)).
    { apply Z.pow_le_mono_r; [lia|]. unfold e'. rewrite fexp_b64. lia. }
    lia. }
  assert (Hn : -1074 < e' -> 2 ^ 52 <= m').
  { intros C. apply Z.div_le_lower_bound; [exact Pk|].
    rewrite <- Z.pow_add_r by lia.
    assert (K : e' = Zdigits2 m + e - 53)
      by (unfold e' in *; rewrite fexp_b64 in *; lia).
    assert (0 < m).
    { destruct (Z.eq_dec m 0) as [->|]; [|lia]. simpl in K. lia. }
    destruct (Zdigits2_bounds m ltac:(lia)) as [L _].
    replace (e' - e + 52) with (Zdigits2 m - 1) by lia. exact L. }
  set (m'' := round_nearest_even (shr_m mrs') (loc_of_shr_record mrs')).
  exists m''.
  pose proof (round_nearest_even_bounds (shr_m mrs') (loc_of_shr_record mrs'))
    as B. fold m'' in B. rewrite M1 in B.
  split; [exact B|]. split.
  { intros Hl Hmod. unfold m''. rewrite (loc_of_exact _ (X1 Hl Hmod)).
    cbn [round_nearest_even]. exact M1. }
  split; [exact Hm'|]. split; [exact Hn|]. split; [exact He'|].
  unfold binary_round_aux. rewrite E1. fold m''.
  destruct (Z.eqb_spec m'' 0) as [Z0|NZ].
  - rewrite Z0. rewrite (shr_fexp_small 0 e') by lia. reflexivity.
  - destruct (Z.eqb_spec m'' (2 ^ 53)) as [T|NT].
    + rewrite T, (shr_fexp_2_53 e' He'). cbn [shr_m].
      change (emax - prec) with 971. reflexivity.
    + rewrite (shr_fexp_small m'' e') by lia.
      rewrite shr_record_of_loc_m.
      destruct m'' as [|p|p]; try lia.
      change (emax - prec) with 971. reflexivity.
Qed.

Lemma div_pow_bounds (m k : Z) :
  0 <= k -> m / 2 ^ k * 2 ^ k <= m < (m / 2 ^ k + 1) * 2 ^ k.
Proof.
  intros Hk. assert (P : 0 < 2 ^ k) by (apply Z.pow_pos_nonneg; lia).
  pose proof (Z.div_mod m (2 ^ k) ltac:(lia)) as D.
  pose proof (Z.mod_pos_bound m (2 ^ k) P) as B.
  set (q := m / 2 ^ k) in *. set (r := m mod 2 ^ k) in *.
  set (p := 2 ^ k) in *. nia.
Qed.

Lemma mval_0 (e : Z) : (mval 0 e == 0)%Q.
Proof. unfold mval. ring. Qed.

Lemma mval_pos (m e : Z) : 0 < m -> (0 < mval m e)%Q.
Proof.
  intros H. unfold mval. pose proof (bpow_pos e).
  rewrite Zlt_Qlt in H. change (inject_Z 0) with 0%Q in H. nra.
Qed.

Lemma mval_lt (m1 m2 e : Z) : m1 < m2 -> (mval m1 e < mval m2 e)%Q.
Proof.
  intros H. unfold mval. pose proof (bpow_pos e).
  rewrite Zlt_Qlt in H. nra.
Qed.

Lemma mval_2_53 (e : Z) : (mval (2 ^ 52) (e + 1) == mval (2 ^ 53) e)%Q.
Proof.
  rewrite <- (mval_shift (2 ^ 52) e 1) by lia. reflexivity.
Qed.

(** The order of two positive floats is the order of their values. *)
Lemma bounded_exp_lt (m1 : positive) (e1 : Z) (m2 : positive) (e2 : Z) :
  bounded prec emax m1 e1 = true -> bounded prec emax m2 e2 = true ->
  e1 < e2 -> (mval (Z.pos m1) e1 < mval (Z.pos m2) e2)%Q.
Proof.
  intros B1 B2 H.
  destruct (bounded_spec _ _ B1) as (E1 & _).
  destruct (bounded_mantissa _ _ B1) as [U1 _].
  destruct (bounded_mantissa _ _ B2) as [_ L2].
  pose proof (mval_lt_bpow (Z.pos m1) e1 53 ltac:(lia) U1) as A.
  pose proof (mval_ge_bpow (Z.pos m2) e2 52 ltac:(lia) (L2 ltac:(lia))) as C.
  pose proof (bpow_le (53 + e1) (52 + e2) ltac:(lia)) as D.
  lra.
Qed.

Lemma SFcompare_pos (m1 : positive) (e1 : Z) (m2 : positive) (e2 : Z) :
  bounded prec emax m1 e1 = true -> bounded prec emax m2 e2 = true ->
  SFcompare (S754_finite false m1 e1) (S754_finite false m2 e2)
  = Some (mval (Z.pos m1) e1 ?= mval (Z.pos m2) e2)%Q.
Proof.
  intros B1 B2. cbn [SFcompare]. f_equal. symmetry.
  destruct (Z.compare_spec e1 e2) as [E|E|E].
  - subst e2. change (Pos.compare_cont Eq m1 m2) with (m1 ?= m2)%positive.
    destruct (Pos.compare_spec m1 m2) as [C|C|C].
    + subst m2. apply Qeq_alt. reflexivity.
    + apply Qlt_alt. apply mval_lt. lia.
    + apply Qgt_alt. apply mval_lt. lia.
  - apply Qlt_alt. apply bounded_exp_lt; assumption.
  - apply Qgt_alt. apply bounded_exp_lt; assumption || lia.
Qed.

(** *** The result of [binary_round_aux] against a float *)

Lemma binary_round_aux_valid (s : bool) (m e : Z) (l : location) :
  0 <= m -> e <= fexp prec emax (Zdigits2 m + e) ->
  valid_binary (binary_round_aux prec emax s m e l) = true.
Proof.
  intros Hm He.
  destruct (binary_round_aux_spec s m e l Hm He)
    as (m'' & B & _ & M' & N & E' & ->).
  set (e' := fexp prec emax (Zdigits2 m + e)) in *.
  set (m' := m / 2 ^ (e' - e)) in *.
  destruct (Z.eqb_spec m'' 0); [reflexivity|].
  destruct (Z.eqb_spec m'' (2 ^ 53)) as [T|NT].
  - destruct (Z.leb_spec (e' + 1) 971); [|reflexivity].
    cbn [valid_binary]. apply bounded_intro; [lia| |intros _]; reflexivity.
  - destruct (Z.leb_spec e' 971); [|reflexivity].
    cbn [valid_binary].
    assert (P : 0 < m'') by lia.
    assert (D : Z.pos (digits2_pos (Z.to_pos m'')) = Zdigits2 m'').
    { destruct m''; try lia. reflexivity. }
    apply bounded_intro; [lia| |intros C]; rewrite D.
    + apply Zdigits2_le; lia.
    + pose proof (Zdigits2_le m'' 53 ltac:(lia) ltac:(lia) ltac:(lia)).
      pose proof (Zdigits2_ge m'' 52 ltac:(lia) ltac:(specialize (N C); lia)).
      lia.
Qed.

Lemma binary_round_aux_upper
    (m e : Z) (l : location) (mB : positive) (eB : Z) :
  0 <= m -> e <= fexp prec emax (Zdigits2 m + e) ->
  bounded prec emax mB eB = true ->
  (mval m e <= mval (Z.pos mB) eB)%Q ->
  ((mval m e == mval (Z.pos mB) eB)%Q -> l = loc_Exact) ->
  binary_round_aux prec emax false m e l = S754_zero false
  \/ exists mf ef,
       binary_round_aux prec emax false m e l = S754_finite false mf ef
       /\ (mval (Z.pos mf) ef <= mval (Z.pos mB) eB)%Q.
Proof.
  intros Hm He HB H1 H2.
  destruct (binary_round_aux_spec false m e l Hm He)
    as (m'' & B & X & M' & N & E' & ->).
  set (e' := fexp prec emax (Zdigits2 m + e)) in *.
  set (m' := m / 2 ^ (e' - e)) in *.
  destruct (bounded_spec _ _ HB) as (EB & _).
  destruct (bounded_mantissa _ _ HB) as [UB LB].
  destruct (div_pow_bounds m (e' - e) ltac:(lia)) as [D1 D2]. fold m' in D1, D2.
  assert (V1 : (mval m' e' <= mval m e)%Q).
  { replace e' with (e + (e' - e)) at 1 by lia.
    rewrite <- mval_shift by lia. apply mval_le. exact D1. }
  assert (Le : e' <= eB).
  { destruct (Z.le_gt_cases e' eB) as [C|C]; [exact C|]. exfalso.
    pose proof (mval_ge_bpow m' e' 52 ltac:(lia) (N ltac:(lia))) as A.
    pose proof (mval_lt_bpow (Z.pos mB) eB 53 ltac:(lia) UB) as A'.
    pose proof (bpow_le (53 + eB) (52 + e') ltac:(lia)) as A''.
    lra. }
  set (n := Z.pos mB * 2 ^ (eB - e')).
  assert (Vn : (mval n e' == mval (Z.pos mB) eB)%Q).
  { unfold n. rewrite mval_shift by lia.
    replace (e' + (eB - e')) with eB by lia. reflexivity. }
  assert (Pn : 0 < 2 ^ (eB - e')) by (apply Z.pow_pos_nonneg; lia).
  assert (Mn : m' <= n).
  { apply (mval_le_inv _ _ e'). rewrite Vn. lra. }
  assert (M'' : m'' <= n).
  { destruct (Z.eq_dec m' n) as [Q|Q]; [|lia].
    assert (Qv : (mval m e == mval (Z.pos mB) eB)%Q).
    { apply Qle_antisym; [exact H1|]. rewrite <- Vn, <- Q. exact V1. }
    assert (Qm : m = m' * 2 ^ (e' - e)).
    { apply (mval_eq_inv _ _ e). rewrite mval_shift by lia.
      replace (e + (e' - e)) with e' by lia. rewrite Q, Vn. exact Qv. }
    rewrite (X (H2 Qv)); [lia|].
    rewrite Qm. apply Z_mod_mult. }
  assert (V'' : (mval m'' e' <= mval (Z.pos mB) eB)%Q).
  { rewrite <- Vn. apply mval_le. exact M''. }
  destruct (Z.eqb_spec m'' 0); [left; reflexivity|]. right.
  destruct (Z.eqb_spec m'' (2 ^ 53)) as [T|NT].
  - assert (e' < eB).
    { destruct (Z.eq_dec e' eB) as [Q|Q]; [|lia]. exfalso.
      unfold n in M''. rewrite Q, Z.sub_diag in M''.
      change (2 ^ 0) with 1 in M''. lia. }
    destruct (Z.leb_spec (e' + 1) 971); [|lia].
    eexists; eexists. split; [reflexivity|].
    change (Z.pos (Z.to_pos (2 ^ 52))) with (2 ^ 52).
    rewrite mval_2_53, <- T. exact V''.
  - destruct (Z.leb_spec e' 971); [|lia].
    eexists; eexists. split; [reflexivity|].
    rewrite Z2Pos.id by lia. exact V''.
Qed.

Lemma binary_round_aux_lower
    (m e : Z) (l : location) (mB : positive) (eB : Z) :
  0 <= m -> e <= fexp prec emax (Zdigits2 m + e) ->
  bounded prec emax mB eB = true ->
  (mval (Z.pos mB) eB < mval (m + 1) e)%Q ->
  binary_round_aux prec emax false m e l = S754_infinity false
  \/ exists mf ef,
       binary_round_aux prec emax false m e l = S754_finite false mf ef
       /\ (mval (Z.pos mB) eB <= mval (Z.pos mf) ef)%Q.
Proof.
  intros Hm He HB H3.
  destruct (binary_round_aux_spec false m e l Hm He)
    as (m'' & B & X & M' & N & E' & ->).
  set (e' := fexp prec emax (Zdigits2 m + e)) in *.
  set (m' := m / 2 ^ (e' - e)) in *.
  destruct (bounded_spec _ _ HB) as (EB & _).
  destruct (bounded_mantissa _ _ HB) as [UB LB].
  destruct (div_pow_bounds m (e' - e) ltac:(lia)) as [D1 D2]. fold m' in D1, D2.
  assert (V2 : (mval (m + 1) e <= mval (m' + 1) e')%Q).
  { replace e' with (e + (e' - e)) at 1 by lia.
    rewrite <- mval_shift by lia. apply mval_le. lia. }
  assert (V' : (mval (Z.pos mB) eB <= mval m' e')%Q).
  { destruct (Z.lt_trichotomy e' eB) as [C|[C|C]].
    - exfalso.
      pose proof (mval_ge_bpow (Z.pos mB) eB 52 ltac:(lia) (LB ltac:(lia))) as A.
      pose proof (mval_le_bpow (m' + 1) e' 53 ltac:(lia) ltac:(lia)) as A'.
      pose proof (bpow_le (53 + e') (52 + eB) ltac:(lia)) as A''.
      lra.
    - subst eB. apply mval_le.
      assert (Z.pos mB < m' + 1) by (apply (mval_lt_inv _ _ e'); lra). lia.
    - pose proof (mval_ge_bpow m' e' 52 ltac:(lia) (N ltac:(lia))) as A.
      pose proof (mval_lt_bpow (Z.pos mB) eB 53 ltac:(lia) UB) as A'.
      pose proof (bpow_le (53 + eB) (52 + e') ltac:(lia)) as A''.
      lra. }
  assert (P' : 0 < m').
  { destruct (Z.eq_dec m' 0) as [Q|Q]; [|lia]. exfalso.
    rewrite Q, mval_0 in V'.
    pose proof (mval_pos (Z.pos mB) eB ltac:(lia)). lra. }
  assert (V'' : (mval (Z.pos mB) eB <= mval m'' e')%Q).
  { apply Qle_trans with (mval m' e'); [exact V'|]. apply mval_le. lia. }
  destruct (Z.eqb_spec m'' 0); [lia|].
  destruct (Z.eqb_spec m'' (2 ^ 53)) as [T|NT].
  - destruct (Z.leb_spec (e' + 1) 971); [|left; reflexivity]. right.
    eexists; eexists. split; [reflexivity|].
    change (Z.pos (Z.to_pos (2 ^ 52))) with (2 ^ 52).
    rewrite mval_2_53, <- T. exact V''.
  - destruct (Z.leb_spec e' 971); [|left; reflexivity]. right.
    eexists; eexists. split; [reflexivity|].
    rewrite Z2Pos.id by lia. exact V''.
Qed.

(** *** Aligning to the left *)

Lemma iter_xO_spec (d m : positive) :
  Z.pos (Pos.iter xO m d) = Z.pos m * 2 ^ Z.pos d
  /\ Z.pos (digits2_pos (Pos.iter xO m d)) = Z.pos (digits2_pos m) + Z.pos d.
Proof.
  induction d as [|d IH] using Pos.peano_ind.
  - cbn [Pos.iter digits2_pos]. split; [change (2 ^ 1) with 2; lia|lia].
  - rewrite Pos.iter_succ. cbn [digits2_pos]. destruct IH as [I1 I2].
    rewrite Pos2Z.inj_succ. split.
    + change (Z.pos (Pos.iter xO m d)~0) with (2 * Z.pos (Pos.iter xO m d)).
      rewrite I1, Z.pow_succ_r by lia. ring.
    + rewrite Pos2Z.inj_succ, I2. lia.
Qed.

Lemma shl_align_spec (mx : positive) (ex ex' : Z) :
  let mz := fst (shl_align mx ex ex') in
  let ez := snd (shl_align mx ex ex') in
  ez = Z.min ex ex'
  /\ Z.pos mz = Z.pos mx * 2 ^ (ex - ez)
  /\ Z.pos (digits2_pos mz) + ez = Z.pos (digits2_pos mx) + ex.
Proof.
  unfold shl_align. destruct (ex' - ex) as [|d|d] eqn:E; cbn [fst snd].
  - replace (Z.min ex ex') with ex by lia. rewrite Z.sub_diag.
    change (2 ^ 0) with 1. split; [reflexivity|]. split; lia.
  - replace (Z.min ex ex') with ex by lia. rewrite Z.sub_diag.
    change (2 ^ 0) with 1. split; [reflexivity|]. split; lia.
  - replace (Z.min ex ex') with ex' by lia.
    destruct (iter_xO_spec d mx) as [I1 I2].
    replace (ex - ex') with (Z.pos d) by lia.
    split; [reflexivity|]. split; [exact I1|lia].
Qed.

Lemma mval_shl_align (mx : positive) (ex ex' : Z) :
  (mval (Z.pos (fst (shl_align mx ex ex'))) (snd (shl_align mx ex ex'))
   == mval (Z.pos mx) ex)%Q.
Proof.
  destruct (shl_align_spec mx ex ex') as (E & M & _).
  rewrite M, mval_shift by lia. rewrite E.
  replace (Z.min ex ex' + (ex - Z.min ex ex')) with ex by lia. reflexivity.
Qed.

(** *** [binary_round]: a positive mantissa at any exponent *)

Lemma binary_round_unfold (s : bool) (mx : positive) (ex : Z) :
  let a := shl_align mx ex (fexp prec emax (Z.pos (digits2_pos mx) + ex)) in
  binary_round prec emax s mx ex
  = binary_round_aux prec emax s (Z.pos (fst a)) (snd a) loc_Exact
  /\ snd a <= fexp prec emax (Zdigits2 (Z.pos (fst a)) + snd a)
  /\ (mval (Z.pos (fst a)) (snd a) == mval (Z.pos mx) ex)%Q.
Proof.
  intros a. unfold binary_round. fold a.
  destruct (shl_align_spec mx ex (fexp prec emax (Z.pos (digits2_pos mx) + ex)))
    as (E & M & D). fold a in E, M, D.
  split; [destruct a; reflexivity|]. split.
  - cbn [Zdigits2]. rewrite D, E. lia.
  - apply mval_shl_align.
Qed.

Lemma binary_round_valid (s : bool) (mx : positive) (ex : Z) :
  valid_binary (binary_round prec emax s mx ex) = true.
Proof.
  destruct (binary_round_unfold s mx ex) as (-> & H & _).
  apply binary_round_aux_valid; [lia|exact H].
Qed.

Lemma binary_round_upper (mx : positive) (ex : Z) (mB : positive) (eB : Z) :
  bounded prec emax mB eB = true ->
  (mval (Z.pos mx) ex <= mval (Z.pos mB) eB)%Q ->
  binary_round prec emax false mx ex = S754_zero false
  \/ exists mf ef,
       binary_round prec emax false mx ex = S754_finite false mf ef
       /\ (mval (Z.pos mf) ef <= mval (Z.pos mB) eB)%Q.
Proof.
  intros HB H. destruct (binary_round_unfold false mx ex) as (-> & D & V).
  apply binary_round_aux_upper; try assumption; try lia.
  - rewrite V. exact H.
  - reflexivity.
Qed.

Lemma binary_round_lower (mx : positive) (ex : Z) (mB : positive) (eB : Z) :
  bounded prec emax mB eB = true ->
  (mval (Z.pos mB) eB <= mval (Z.pos mx) ex)%Q ->
  binary_round prec emax false mx ex = S754_infinity false
  \/ exists mf ef,
       binary_round prec emax false mx ex = S754_finite false mf ef
       /\ (mval (Z.pos mB) eB <= mval (Z.pos mf) ef)%Q.
Proof.
  intros HB H. destruct (binary_round_unfold false mx ex) as (-> & D & V).
  apply binary_round_aux_lower; try assumption; try lia.
  apply Qle_lt_trans with (mval (Z.pos mx) ex); [exact H|].
  rewrite <- V. apply mval_lt. lia.
Qed.

(** *** Products *)

Lemma mval_mul (m1 e1 m2 e2 : Z) :
  (mval (m1 * m2) (e1 + e2) == mval m1 e1 * mval m2 e2)%Q.
Proof. unfold mval. rewrite inject_Z_mult, bpow_plus. ring. Qed.

Lemma mul_enough_digits (mx : positive) (ex : Z) (my : positive) (ey : Z) :
  bounded prec emax mx ex = true -> bounded prec emax my ey = true ->
  ex + ey <= fexp prec emax (Zdigits2 (Z.pos (mx * my)) + (ex + ey)).
Proof.
  intros Bx By. rewrite fexp_b64.
  destruct (bounded_spec _ _ Bx) as (Ex & _).
  destruct (bounded_spec _ _ By) as (Ey & _).
  destruct (bounded_mantissa _ _ Bx) as [_ Lx].
  destruct (bounded_mantissa _ _ By) as [_ Ly].
  destruct (Z.eq_dec ex (-1074)) as [Qx|Qx];
  destruct (Z.eq_dec ey (-1074)) as [Qy|Qy]; try lia.
  - pose proof (Zdigits2_ge (Z.pos (mx * my)) 52 ltac:(lia)
                  ltac:(specialize (Ly ltac:(lia)); nia)). lia.
  - pose proof (Zdigits2_ge (Z.pos (mx * my)) 52 ltac:(lia)
                  ltac:(specialize (Lx ltac:(lia)); nia)). lia.
  - pose proof (Zdigits2_ge (Z.pos (mx * my)) 52 ltac:(lia)
                  ltac:(specialize (Lx ltac:(lia)); nia)). lia.
Qed.

Lemma SFmul_pos_upper
    (mx : positive) (ex : Z) (my : positive) (ey : Z) (mB : positive) (eB : Z) :
  bounded prec emax mx ex = true -> bounded prec emax my ey = true ->
  bounded prec emax mB eB = true ->
  (mval (Z.pos mx) ex * mval (Z.pos my) ey <= mval (Z.pos mB) eB)%Q ->
  let r := SFmul prec emax (S754_finite false mx ex) (S754_finite false my ey) in
  r = S754_zero false
  \/ exists mf ef, r = S754_finite false mf ef
       /\ (mval (Z.pos mf) ef <= mval (Z.pos mB) eB)%Q.
Proof.
  intros Bx By HB H. cbn [SFmul xorb].
  apply binary_round_aux_upper; try assumption; try lia.
  - apply mul_enough_digits; assumption.
  - rewrite Pos2Z.inj_mul, mval_mul. exact H.
  - reflexivity.
Qed.

Lemma SFmul_pos_lower
    (mx : positive) (ex : Z) (my : positive) (ey : Z) (mB : positive) (eB : Z) :
  bounded prec emax mx ex = true -> bounded prec emax my ey = true ->
  bounded prec emax mB eB = true ->
  (mval (Z.pos mB) eB <= mval (Z.pos mx) ex * mval (Z.pos my) ey)%Q ->
  let r := SFmul prec emax (S754_finite false mx ex) (S754_finite false my ey) in
  r = S754_infinity false
  \/ exists mf ef, r = S754_finite false mf ef
       /\ (mval (Z.pos mB) eB <= mval (Z.pos mf) ef)%Q.
Proof.
  intros Bx By HB H. cbn [SFmul xorb].
  apply binary_round_aux_lower; try assumption; try lia.
  - apply mul_enough_digits; assumption.
  - apply Qle_lt_trans with (mval (Z.pos (mx * my)) (ex + ey)).
    + rewrite Pos2Z.inj_mul, mval_mul. exact H.
    + apply mval_lt. lia.
Qed.

(** *** Sums of positive floats *)

Lemma SFadd_pos_unfold (mx : positive) (ex : Z) (my : positive) (ey : Z) :
  exists mz : positive,
    SFadd prec emax (S754_finite false mx ex) (S754_finite false my ey)
    = binary_round prec emax false mz (Z.min ex ey)
    /\ (mval (Z.pos mz) (Z.min ex ey)
        == mval (Z.pos mx) ex + mval (Z.pos my) ey)%Q.
Proof.
  cbn [SFadd cond_Zopp].
  destruct (shl_align_spec mx ex (Z.min ex ey)) as (E1 & M1 & _).
  destruct (shl_align_spec my ey (Z.min ex ey)) as (E2 & M2 & _).
  pose proof (mval_shl_align mx ex (Z.min ex ey)) as V1.
  pose proof (mval_shl_align my ey (Z.min ex ey)) as V2.
  set (a := shl_align mx ex (Z.min ex ey)) in *.
  set (b := shl_align my ey (Z.min ex ey)) in *.
  replace (snd a) with (Z.min ex ey) in V1 by lia.
  replace (snd b) with (Z.min ex ey) in V2 by lia.
  exists (fst a + fst b)%positive. split; [reflexivity|].
  rewrite <- V1, <- V2. unfold mval. rewrite Pos2Z.inj_add, inject_Z_plus. ring.
Qed.

Lemma SFadd_pos_upper
    (mx : positive) (ex : Z) (my : positive) (ey : Z) (mB : positive) (eB : Z) :
  bounded prec emax mB eB = true ->
  (mval (Z.pos mx) ex + mval (Z.pos my) ey <= mval (Z.pos mB) eB)%Q ->
  let r := SFadd prec emax (S754_finite false mx ex) (S754_finite false my ey) in
  r = S754_zero false
  \/ exists mf ef, r = S754_finite false mf ef
       /\ (mval (Z.pos mf) ef <= mval (Z.pos mB) eB)%Q.
Proof.
  intros HB H r. subst r.
  destruct (SFadd_pos_unfold mx ex my ey) as (mz & -> & V).
  apply binary_round_upper; [exact HB|]. rewrite V. exact H.
Qed.

Lemma SFadd_pos_lower
    (mx : positive) (ex : Z) (my : positive) (ey : Z) (mB : positive) (eB : Z) :
  bounded prec emax mB eB = true ->
  (mval (Z.pos mB) eB <= mval (Z.pos mx) ex + mval (Z.pos my) ey)%Q ->
  let r := SFadd prec emax (S754_finite false mx ex) (S754_finite false my ey) in
  r = S754_infinity false
  \/ exists mf ef, r = S754_finite false mf ef
       /\ (mval (Z.pos mB) eB <= mval (Z.pos mf) ef)%Q.
Proof.
  intros HB H r. subst r.
  destruct (SFadd_pos_unfold mx ex my ey) as (mz & -> & V).
  apply binary_round_lower; [exact HB|]. rewrite V. exact H.
Qed.

(** *** Quotients of positive floats *)

Lemma new_location_0 (n : Z) : new_location n 0 = loc_Exact.
Proof.
  unfold new_location, new_location_even, new_location_odd.
  destruct (Z.even n); reflexivity.
Qed.

Lemma shift_match (m s : Z) :
  0 <= s ->
  match s with
  | 0 => m
  | Z.pos _ => Z.shiftl m s
  | Z.neg _ => 0
  end = m * 2 ^ s.
Proof.
  intros H. destruct s as [|p|p].
  - rewrite Z.pow_0_r. lia.
  - apply Z.shiftl_mul_pow2. lia.
  - lia.
Qed.

Lemma SFdiv_core_spec (mx : positive) (ex : Z) (my : positive) (ey : Z) :
  bounded prec emax mx ex = true -> bounded prec emax my ey = true ->
  exists q e' r l,
    SFdiv_core_binary prec emax (Z.pos mx) ex (Z.pos my) ey = (q, e', l)
    /\ 0 <= q /\ 0 <= r < Z.pos my
    /\ (mval (q * Z.pos my + r) (e' + ey) == mval (Z.pos mx) ex)%Q
    /\ (r = 0 -> l = loc_Exact)
    /\ e' <= fexp prec emax (Zdigits2 q + e').
Proof.
  intros Bx By. unfold SFdiv_core_binary.
  set (d1 := Zdigits2 (Z.pos mx)). set (d2 := Zdigits2 (Z.pos my)).
  set (e' := Z.min (fexp prec emax (d1 + ex - (d2 + ey))) (ex - ey)).
  set (s := ex - ey - e').
  assert (Hs : 0 <= s) by (unfold s, e'; lia).
  set (m' := match s with
             | 0 => Z.pos mx
             | Z.pos _ => Z.shiftl (Z.pos mx) s
             | Z.neg _ => 0
             end).
  assert (Hm' : m' = Z.pos mx * 2 ^ s) by (apply shift_match; exact Hs).
  assert (Ps : 0 < 2 ^ s) by (apply Z.pow_pos_nonneg; lia).
  pose proof (Z_div_mod m' (Z.pos my) eq_refl) as D.
  destruct (Z.div_eucl m' (Z.pos my)) as [q r]. destruct D as [D1 D2].
  exists q, e', r, (new_location (Z.pos my) r).
  split; [reflexivity|].
  assert (P' : 0 <= m') by (rewrite Hm'; apply Z.mul_nonneg_nonneg; lia).
  assert (Hq : 0 <= q).
  { destruct (Z.le_gt_cases 0 q) as [G|G]; [exact G|]. exfalso.
    assert (Z.pos my * q <= Z.pos my * (-1)) by (apply Z.mul_le_mono_nonneg_l; lia).
    lia. }
  split; [exact Hq|]. split; [exact D2|]. split; [|split].
  - replace (q * Z.pos my + r) with m' by lia. rewrite Hm'.
    rewrite mval_shift by lia. replace (e' + ey + s) with ex by (unfold s; lia).
    reflexivity.
  - intros ->. apply new_location_0.
  - rewrite fexp_b64.
    destruct (Z.le_gt_cases e' (-1074)) as [C|C]; [lia|].
    assert (T : e' <= d1 + ex - (d2 + ey) - 53).
    { unfold e' in *. rewrite fexp_b64 in *. lia. }
    destruct (digits2_pos_bounds mx) as [Lx _].
    destruct (digits2_pos_bounds my) as [_ Uy].
    fold (Zdigits2 (Z.pos mx)) in Lx. fold d1 in Lx.
    fold (Zdigits2 (Z.pos my)) in Uy. fold d2 in Uy.
    assert (D1' : 1 <= d1) by (unfold d1; cbn [Zdigits2]; lia).
    assert (D2' : 1 <= d2) by (unfold d2; cbn [Zdigits2]; lia).
    assert (A1 : 2 ^ (d2 + 52) <= 2 ^ (d1 - 1 + s))
      by (apply Z.pow_le_mono_r; unfold s; lia).
    assert (A2 : 2 ^ (d1 - 1 + s) = 2 ^ (d1 - 1) * 2 ^ s)
      by (apply Z.pow_add_r; lia).
    assert (A3 : 2 ^ (d2 + 52) = 2 ^ d2 * 2 ^ 52)
      by (apply Z.pow_add_r; lia).
    assert (G : 2 ^ 52 <= q).
    { destruct (Z.le_gt_cases (2 ^ 52) q) as [G|G]; [exact G|]. exfalso.
      assert (K1 : m' < Z.pos my * 2 ^ 52) by nia.
      assert (K2 : Z.pos my * 2 ^ 52 < 2 ^ d2 * 2 ^ 52) by nia.
      assert (K3 : 2 ^ (d1 - 1) * 2 ^ s <= m') by (rewrite Hm'; nia).
      lia. }
    pose proof (Zdigits2_ge q 52 ltac:(lia) G). lia.
Qed.

Lemma mval_add (a b e : Z) : (mval (a + b) e == mval a e + mval b e)%Q.
Proof. unfold mval. rewrite inject_Z_plus. ring. Qed.

Lemma mval_nonneg (m e : Z) : 0 <= m -> (0 <= mval m e)%Q.
Proof.
  intros H. unfold mval. pose proof (bpow_pos e).
  rewrite Zle_Qle in H. change (inject_Z 0) with 0%Q in H. nra.
Qed.

Lemma SFdiv_pos_upper
    (mx : positive) (ex : Z) (my : positive) (ey : Z) (mB : positive) (eB : Z) :
  bounded prec emax mx ex = true -> bounded prec emax my ey = true ->
  bounded prec emax mB eB = true ->
  (mval (Z.pos mx) ex <= mval (Z.pos mB) eB * mval (Z.pos my) ey)%Q ->
  let r := SFdiv prec emax (S754_finite false mx ex) (S754_finite false my ey) in
  r = S754_zero false
  \/ exists mf ef, r = S754_finite false mf ef
       /\ (mval (Z.pos mf) ef <= mval (Z.pos mB) eB)%Q.
Proof.
  intros Bx By HB H. cbn [SFdiv xorb].
  destruct (SFdiv_core_spec mx ex my ey Bx By)
    as (q & e' & r & l & -> & Hq & Hr & V & X & D).
  rewrite mval_add, mval_mul in V.
  pose proof (mval_pos (Z.pos my) ey ltac:(lia)) as Py.
  pose proof (mval_nonneg r (e' + ey) ltac:(lia)) as Pr.
  assert (H1 : (mval q e' * mval (Z.pos my) ey
                <= mval (Z.pos mB) eB * mval (Z.pos my) ey)%Q) by lra.
  apply Qmult_le_r in H1; [|exact Py].
  apply binary_round_aux_upper; try assumption.
  intros E. apply X.
  assert (R0 : (mval r (e' + ey) == mval 0 (e' + ey))%Q).
  { rewrite mval_0. rewrite E in V. lra. }
  apply (mval_eq_inv _ _ _ R0).
Qed.

Lemma SFdiv_pos_lower
    (mx : positive) (ex : Z) (my : positive) (ey : Z) (mB : positive) (eB : Z) :
  bounded prec emax mx ex = true -> bounded prec emax my ey = true ->
  bounded prec emax mB eB = true ->
  (mval (Z.pos mB) eB * mval (Z.pos my) ey <= mval (Z.pos mx) ex)%Q ->
  let r := SFdiv prec emax (S754_finite false mx ex) (S754_finite false my ey) in
  r = S754_infinity false
  \/ exists mf ef, r = S754_finite false mf ef
       /\ (mval (Z.pos mB) eB <= mval (Z.pos mf) ef)%Q.
Proof.
  intros Bx By HB H. cbn [SFdiv xorb].
  destruct (SFdiv_core_spec mx ex my ey Bx By)
    as (q & e' & r & l & -> & Hq & Hr & V & X & D).
  pose proof (mval_pos (Z.pos my) ey ltac:(lia)) as Py.
  assert (L : (mval (q * Z.pos my + r) (e' + ey)
               < mval ((q + 1) * Z.pos my) (e' + ey))%Q)
    by (apply mval_lt; lia).
  rewrite mval_mul in L.
  apply binary_round_aux_lower; try assumption.
  apply (Qmult_lt_r _ _ _ Py). lra.
Qed.

(** *** Canonical representations are unique *)

Lemma bounded_unique (m1 : positive) (e1 : Z) (m2 : positive) (e2 : Z) :
  bounded prec emax m1 e1 = true -> bounded prec emax m2 e2 = true ->
  (mval (Z.pos m1) e1 == mval (Z.pos m2) e2)%Q -> m1 = m2 /\ e1 = e2.
Proof.
  intros B1 B2 E.
  assert (e1 = e2).
  { destruct (Z.lt_trichotomy e1 e2) as [C|[C|C]]; [|exact C|].
    - pose proof (bounded_exp_lt _ _ _ _ B1 B2 C). lra.
    - pose proof (bounded_exp_lt _ _ _ _ B2 B1 C). lra. }
  subst e2. split; [|reflexivity].
  pose proof (mval_eq_inv _ _ _ E). lia.
Qed.

(** A value that a float has is returned as that float. *)
Lemma binary_round_repr (mx : positive) (ex : Z) (mB : positive) (eB : Z) :
  bounded prec emax mB eB = true ->
  (mval (Z.pos mx) ex == mval (Z.pos mB) eB)%Q ->
  binary_round prec emax false mx ex = S754_finite false mB eB.
Proof.
  intros HB E.
  pose proof (binary_round_valid false mx ex) as V.
  destruct (binary_round_upper mx ex mB eB HB ltac:(rewrite E; apply Qle_refl))
    as [U|(mf & ef & U & LeU)];
  destruct (binary_round_lower mx ex mB eB HB ltac:(rewrite E; apply Qle_refl))
    as [L|(mf' & ef' & L & LeL)]; try congruence.
  rewrite U in L. injection L as <- <-. rewrite U in V. cbn [valid_binary] in V.
  destruct (bounded_unique mf ef mB eB V HB) as [-> ->]; [|rewrite U; reflexivity].
  apply Qle_antisym; assumption.
Qed.

(** Every positive integer below [2 ^ 53] is a float. *)
Lemma canonical_of_pos (n : positive) :
  Z.pos n < 2 ^ 53 ->
  exists mB eB, bounded prec emax mB eB = true
                /\ (mval (Z.pos mB) eB == inject_Z (Z.pos n))%Q.
Proof.
  intros H.
  pose proof (Zdigits2_le (Z.pos n) 53 ltac:(lia) ltac:(lia) H) as D.
  cbn [Zdigits2] in D.
  destruct (shl_align_spec n 0 (Z.pos (digits2_pos n) - 53)) as (E & M & G).
  pose proof (mval_shl_align n 0 (Z.pos (digits2_pos n) - 53)) as V.
  set (a := shl_align n 0 (Z.pos (digits2_pos n) - 53)) in *.
  exists (fst a), (snd a). split.
  - apply bounded_intro; lia.
  - rewrite V. unfold mval. change (bpow 0) with 1%Q. ring.
Qed.

Lemma binary_normalize_int (n : Z) :
  0 < n < 2 ^ 53 ->
  exists mB eB,
    binary_normalize prec emax n 0 false = S754_finite false mB eB
    /\ bounded prec emax mB eB = true
    /\ (mval (Z.pos mB) eB == inject_Z n)%Q.
Proof.
  intros H. destruct n as [|p|p]; try lia.
  destruct (canonical_of_pos p ltac:(lia)) as (mB & eB & HB & V).
  exists mB, eB. split; [|split; assumption].
  cbn [binary_normalize]. apply binary_round_repr; [exact HB|].
  rewrite V. unfold mval. change (bpow 0) with 1%Q. ring.
Qed.

(** *** Floats and their values *)

Lemma fval_cases (x : float) (q : Q) :
  fval x q ->
  (exists s, Prim2SF x = S754_zero s /\ (q == 0)%Q)
  \/ (exists m e, Prim2SF x = S754_finite false m e
        /\ bounded prec emax m e = true
        /\ (q == mval (Z.pos m) e)%Q /\ (0 < q)%Q).
Proof.
  unfold fval. pose proof (Prim2SF_valid x) as V.
  destruct (Prim2SF x) as [s|s| |[|] m e]; try contradiction; intros H.
  - left. exists s. split; [reflexivity|exact H].
  - right. exists m, e. split; [reflexivity|]. split; [exact V|].
    split; [exact H|]. rewrite H. apply mval_pos. lia.
Qed.

Lemma fval_nonneg (x : float) (q : Q) : fval x q -> (0 <= q)%Q.
Proof.
  intros H. destruct (fval_cases x q H) as [(s & _ & E)|(m & e & _ & _ & _ & P)];
    lra.
Qed.

Lemma fval_zero (x : float) (s : bool) : Prim2SF x = S754_zero s -> fval x 0.
Proof. intros E. unfold fval. rewrite E. reflexivity. Qed.

Lemma fval_finite (x : float) (m : positive) (e : Z) :
  Prim2SF x = S754_finite false m e -> fval x (mval (Z.pos m) e).
Proof. intros E. unfold fval. rewrite E. reflexivity. Qed.

Lemma fval_compare (x y : float) (qx qy : Q) :
  fval x qx -> fval y qy ->
  SFcompare (Prim2SF x) (Prim2SF y) = Some (qx ?= qy)%Q.
Proof.
  intros Hx Hy.
  destruct (fval_cases x qx Hx) as [(sx & Ex & Qx)|(mx & ex & Ex & Bx & Qx & Px)];
  destruct (fval_cases y qy Hy) as [(sy & Ey & Qy)|(my & ey & Ey & By & Qy & Py)];
    rewrite Ex, Ey.
  - cbn. f_equal. symmetry. apply Qeq_alt. rewrite Qx, Qy. reflexivity.
  - cbn. f_equal. symmetry. apply Qlt_alt. change (Qlt qx qy). lra.
  - cbn. f_equal. symmetry. apply Qgt_alt. change (Qlt qy qx). lra.
  - rewrite (SFcompare_pos _ _ _ _ Bx By). f_equal.
    rewrite Qx, Qy. reflexivity.
Qed.

Lemma fval_leb (x y : float) (qx qy : Q) :
  fval x qx -> fval y qy -> (PrimFloat.leb x y = true <-> (qx <= qy)%Q).
Proof.
  intros Hx Hy. rewrite leb_spec. unfold SFleb.
  rewrite (fval_compare x y qx qy Hx Hy).
  destruct (Qcompare_spec qx qy) as [E|E|E]; split; intros H;
    try reflexivity; try discriminate; lra.
Qed.

Lemma fval_ltb (x y : float) (qx qy : Q) :
  fval x qx -> fval y qy -> (PrimFloat.ltb x y = true <-> (qx < qy)%Q).
Proof.
  intros Hx Hy. rewrite ltb_spec. unfold SFltb.
  rewrite (fval_compare x y qx qy Hx Hy).
  destruct (Qcompare_spec qx qy) as [E|E|E]; split; intros H;
    try reflexivity; try discriminate; lra.
Qed.

Lemma fval_ltb_false (x y : float) (qx qy : Q) :
  fval x qx -> fval y qy -> (qy <= qx)%Q -> PrimFloat.ltb x y = false.
Proof.
  intros Hx Hy H. destruct (PrimFloat.ltb x y) eqn:E; [|reflexivity].
  apply (fval_ltb x y qx qy Hx Hy) in E. lra.
Qed.

(** A float between two finite floats that are not negative is one. *)
Lemma fle_range (lo x hi : float) (ql qh : Q) :
  fval lo ql -> fval hi qh -> fle lo x -> fle x hi ->
  exists q, fval x q /\ (ql <= q <= qh)%Q.
Proof.
  intros Hl Hh L U.
  assert (X : exists q, fval x q).
  { unfold fle in L, U. rewrite leb_spec in L, U. unfold SFleb in L, U.
    unfold fval.
    destruct (fval_cases lo ql Hl) as [(sl & El & _)|(ml & el & El & _)];
    destruct (fval_cases hi qh Hh) as [(sh & Eh & _)|(mh & eh & Eh & _)];
      rewrite ?El, ?Eh in *;
      destruct (Prim2SF x) as [s|[|]| |[|] m e]; cbn in L, U;
        try discriminate; eexists; reflexivity. }
  destruct X as [q X]. exists q. split; [exact X|]. split.
  - apply (fval_leb lo x ql q Hl X). exact L.
  - apply (fval_leb x hi q qh X Hh). exact U.
Qed.

(** *** Integers as floats *)

Lemma Z2F_fval (n : Z) : 0 <= n < 2 ^ 53 -> fval (Binary64.Z2F n) (inject_Z n).
Proof.
  intros H. unfold Binary64.Z2F, fval.
  destruct (Z.eq_dec n 0) as [->|N].
  - cbn [binary_normalize]. rewrite Prim2SF_SF2Prim by reflexivity. reflexivity.
  - destruct (binary_normalize_int n ltac:(lia)) as (mB & eB & -> & HB & V).
    rewrite Prim2SF_SF2Prim by exact HB. rewrite V. reflexivity.
Qed.

Lemma to_int_fval (x : float) (q : Q) :
  fval x q ->
  exists q', Binary64.to_int x = Ok (Exact.trunc q') /\ (q' == q)%Q.
Proof.
  unfold fval, Binary64.to_int.
  destruct (Prim2SF x) as [s|s| |[|] m e]; try contradiction; intros H;
    cbn [Binary64.SF2Q cond_Zopp].
  - exists 0%Q. split; [reflexivity|]. rewrite H. reflexivity.
  - eexists. split; [reflexivity|]. rewrite H. reflexivity.
Qed.

(** *** Products, sums and quotients between two floats *)

Lemma fmul_upper (x y hi : float) (qx qy qh : Q) :
  fval x qx -> fval y qy -> fval hi qh -> (qx * qy <= qh)%Q ->
  exists q, fval (PrimFloat.mul x y) q /\ (q <= qh)%Q.
Proof.
  intros Hx Hy Hh H. pose proof (fval_nonneg hi qh Hh) as Ph.
  pose proof (mul_spec x y) as S. unfold SF64mul in S.
  destruct (fval_cases x qx Hx) as [(sx & Ex & Qx)|(mx & ex & Ex & Bx & Qx & Px)];
  destruct (fval_cases y qy Hy) as [(sy & Ey & Qy)|(my & ey & Ey & By & Qy & Py)];
    rewrite Ex, Ey in S.
  - exists 0%Q. split; [exact (fval_zero _ _ S)|exact Ph].
  - exists 0%Q. split; [exact (fval_zero _ _ S)|exact Ph].
  - exists 0%Q. split; [exact (fval_zero _ _ S)|exact Ph].
  - destruct (fval_cases hi qh Hh)
      as [(sh & Eh & Qh)|(mh & eh & Eh & Bh & Qh & Ph')]; [nra|].
    destruct (SFmul_pos_upper mx ex my ey mh eh Bx By Bh
                ltac:(rewrite <- Qx, <- Qy, <- Qh; exact H))
      as [Z|(mf & ef & F & Le)]; [rewrite <- S in Z|rewrite <- S in F].
    + exists 0%Q. split; [exact (fval_zero _ _ Z)|exact Ph].
    + exists (mval (Z.pos mf) ef). split; [exact (fval_finite _ _ _ F)|].
      rewrite Qh. exact Le.
Qed.

Lemma fmul_between (x y lo hi : float) (qx qy ql qh : Q) :
  fval x qx -> fval y qy -> fval lo ql -> fval hi qh ->
  (ql <= qx * qy)%Q -> (qx * qy <= qh)%Q ->
  exists q, fval (PrimFloat.mul x y) q /\ (ql <= q <= qh)%Q.
Proof.
  intros Hx Hy Hl Hh L U.
  destruct (fmul_upper x y hi qx qy qh Hx Hy Hh U) as (q & Fq & Uq).
  destruct (fval_cases lo ql Hl) as [(sl & El & Ql)|(ml & el & El & Bl & Ql & Pl)].
  { exists q. split; [exact Fq|]. pose proof (fval_nonneg _ _ Fq). lra. }
  pose proof (fval_nonneg x qx Hx) as Nx. pose proof (fval_nonneg y qy Hy) as Ny.
  pose proof (mul_spec x y) as S. unfold SF64mul in S.
  destruct (fval_cases x qx Hx) as [(sx & Ex & Qx)|(mx & ex & Ex & Bx & Qx & Px)];
    [nra|].
  destruct (fval_cases y qy Hy) as [(sy & Ey & Qy)|(my & ey & Ey & By & Qy & Py)];
    [nra|].
  rewrite Ex, Ey in S.
  destruct (SFmul_pos_lower mx ex my ey ml el Bx By Bl
              ltac:(rewrite <- Qx, <- Qy, <- Ql; exact L))
    as [I|(mf & ef & F & Le)]; [rewrite <- S in I|rewrite <- S in F].
  - exfalso. unfold fval in Fq. rewrite I in Fq. exact Fq.
  - exists q. split; [exact Fq|]. split; [|exact Uq].
    unfold fval in Fq. rewrite F in Fq. rewrite Fq, Ql. exact Le.
Qed.

Lemma fadd_upper (x y hi : float) (qx qy qh : Q) :
  fval x qx -> fval y qy -> fval hi qh -> (qx + qy <= qh)%Q ->
  exists q, fval (PrimFloat.add x y) q /\ (q <= qh)%Q.
Proof.
  intros Hx Hy Hh H. pose proof (fval_nonneg hi qh Hh) as Ph.
  pose proof (add_spec x y) as S. unfold SF64add in S.
  destruct (fval_cases x qx Hx) as [(sx & Ex & Qx)|(mx & ex & Ex & Bx & Qx & Px)];
  destruct (fval_cases y qy Hy) as [(sy & Ey & Qy)|(my & ey & Ey & By & Qy & Py)];
    rewrite Ex, Ey in S.
  - exists 0%Q. split; [|exact Ph].
    destruct sx, sy; exact (fval_zero _ _ S).
  - exists qy. split; [|lra]. cbn [SFadd] in S.
    unfold fval. rewrite S. exact Qy.
  - exists qx. split; [|lra]. cbn [SFadd] in S.
    unfold fval. rewrite S. exact Qx.
  - destruct (fval_cases hi qh Hh)
      as [(sh & Eh & Qh)|(mh & eh & Eh & Bh & Qh & Ph')]; [lra|].
    destruct (SFadd_pos_upper mx ex my ey mh eh Bh
                ltac:(rewrite <- Qx, <- Qy, <- Qh; exact H))
      as [Z|(mf & ef & F & Le)]; [rewrite <- S in Z|rewrite <- S in F].
    + exists 0%Q. split; [exact (fval_zero _ _ Z)|exact Ph].
    + exists (mval (Z.pos mf) ef). split; [exact (fval_finite _ _ _ F)|].
      rewrite Qh. exact Le.
Qed.

Lemma fadd_between (x y lo hi : float) (qx qy ql qh : Q) :
  fval x qx -> fval y qy -> fval lo ql -> fval hi qh ->
  (ql <= qx + qy)%Q -> (qx + qy <= qh)%Q ->
  exists q, fval (PrimFloat.add x y) q /\ (ql <= q <= qh)%Q.
Proof.
  intros Hx Hy Hl Hh L U.
  destruct (fadd_upper x y hi qx qy qh Hx Hy Hh U) as (q & Fq & Uq).
  destruct (fval_cases lo ql Hl) as [(sl & El & Ql)|(ml & el & El & Bl & Ql & Pl)].
  { exists q. split; [exact Fq|]. pose proof (fval_nonneg _ _ Fq). lra. }
  pose proof (add_spec x y) as S. unfold SF64add in S.
  destruct (fval_cases x qx Hx) as [(sx & Ex & Qx)|(mx & ex & Ex & Bx & Qx & Px)];
  destruct (fval_cases y qy Hy) as [(sy & Ey & Qy)|(my & ey & Ey & By & Qy & Py)];
    rewrite Ex, Ey in S.
  - lra.
  - exists q. split; [exact Fq|]. split; [|exact Uq].
    cbn [SFadd] in S. unfold fval in Fq. rewrite S in Fq. lra.
  - exists q. split; [exact Fq|]. split; [|exact Uq].
    cbn [SFadd] in S. unfold fval in Fq. rewrite S in Fq. lra.
  - destruct (SFadd_pos_lower mx ex my ey ml el Bl
                ltac:(rewrite <- Qx, <- Qy, <- Ql; exact L))
      as [I|(mf & ef & F & Le)]; [rewrite <- S in I|rewrite <- S in F].
    + exfalso. unfold fval in Fq. rewrite I in Fq. exact Fq.
    + exists q. split; [exact Fq|]. split; [|exact Uq].
      unfold fval in Fq. rewrite F in Fq. rewrite Fq, Ql. exact Le.
Qed.

Lemma fdiv_upper (x y hi : float) (qx qy qh : Q) :
  fval x qx -> fval y qy -> fval hi qh -> (0 < qy)%Q -> (qx <= qh * qy)%Q ->
  exists q, fval (PrimFloat.div x y) q /\ (q <= qh)%Q.
Proof.
  intros Hx Hy Hh Py H. pose proof (fval_nonneg hi qh Hh) as Ph.
  pose proof (div_spec x y) as S. unfold SF64div in S.
  destruct (fval_cases y qy Hy) as [(sy & Ey & Qy)|(my & ey & Ey & By & Qy & _)];
    [lra|].
  destruct (fval_cases x qx Hx) as [(sx & Ex & Qx)|(mx & ex & Ex & Bx & Qx & Px)];
    rewrite Ex, Ey in S.
  - exists 0%Q. split; [exact (fval_zero _ _ S)|exact Ph].
  - destruct (fval_cases hi qh Hh)
      as [(sh & Eh & Qh)|(mh & eh & Eh & Bh & Qh & Ph')]; [nra|].
    destruct (SFdiv_pos_upper mx ex my ey mh eh Bx By Bh
                ltac:(rewrite <- Qx, <- Qy, <- Qh; exact H))
      as [Z|(mf & ef & F & Le)]; [rewrite <- S in Z|rewrite <- S in F].
    + exists 0%Q. split; [exact (fval_zero _ _ Z)|exact Ph].
    + exists (mval (Z.pos mf) ef). split; [exact (fval_finite _ _ _ F)|].
      rewrite Qh. exact Le.
Qed.

Lemma fdiv_between (x y lo hi : float) (qx qy ql qh : Q) :
  fval x qx -> fval y qy -> fval lo ql -> fval hi qh -> (0 < qy)%Q ->
  (ql * qy <= qx)%Q -> (qx <= qh * qy)%Q ->
  exists q, fval (PrimFloat.div x y) q /\ (ql <= q <= qh)%Q.
Proof.
  intros Hx Hy Hl Hh Py L U.
  destruct (fdiv_upper x y hi qx qy qh Hx Hy Hh Py U) as (q & Fq & Uq).
  destruct (fval_cases lo ql Hl) as [(sl & El & Ql)|(ml & el & El & Bl & Ql & Pl)].
  { exists q. split; [exact Fq|]. pose proof (fval_nonneg _ _ Fq). lra. }
  pose proof (div_spec x y) as S. unfold SF64div in S.
  destruct (fval_cases y qy Hy) as [(sy & Ey & Qy)|(my & ey & Ey & By & Qy & _)];
    [lra|].
  destruct (fval_cases x qx Hx) as [(sx & Ex & Qx)|(mx & ex & Ex & Bx & Qx & Px)];
    [nra|].
  rewrite Ex, Ey in S.
  destruct (SFdiv_pos_lower mx ex my ey ml el Bx By Bl
              ltac:(rewrite <- Qx, <- Qy, <- Ql; exact L))
    as [I|(mf & ef & F & Le)]; [rewrite <- S in I|rewrite <- S in F].
  - exfalso. unfold fval in Fq. rewrite I in Fq. exact Fq.
  - exists q. split; [exact Fq|]. split; [|exact Uq].
    unfold fval in Fq. rewrite F in Fq. rewrite Fq, Ql. exact Le.
Qed.

(** *** Truncation *)

Lemma trunc_nonneg (a : Z) (b : positive) :
  0 <= a -> Z.quot a (Z.pos b) = a / Z.pos b.
Proof. intros H. apply Z.quot_div_nonneg; lia. Qed.

Lemma trunc_mono_nonneg (x y : Q) :
  (0 <= x)%Q -> (x <= y)%Q -> Exact.trunc x <= Exact.trunc y.
Proof.
  intros H0 H. unfold Exact.trunc.
  destruct x as [a b], y as [c d]. unfold Qle in *. cbn [Qnum Qden] in *.
  assert (Ha : 0 <= a) by lia. assert (Hc : 0 <= c) by nia.
  rewrite !trunc_nonneg by lia.
  apply Z.div_le_lower_bound; [lia|].
  pose proof (Z.mul_div_le a (Z.pos b) ltac:(lia)) as M.
  assert (G : Z.pos b * (Z.pos d * (a / Z.pos b)) <= Z.pos b * c) by nia.
  apply Z.mul_le_mono_pos_l in G; lia.
Qed.

Lemma trunc_Z (z : Z) : Exact.trunc (inject_Z z) = z.
Proof. unfold Exact.trunc. cbn [Qnum Qden inject_Z]. apply Z.quot_1_r. Qed.

Lemma trunc_between (x : Q) (lo hi : Z) :
  0 <= lo -> (inject_Z lo <= x)%Q -> (x <= inject_Z hi)%Q ->
  lo <= Exact.trunc x <= hi.
Proof.
  intros H0 L U.
  assert (P : (0 <= inject_Z lo)%Q).
  { change 0%Q with (inject_Z 0). rewrite <- Zle_Qle. exact H0. }
  split.
  - rewrite <- (trunc_Z lo). apply trunc_mono_nonneg; assumption.
  - rewrite <- (trunc_Z hi). apply trunc_mono_nonneg; [lra|exact U].
Qed.

(** *** The score of a feature set with values in [0, 1] *)

Lemma unit_float_fval (x : float) :
  unit_float x -> exists q, fval x q /\ (0 <= q <= 1)%Q.
Proof.
  intros [L U].
  apply (fle_range (Binary64.Z2F 0) x (Binary64.Z2F 1) 0 1);
    try assumption.
  - exact (Z2F_fval 0 ltac:(lia)).
  - exact (Z2F_fval 1 ltac:(lia)).
Qed.

Lemma fval_unit_float (x : float) (q : Q) :
  fval x q -> (q <= 1)%Q -> unit_float x.
Proof.
  intros H U. pose proof (fval_nonneg x q H) as P. split.
  - apply (fval_leb (Binary64.Z2F 0) x 0 q (Z2F_fval 0 ltac:(lia)) H). exact P.
  - apply (fval_leb x (Binary64.Z2F 1) q 1 H (Z2F_fval 1 ltac:(lia))). exact U.
Qed.

Lemma b64_sum_bound (l : list float) :
  forall (acc : float) (qa : Q) (j : Z),
    fval acc qa -> (qa <= inject_Z j)%Q -> 0 <= j ->
    j + Z.of_nat (List.length l) < 2 ^ 53 ->
    Forall unit_float l ->
    exists q, fval (fold_left PrimFloat.add l acc) q
              /\ (q <= inject_Z (j + Z.of_nat (List.length l)))%Q.
Proof.
  induction l as [|x l IH]; intros acc qa j Ha Hq Hj Hn Hl.
  - exists qa. split; [exact Ha|]. cbn [List.length Z.of_nat].
    rewrite Z.add_0_r. exact Hq.
  - cbn [fold_left]. inversion Hl as [|x' l' Hx Hl']; subst.
    destruct (unit_float_fval x Hx) as (qx & Fx & Bx).
    cbn [List.length] in Hn |- *. rewrite Nat2Z.inj_succ in Hn |- *.
    destruct (fadd_upper acc x (Binary64.Z2F (j + 1)) qa qx (inject_Z (j + 1))
                Ha Fx (Z2F_fval (j + 1) ltac:(lia)))
      as (q1 & F1 & U1).
    { rewrite inject_Z_plus. change (inject_Z 1) with 1%Q. lra. }
    destruct (IH _ q1 (j + 1) F1 U1 ltac:(lia) ltac:(lia) Hl') as (q & Fq & Uq).
    exists q. split; [exact Fq|].
    replace (j + Z.succ (Z.of_nat (List.length l)))
      with (j + 1 + Z.of_nat (List.length l)) by lia.
    exact Uq.
Qed.

Lemma b64_avg_unit (pw : float -> Z -> res float) (d : dict float) :
  Forall unit_float (map snd d) ->
  Z.of_nat (List.length d) < 2 ^ 53 ->
  exists (avg : float) (q : Q),
    avg_feature_score (PF := Binary64.binary64 pw) d = Ok avg
    /\ fval avg q /\ (q <= 1)%Q.
Proof.
  intros Hd Hn. destruct d as [|kv d].
  - exists (Binary64.Q2F 0.5), (1 # 2)%Q. split; [reflexivity|].
    split; [vm_compute; reflexivity|lra].
  - rewrite (avg_feature_score_nonempty (PF := Binary64.binary64 pw))
      by discriminate.
    eexists. unfold py_sum, dict_values, len. b64_ops.
    set (n := Z.of_nat (List.length (kv :: d))) in *.
    assert (Pn : 1 <= n) by (unfold n; cbn [List.length]; lia).
    destruct (b64_sum_bound (map snd (kv :: d)) (Binary64.Z2F 0) 0 0
                (Z2F_fval 0 ltac:(lia)) ltac:(apply Qle_refl) ltac:(lia))
      as (qs & Fs & Us); [rewrite length_map; fold n; lia|exact Hd|].
    rewrite length_map in Us. fold n in Us. rewrite Z.add_0_l in Us.
    assert (Qn : (1 <= inject_Z n)%Q).
    { change 1%Q with (inject_Z 1). rewrite <- Zle_Qle. exact Pn. }
    destruct (fdiv_upper _ (Binary64.Z2F n) (Binary64.Z2F 1) qs (inject_Z n) 1
                Fs (Z2F_fval n ltac:(lia)) (Z2F_fval 1 ltac:(lia)))
      as (qa & Fa & Ua); [lra|lra|].
    exists qa. split; [reflexivity|]. split; assumption.
Qed.

Lemma b64_score_unit (pw : float -> Z -> res float) (d : dict float) :
  Forall unit_float (map snd d) ->
  Z.of_nat (List.length d) < 2 ^ 53 ->
  exists (avg : float) (c : Z),
    avg_feature_score (PF := Binary64.binary64 pw) d = Ok avg
    /\ unit_float avg
    /\ Binary64.to_int
         (PrimFloat.add (Binary64.Z2F 300)
            (PrimFloat.mul avg (Binary64.Z2F 600))) = Ok c
    /\ 300 <= c <= 900
    /\ generate_civil_score (PF := Binary64.binary64 pw) d = Ok c.
Proof.
  intros Hd Hn.
  destruct (b64_avg_unit pw d Hd Hn) as (avg & qa & Ea & Fa & Ua).
  pose proof (fval_nonneg avg qa Fa) as Pa.
  destruct (fmul_upper avg (Binary64.Z2F 600) (Binary64.Z2F 600) qa 600 600
              Fa (Z2F_fval 600 ltac:(lia)) (Z2F_fval 600 ltac:(lia)))
    as (qt & Ft & Ut); [lra|].
  pose proof (fval_nonneg _ qt Ft) as Pt.
  destruct (fadd_between (Binary64.Z2F 300) _ (Binary64.Z2F 300)
              (Binary64.Z2F 900) 300 qt 300 900
              (Z2F_fval 300 ltac:(lia)) Ft (Z2F_fval 300 ltac:(lia))
              (Z2F_fval 900 ltac:(lia)))
    as (qu & Fu & Lu & Uu); [lra|lra|].
  destruct (to_int_fval _ qu Fu) as (q' & Ei & Eq').
  assert (Hc : 300 <= Exact.trunc q' <= 900).
  { apply trunc_between; [lia| |]; rewrite Eq'; assumption. }
  exists avg, (Exact.trunc q').
  split; [exact Ea|]. split; [exact (fval_unit_float avg qa Fa Ua)|].
  split; [exact Ei|]. split; [exact Hc|].
  unfold generate_civil_score. rewrite Ea. cbn [bind].
  unfold CIVIL_SCORE_MIN, CIVIL_SCORE_MAX. b64_ops.
  change (900 - 300) with 600. rewrite Ei. cbn [bind]. f_equal. lia.
Qed.

(** *** Rounding to thousands in binary64 *)

Lemma Q2SF_int (n : Z) (mB : positive) (eB : Z) :
  0 < n ->
  bounded prec emax mB eB = true ->
  (mval (Z.pos mB) eB == inject_Z n)%Q ->
  Binary64.Q2SF (n # 1) = S754_finite false mB eB.
Proof.
  intros Hn HB V. unfold Binary64.Q2SF. cbn [Qnum Qden].
  destruct (Z.eqb_spec n 0) as [|_]; [lia|].
  set (k := Z.max 0 (Z.log2 1 - Z.log2 (Z.abs n) + 64)).
  assert (Hk : 0 <= k) by (unfold k; lia).
  rewrite Z.div_1_r, Z.mod_1_r. cbn [Z.eqb].
  rewrite Z.sgn_pos by lia. rewrite Z.abs_eq by lia.
  assert (Pk : 0 < 2 ^ k) by (apply Z.pow_pos_nonneg; lia).
  assert (E : 1 * (2 * (n * 2 ^ k) + 0) = n * 2 ^ (k + 1)).
  { rewrite Z.pow_add_r by lia. change (2 ^ 1) with 2. ring. }
  rewrite E.
  assert (P : 0 < n * 2 ^ (k + 1)).
  { apply Z.mul_pos_pos; [lia|]. apply Z.pow_pos_nonneg; lia. }
  destruct (n * 2 ^ (k + 1)) as [|p|p] eqn:Ep; try lia.
  cbn [binary_normalize]. apply binary_round_repr; [exact HB|].
  rewrite V, <- Ep, mval_shift by lia.
  replace (- k - 1 + (k + 1)) with 0 by lia.
  unfold mval. change (bpow 0) with 1%Q. ring.
Qed.

Lemma Q2F_int_fval (n : Z) :
  0 < n < 2 ^ 53 -> fval (Binary64.Q2F (n # 1)) (inject_Z n).
Proof.
  intros H. destruct n as [|p|p]; try lia.
  destruct (canonical_of_pos p ltac:(lia)) as (mB & eB & HB & V).
  unfold Binary64.Q2F, fval.
  rewrite (Q2SF_int (Z.pos p) mB eB ltac:(lia) HB V).
  rewrite Prim2SF_SF2Prim by exact HB. rewrite V. reflexivity.
Qed.

Lemma F2Q_fval (x : float) (q : Q) :
  fval x q -> exists q', Binary64.F2Q x = Some q' /\ (q' == q)%Q.
Proof.
  unfold fval, Binary64.F2Q.
  destruct (Prim2SF x) as [s|s| |[|] m e]; try contradiction; intros H;
    cbn [Binary64.SF2Q cond_Zopp].
  - exists 0%Q. split; [reflexivity|]. rewrite H. reflexivity.
  - eexists. split; [reflexivity|]. rewrite H. reflexivity.
Qed.

(** A value between two multiples of a thousand rounds to a multiple of
    a thousand between them. *)
Lemma b64_round_thousand (x : float) (q : Q) (lo hi : Z) :
  fval x q -> 1 <= lo -> hi * 1000 < 2 ^ 53 ->
  (inject_Z lo * 1000 <= q)%Q -> (q <= inject_Z hi * 1000)%Q ->
  exists z, lo <= z <= hi
            /\ fval (Binary64.round_ndigits x (-3)) (inject_Z (z * 1000)).
Proof.
  intros Hx Hlo Hhi L U.
  destruct (F2Q_fval x q Hx) as (q' & E & Eq').
  unfold Binary64.round_ndigits. rewrite E.
  rewrite round_ndigits_m3.
  set (z := Exact.round_half_even (q' * (1 # 1000))).
  assert (Lz : lo <= z) by (apply round_half_even_ge; rewrite Eq'; lra).
  assert (Uz : z <= hi) by (apply round_half_even_le; rewrite Eq'; lra).
  exists z. split; [lia|].
  assert (N : Qeq_bool (inject_Z z * 1000) 0 = false).
  { apply Qeq_bool_false. intros C.
    assert (P : (1 <= inject_Z z)%Q).
    { change 1%Q with (inject_Z 1). rewrite <- Zle_Qle. lia. }
    lra. }
  rewrite N. cbn [andb].
  change (inject_Z z * 1000)%Q with ((z * 1000) # 1).
  apply Q2F_int_fval. lia.
Qed.

Lemma round_half_even_small (y : Q) :
  (0 <= y)%Q -> (y <= 1 # 2)%Q -> Exact.round_half_even y = 0.
Proof.
  intros L U. unfold Exact.round_half_even.
  assert (F : Qfloor y = 0).
  { pose proof (Qfloor_le y) as A. pose proof (Qlt_floor y) as B.
    assert (A' : (inject_Z (Qfloor y) < inject_Z 1)%Q)
      by (change (inject_Z 1) with 1%Q; lra).
    assert (B' : (inject_Z 0 < inject_Z (Qfloor y + 1))%Q)
      by (change (inject_Z 0) with 0%Q; lra).
    rewrite <- Zlt_Qlt in A', B'. lia. }
  rewrite F. change (inject_Z 0) with 0%Q.
  destruct (Qcompare_spec (y - 0) (1 # 2)) as [C|C|C]; try reflexivity. lra.
Qed.

(** A value of at most 500 rounds to zero. *)
Lemma b64_round_thousand_zero (x : float) (q : Q) :
  fval x q -> (q <= 500)%Q -> fval (Binary64.round_ndigits x (-3)) 0.
Proof.
  intros Hx U. pose proof (fval_nonneg x q Hx) as P.
  destruct (F2Q_fval x q Hx) as (q' & E & Eq').
  unfold Binary64.round_ndigits. rewrite E.
  rewrite round_ndigits_m3.
  rewrite (round_half_even_small (q' * (1 # 1000)))
    by (rewrite Eq'; lra).
  change (Qeq_bool (inject_Z 0 * 1000) 0) with true. cbn [andb].
  destruct (Binary64.sign_bit x); vm_compute; reflexivity.
Qed.

(** *** The float nearest to a rational *)

(** No binary64 lies strictly between two neighbours that carry more
    than 53 bits. *)
Lemma no_float_between (M E : Z) (mB : positive) (eB : Z) :
  2 ^ 53 <= M -> bounded prec emax mB eB = true ->
  (mval (M - 1) E < mval (Z.pos mB) eB)%Q ->
  (mval (Z.pos mB) eB < mval M E)%Q -> False.
Proof.
  intros HM HB L U. destruct (bounded_mantissa mB eB HB) as [Hm _].
  destruct (Z_le_gt_dec E eB) as [C|C].
  - assert (S : (mval (Z.pos mB) eB == mval (Z.pos mB * 2 ^ (eB - E)) E)%Q).
    { rewrite mval_shift by lia. replace (E + (eB - E)) with eB by lia.
      reflexivity. }
    rewrite S in L, U. apply mval_lt_inv in L, U. lia.
  - assert (S : (mval (M - 1) E == mval ((M - 1) * 2 ^ (E - eB)) eB)%Q).
    { rewrite mval_shift by lia. replace (eB + (E - eB)) with E by lia.
      reflexivity. }
    rewrite S in L. apply mval_lt_inv in L.
    assert (P : 2 ^ 1 <= 2 ^ (E - eB)) by (apply Z.pow_le_mono_r; lia).
    change (2 ^ 1) with 2 in P. nia.
Qed.

Lemma mval_neg_scale (M j : Z) :
  0 <= j -> (mval M (- j) * inject_Z (2 ^ j) == inject_Z M)%Q.
Proof.
  intros Hj. unfold mval. rewrite <- (bpow_Z j) by exact Hj.
  rewrite <- Qmult_assoc, <- bpow_plus.
  replace (- j + j) with 0 by lia. change (bpow 0) with 1%Q. ring.
Qed.

Lemma inject_pow_pos (j : Z) : 0 <= j -> (0 < inject_Z (2 ^ j))%Q.
Proof.
  intros Hj. change 0%Q with (inject_Z 0). rewrite <- Zlt_Qlt.
  apply Z.pow_pos_nonneg; lia.
Qed.

Lemma mval_neg_lt_Q (M j n : Z) (d : positive) :
  0 <= j -> M * Z.pos d < n * 2 ^ j -> (mval M (- j) < n # d)%Q.
Proof.
  intros Hj H. apply (Qmult_lt_r _ _ (inject_Z (2 ^ j)) (inject_pow_pos j Hj)).
  rewrite mval_neg_scale by exact Hj.
  unfold Qlt. cbn [Qnum Qden inject_Z Qmult]. rewrite Pos.mul_1_r. lia.
Qed.

Lemma mval_neg_gt_Q (M j n : Z) (d : positive) :
  0 <= j -> n * 2 ^ j < M * Z.pos d -> (n # d < mval M (- j))%Q.
Proof.
  intros Hj H. apply (Qmult_lt_r _ _ (inject_Z (2 ^ j)) (inject_pow_pos j Hj)).
  rewrite mval_neg_scale by exact Hj.
  unfold Qlt. cbn [Qnum Qden inject_Z Qmult]. rewrite Pos.mul_1_r. lia.
Qed.

Lemma mval_neg_eq_Q (M j n : Z) (d : positive) :
  0 <= j -> M * Z.pos d = n * 2 ^ j -> (mval M (- j) == n # d)%Q.
Proof.
  intros Hj H.
  apply (Qmult_inj_r _ _ (inject_Z (2 ^ j))).
  { pose proof (inject_pow_pos j Hj). lra. }
  rewrite mval_neg_scale by exact Hj.
  unfold Qeq. cbn [Qnum Qden inject_Z Qmult]. rewrite Pos.mul_1_r. lia.
Qed.

(** What [Q2SF] rounds: the quotient cut to at least 64 bits, exact or
    strictly between its two neighbours. *)
Lemma Q2SF_pos_unfold (q : Q) :
  (0 < q)%Q ->
  exists (M : positive) (E : Z),
    Binary64.Q2SF q = binary_round prec emax false M E
    /\ 2 ^ 53 <= Z.pos M
    /\ ((mval (Z.pos M) E == q)%Q
        \/ ((mval (Z.pos M - 1) E < q)%Q /\ (q < mval (Z.pos M + 1) E)%Q)).
Proof.
  intros Hq. destruct q as [n d]. unfold Qlt in Hq. cbn in Hq.
  assert (Hn : 0 < n) by lia.
  unfold Binary64.Q2SF. cbn [Qnum Qden].
  destruct (Z.eqb_spec n 0) as [|_]; [lia|].
  rewrite Z.abs_eq, Z.sgn_pos by lia.
  set (k := Z.max 0 (Z.log2 (Z.pos d) - Z.log2 n + 64)).
  assert (Hk : 0 <= k) by (unfold k; lia).
  assert (Pk : 0 < 2 ^ k) by (apply Z.pow_pos_nonneg; lia).
  pose proof (Z.div_mod (n * 2 ^ k) (Z.pos d) ltac:(lia)) as DM.
  pose proof (Z.mod_pos_bound (n * 2 ^ k) (Z.pos d) ltac:(lia)) as MB.
  set (m := n * 2 ^ k / Z.pos d) in *.
  set (r := (n * 2 ^ k) mod Z.pos d) in *.
  assert (Hm : 2 ^ 63 <= m).
  { unfold m. apply Z.div_le_lower_bound; [lia|].
    destruct (Z.log2_spec n Hn) as [Ln _].
    destruct (Z.log2_spec (Z.pos d) ltac:(lia)) as [_ Ld].
    pose proof (Z.log2_nonneg n) as N1.
    pose proof (Z.log2_nonneg (Z.pos d)) as N2.
    assert (K : Z.log2 (Z.pos d) + 64 <= Z.log2 n + k) by (unfold k; lia).
    assert (P1 : 2 ^ (Z.log2 (Z.pos d) + 64) <= 2 ^ (Z.log2 n + k))
      by (apply Z.pow_le_mono_r; lia).
    rewrite Z.pow_add_r in P1 by lia.
    rewrite (Z.pow_add_r 2 (Z.log2 n) k) in P1 by lia.
    rewrite Z.pow_succ_r in Ld by lia.
    set (a := 2 ^ Z.log2 n) in *. set (b := 2 ^ Z.log2 (Z.pos d)) in *.
    set (c := 2 ^ k) in *.
    change (2 ^ 64) with 18446744073709551616 in P1.
    change (2 ^ 63) with 9223372036854775808.
    assert (a * c <= n * c) by nia. nia. }
  assert (P53 : 2 ^ 53 <= 2 ^ 63) by (apply Z.pow_le_mono_r; lia).
  assert (E2 : 2 ^ (k + 1) = 2 * 2 ^ k).
  { rewrite Z.pow_add_r by lia. change (2 ^ 1) with 2. ring. }
  replace (- k - 1) with (- (k + 1)) by lia.
  destruct (Z.eqb_spec r 0) as [R|R].
  - rewrite Z.mul_1_l, Z.add_0_r.
    destruct (2 * m) as [|M|M] eqn:EM; try lia.
    exists M, (- (k + 1)). cbn [binary_normalize].
    split; [reflexivity|]. split; [lia|]. left.
    apply mval_neg_eq_Q; [lia|]. rewrite E2. nia.
  - rewrite Z.mul_1_l.
    destruct (2 * m + 1) as [|M|M] eqn:EM; try lia.
    exists M, (- (k + 1)). cbn [binary_normalize].
    split; [reflexivity|]. split; [lia|]. right. split.
    + apply mval_neg_lt_Q; [lia|]. rewrite E2. nia.
    + apply mval_neg_gt_Q; [lia|]. rewrite E2. nia.
Qed.

Lemma Q2SF_upper (q : Q) (mB : positive) (eB : Z) :
  (0 < q)%Q -> bounded prec emax mB eB = true ->
  (q <= mval (Z.pos mB) eB)%Q ->
  Binary64.Q2SF q = S754_zero false
  \/ exists mf ef,
       Binary64.Q2SF q = S754_finite false mf ef
       /\ (mval (Z.pos mf) ef <= mval (Z.pos mB) eB)%Q.
Proof.
  intros Hq HB U.
  destruct (Q2SF_pos_unfold q Hq) as (M & E & -> & HM & [V|[L R]]).
  - apply binary_round_upper; [exact HB|]. rewrite V. exact U.
  - apply binary_round_upper; [exact HB|].
    destruct (Qlt_le_dec (mval (Z.pos mB) eB) (mval (Z.pos M) E)) as [C|C];
      [|exact C].
    exfalso. apply (no_float_between (Z.pos M) E mB eB); try assumption. lra.
Qed.

Lemma Q2SF_lower (q : Q) (mB : positive) (eB : Z) :
  (0 < q)%Q -> bounded prec emax mB eB = true ->
  (mval (Z.pos mB) eB <= q)%Q ->
  Binary64.Q2SF q = S754_infinity false
  \/ exists mf ef,
       Binary64.Q2SF q = S754_finite false mf ef
       /\ (mval (Z.pos mB) eB <= mval (Z.pos mf) ef)%Q.
Proof.
  intros Hq HB U.
  destruct (Q2SF_pos_unfold q Hq) as (M & E & -> & HM & [V|[L R]]).
  - apply binary_round_lower; [exact HB|]. rewrite V. exact U.
  - apply binary_round_lower; [exact HB|].
    destruct (Qlt_le_dec (mval (Z.pos M) E) (mval (Z.pos mB) eB)) as [C|C];
      [|exact C].
    exfalso. apply (no_float_between (Z.pos M + 1) E mB eB);
      try assumption; [lia| |lra].
    replace (Z.pos M + 1 - 1) with (Z.pos M) by lia. exact C.
Qed.

Lemma Q2SF_valid (q : Q) : (0 <= q)%Q -> valid_binary (Binary64.Q2SF q) = true.
Proof.
  intros Hq. destruct (Qlt_le_dec 0 q) as [P|P].
  - destruct (Q2SF_pos_unfold q P) as (M & E & -> & _).
    apply binary_round_valid.
  - assert (Z : Qnum q = 0).
    { destruct q as [n d]. unfold Qle in *. cbn in *. lia. }
    unfold Binary64.Q2SF. rewrite Z. reflexivity.
Qed.

Lemma Q2F_zero (q : Q) : (q == 0)%Q -> Prim2SF (Binary64.Q2F q) = S754_zero false.
Proof.
  intros H. assert (Z : Qnum q = 0).
  { destruct q as [n d]. unfold Qeq in H. cbn in *. lia. }
  unfold Binary64.Q2F, Binary64.Q2SF. rewrite Z. reflexivity.
Qed.

Lemma Q2F_upper (q : Q) (hi : float) (qh : Q) :
  (0 <= q)%Q -> fval hi qh -> (q <= qh)%Q ->
  exists q', fval (Binary64.Q2F q) q' /\ (q' <= qh)%Q.
Proof.
  intros Hq Hh U. pose proof (fval_nonneg hi qh Hh) as Ph.
  destruct (Qlt_le_dec 0 q) as [P|P].
  - destruct (fval_cases hi qh Hh)
      as [(sh & Eh & Qh)|(mh & eh & Eh & Bh & Qh & Ph')]; [lra|].
    pose proof (Q2SF_valid q Hq) as V.
    destruct (Q2SF_upper q mh eh P Bh ltac:(rewrite <- Qh; exact U))
      as [Z|(mf & ef & F & Le)].
    + exists 0%Q. split; [|exact Ph].
      apply (fval_zero _ false). unfold Binary64.Q2F.
      rewrite Prim2SF_SF2Prim by exact V. exact Z.
    + exists (mval (Z.pos mf) ef). split; [|rewrite Qh; exact Le].
      apply fval_finite. unfold Binary64.Q2F.
      rewrite Prim2SF_SF2Prim by exact V. exact F.
  - exists 0%Q. split; [|exact Ph].
    apply (fval_zero _ false). apply Q2F_zero. lra.
Qed.

Lemma Q2F_between (q : Q) (lo hi : float) (ql qh : Q) :
  fval lo ql -> fval hi qh -> (ql <= q)%Q -> (q <= qh)%Q ->
  exists q', fval (Binary64.Q2F q) q' /\ (ql <= q' <= qh)%Q.
Proof.
  intros Hl Hh L U. pose proof (fval_nonneg lo ql Hl) as Pl.
  assert (Hq : (0 <= q)%Q) by lra.
  destruct (Q2F_upper q hi qh Hq Hh U) as (q' & Fq & Uq).
  exists q'. split; [exact Fq|]. split; [|exact Uq].
  destruct (fval_cases lo ql Hl) as [(sl & El & Ql)|(ml & el & El & Bl & Ql & Pl')].
  { pose proof (fval_nonneg _ _ Fq). lra. }
  pose proof (Q2SF_valid q Hq) as V.
  destruct (Q2SF_lower q ml el ltac:(lra) Bl ltac:(rewrite <- Ql; exact L))
    as [I|(mf & ef & F & Le)].
  - exfalso. unfold fval, Binary64.Q2F in Fq.
    rewrite Prim2SF_SF2Prim in Fq by exact V. rewrite I in Fq. exact Fq.
  - unfold fval, Binary64.Q2F in Fq.
    rewrite Prim2SF_SF2Prim in Fq by exact V. rewrite F in Fq.
    rewrite Fq, Ql. exact Le.
Qed.

Lemma fval_is_finite (x : float) (q : Q) :
  fval x q -> Binary64.is_finite x = true.
Proof.
  unfold fval, Binary64.is_finite.
  destruct (Prim2SF x) as [s|s| |[|] m e]; try contradiction; reflexivity.
Qed.

Lemma fval_pos_finite (x : float) (q : Q) :
  fval x q -> (0 < q)%Q -> float_pos_finite x = true.
Proof.
  intros H P. unfold float_pos_finite.
  destruct (fval_cases x q H) as [(s & E & Z)|(m & e & E & _)]; [lra|].
  rewrite E. reflexivity.
Qed.

(** *** The correctly rounded power *)

Lemma strip_zeros_value (m : positive) :
  forall e, let '(m', e') := Binary64.strip_zeros m e in
            (mval (Z.pos m') e' == mval (Z.pos m) e)%Q.
Proof.
  induction m as [p IH|p IH|]; intros e; cbn [Binary64.strip_zeros];
    try reflexivity.
  specialize (IH (e + 1)). destruct (Binary64.strip_zeros p (e + 1)) as [m' e'].
  rewrite IH. rewrite <- (mval_shift (Z.pos p) e 1) by lia.
  change (2 ^ 1) with 2. replace (Z.pos p * 2) with (Z.pos p~0) by lia.
  reflexivity.
Qed.

(** The power of a positive finite float is the float nearest to the
    power of its value, when that is finite. *)
Lemma pow_cr_value (x : float) (qx : Q) (n : Z) :
  fval x qx -> (0 < qx)%Q -> n <> 0 ->
  exists q, (q == qx)%Q
    /\ Binary64.pow_cr x n
       = if Binary64.is_finite (Binary64.Q2F (q ^ n))
         then Ok (Binary64.Q2F (q ^ n)) else Raise OverflowError.
Proof.
  intros H P Hn. unfold Binary64.pow_cr.
  destruct (Z.eqb_spec n 0) as [|_]; [contradiction|].
  destruct (fval_cases x qx H) as [(s & E & Z)|(m & e & E & _ & V & _)]; [lra|].
  rewrite E. pose proof (strip_zeros_value m e) as S.
  destruct (Binary64.strip_zeros m e) as [m' e'].
  exists (mval (Z.pos m') e'). split; [rewrite S, V; reflexivity|].
  reflexivity.
Qed.

Lemma Qpower_base_le (a b : Q) (n : positive) :
  (0 <= a)%Q -> (a <= b)%Q -> (Qpower_positive a n <= Qpower_positive b n)%Q.
Proof.
  intros Ha Hab.
  assert (G : forall k : nat,
             (0 <= a ^ Z.of_nat k)%Q /\ (a ^ Z.of_nat k <= b ^ Z.of_nat k)%Q).
  { induction k as [|k [I0 I1]].
    - cbn. split; lra.
    - rewrite Nat2Z.inj_succ.
      assert (Ea : (a ^ Z.succ (Z.of_nat k) == a ^ Z.of_nat k * a)%Q).
      { destruct (Qeq_dec a 0) as [Z|Z].
        - rewrite Z. rewrite Qpower_0 by lia. ring.
        - unfold Z.succ. rewrite Qpower_plus by exact Z.
          change (a ^ 1)%Q with a. reflexivity. }
      assert (Eb : (b ^ Z.succ (Z.of_nat k) == b ^ Z.of_nat k * b)%Q).
      { destruct (Qeq_dec b 0) as [Z|Z].
        - rewrite Z. rewrite Qpower_0 by lia. ring.
        - unfold Z.succ. rewrite Qpower_plus by exact Z.
          change (b ^ 1)%Q with b. reflexivity. }
      rewrite Ea, Eb. split; [nra|]. nra. }
  destruct (G (Pos.to_nat n)) as [_ G1].
  rewrite positive_nat_Z in G1. exact G1.
Qed.

(** The power of a value in [1, 2] is within the range of binary64 as
    long as the exponent is below 1000 in size. *)
Lemma pow_in_range (q : Q) (n : Z) :
  (1 <= q)%Q -> (q <= 2)%Q -> -1000 <= n <= 1000 ->
  (0 < q ^ n)%Q /\ (q ^ n <= mval (2 ^ 52) 948)%Q.
Proof.
  intros L U Hn.
  assert (P : (0 < q ^ n)%Q) by (apply Qpower_0_lt; lra).
  split; [exact P|].
  apply Qle_trans with (q ^ 1000)%Q.
  - apply Qpower_le_compat_l; [lia|exact L].
  - apply Qle_trans with (2 ^ 1000)%Q.
    + apply (Qpower_base_le q 2 1000); lra.
    + assert (E : (mval (2 ^ 52) 948 == bpow 1000)%Q).
      { unfold mval. rewrite <- (bpow_Z 52) by lia. rewrite <- bpow_plus.
        reflexivity. }
      rewrite E. unfold bpow. apply Qle_refl.
Qed.

Lemma pow_cr_returns (x : float) (qx : Q) (n : Z) :
  fval x qx -> (1 <= qx)%Q -> (qx <= 2)%Q -> -1000 <= n <= 1000 ->
  returns (Binary64.pow_cr x n).
Proof.
  intros H L U Hn. destruct (Z.eq_dec n 0) as [->|N].
  { apply returns_Ok. }
  destruct (pow_cr_value x qx n H ltac:(lra) N) as (q & Eq & ->).
  destruct (pow_in_range q n ltac:(lra) ltac:(lra) Hn) as [P B].
  destruct (Q2F_upper (q ^ n) (SF2Prim (S754_finite false (Z.to_pos (2 ^ 52)) 948))
              (mval (2 ^ 52) 948) ltac:(lra)) as (q' & F & _).
  - apply (fval_finite _ (Z.to_pos (2 ^ 52)) 948).
    rewrite Prim2SF_SF2Prim; reflexivity.
  - exact B.
  - rewrite (fval_is_finite _ _ F). apply returns_Ok.
Qed.

(** *** Intervals *)

Lemma in_range_Z (n : Z) :
  0 <= n < 2 ^ 53 -> in_range (Binary64.Z2F n) (inject_Z n) (inject_Z n).
Proof.
  intros H. exists (inject_Z n). split; [exact (Z2F_fval n H)|]. split; lra.
Qed.

Lemma in_range_weaken (x : float) (a b a' b' : Q) :
  in_range x a b -> (a' <= a)%Q -> (b <= b')%Q -> in_range x a' b'.
Proof.
  intros (q & F & L & U) Ha Hb. exists q. split; [exact F|]. split; lra.
Qed.

Lemma in_range_fle (lo x hi : float) (l1 l2 h1 h2 : Q) :
  in_range lo l1 l2 -> in_range hi h1 h2 -> fle lo x -> fle x hi ->
  in_range x l1 h2.
Proof.
  intros (ql & Fl & Ll & Ul) (qh & Fh & Lh & Uh) H1 H2.
  destruct (fle_range lo x hi ql qh Fl Fh H1 H2) as (q & F & L & U).
  exists q. split; [exact F|]. split; lra.
Qed.

Lemma in_range_le (x y : float) (a b c d : Q) :
  in_range x a b -> in_range y c d -> (b <= c)%Q -> fle x y.
Proof.
  intros (qx & Fx & Lx & Ux) (qy & Fy & Ly & Uy) H.
  apply (fval_leb x y qx qy Fx Fy). lra.
Qed.

Lemma in_range_pos_finite (x : float) (a b : Q) :
  in_range x a b -> (0 < a)%Q -> float_pos_finite x = true.
Proof.
  intros (q & F & L & U) H. apply (fval_pos_finite x q F). lra.
Qed.

Lemma in_range_mul (x y lo hi : float) (a b c d l1 l2 h1 h2 : Q) :
  in_range x a b -> in_range y c d ->
  in_range lo l1 l2 -> in_range hi h1 h2 ->
  (0 <= a)%Q -> (0 <= c)%Q -> (l2 <= a * c)%Q -> (b * d <= h1)%Q ->
  in_range (PrimFloat.mul x y) l1 h2.
Proof.
  intros (qx & Fx & Lx & Ux) (qy & Fy & Ly & Uy)
         (ql & Fl & Ll & Ul) (qh & Fh & Lh & Uh) Ha Hc H1 H2.
  destruct (fmul_between x y lo hi qx qy ql qh Fx Fy Fl Fh)
    as (q & F & L & U); [nra|nra|].
  exists q. split; [exact F|]. split; lra.
Qed.

Lemma in_range_mul_upper (x y hi : float) (a b c d h1 h2 : Q) :
  in_range x a b -> in_range y c d -> in_range hi h1 h2 ->
  (b * d <= h1)%Q ->
  in_range (PrimFloat.mul x y) 0 h2.
Proof.
  intros (qx & Fx & Lx & Ux) (qy & Fy & Ly & Uy) (qh & Fh & Lh & Uh) H.
  pose proof (fval_nonneg x qx Fx). pose proof (fval_nonneg y qy Fy).
  destruct (fmul_upper x y hi qx qy qh Fx Fy Fh) as (q & F & U); [nra|].
  pose proof (fval_nonneg _ q F).
  exists q. split; [exact F|]. split; lra.
Qed.

Lemma in_range_add (x y lo hi : float) (a b c d l1 l2 h1 h2 : Q) :
  in_range x a b -> in_range y c d ->
  in_range lo l1 l2 -> in_range hi h1 h2 ->
  (l2 <= a + c)%Q -> (b + d <= h1)%Q ->
  in_range (PrimFloat.add x y) l1 h2.
Proof.
  intros (qx & Fx & Lx & Ux) (qy & Fy & Ly & Uy)
         (ql & Fl & Ll & Ul) (qh & Fh & Lh & Uh) H1 H2.
  destruct (fadd_between x y lo hi qx qy ql qh Fx Fy Fl Fh)
    as (q & F & L & U); [lra|lra|].
  exists q. split; [exact F|]. split; lra.
Qed.

Lemma in_range_div (x y lo hi : float) (a b c d l1 l2 h1 h2 : Q) :
  in_range x a b -> in_range y c d ->
  in_range lo l1 l2 -> in_range hi h1 h2 ->
  (0 < c)%Q -> (l2 * d <= a)%Q -> (b <= h1 * c)%Q ->
  in_range (PrimFloat.div x y) l1 h2.
Proof.
  intros (qx & Fx & Lx & Ux) (qy & Fy & Ly & Uy)
         (ql & Fl & Ll & Ul) (qh & Fh & Lh & Uh) Hc H1 H2.
  pose proof (fval_nonneg lo ql Fl). pose proof (fval_nonneg x qx Fx).
  assert (P1 : (0 <= h1)%Q) by nra.
  assert (P2 : (0 <= (qh - h1) * qy)%Q) by (apply Qmult_le_0_compat; lra).
  assert (P3 : (0 <= h1 * (qy - c))%Q) by (apply Qmult_le_0_compat; lra).
  assert (P4 : (0 <= (l2 - ql) * qy)%Q) by (apply Qmult_le_0_compat; lra).
  assert (P5 : (0 <= l2 * (d - qy))%Q) by (apply Qmult_le_0_compat; lra).
  destruct (fdiv_between x y lo hi qx qy ql qh Fx Fy Fl Fh)
    as (q & F & L & U); [lra|lra|lra|].
  exists q. split; [exact F|]. split; lra.
Qed.

(** *** Subtraction of a smaller value *)

Lemma SFsub_pos_unfold (mx : positive) (ex : Z) (my : positive) (ey : Z) :
  (mval (Z.pos my) ey < mval (Z.pos mx) ex)%Q ->
  exists mz : positive,
    SFsub prec emax (S754_finite false mx ex) (S754_finite false my ey)
    = binary_round prec emax false mz (Z.min ex ey)
    /\ (mval (Z.pos mz) (Z.min ex ey)
        == mval (Z.pos mx) ex - mval (Z.pos my) ey)%Q.
Proof.
  intros Hlt. cbn [SFsub cond_Zopp].
  destruct (shl_align_spec mx ex (Z.min ex ey)) as (E1 & M1 & _).
  destruct (shl_align_spec my ey (Z.min ex ey)) as (E2 & M2 & _).
  pose proof (mval_shl_align mx ex (Z.min ex ey)) as V1.
  pose proof (mval_shl_align my ey (Z.min ex ey)) as V2.
  set (a := shl_align mx ex (Z.min ex ey)) in *.
  set (b := shl_align my ey (Z.min ex ey)) in *.
  replace (snd a) with (Z.min ex ey) in V1 by lia.
  replace (snd b) with (Z.min ex ey) in V2 by lia.
  rewrite <- V1, <- V2 in Hlt. apply mval_lt_inv in Hlt.
  destruct (Z.pos (fst a) - Z.pos (fst b)) as [|mz|mz] eqn:D; try lia.
  exists mz. cbn [binary_normalize]. split; [reflexivity|].
  rewrite <- V1, <- V2, <- D. unfold mval.
  unfold Z.sub. rewrite inject_Z_plus, inject_Z_opp. ring.
Qed.

Lemma fsub_between (x y lo hi : float) (qx qy ql qh : Q) :
  fval x qx -> fval y qy -> fval lo ql -> fval hi qh ->
  (0 < ql)%Q -> (ql <= qx - qy)%Q -> (qx - qy <= qh)%Q ->
  exists q, fval (PrimFloat.sub x y) q /\ (ql <= q <= qh)%Q.
Proof.
  intros Hx Hy Hl Hh Pl L U.
  pose proof (fval_nonneg y qy Hy) as Ny.
  pose proof (sub_spec x y) as S. unfold SF64sub in S.
  destruct (fval_cases x qx Hx) as [(sx & Ex & Qx)|(mx & ex & Ex & Bx & Qx & Px)];
    [lra|].
  destruct (fval_cases lo ql Hl) as [(sl & El & Ql)|(ml & el & El & Bl & Ql & _)];
    [lra|].
  destruct (fval_cases hi qh Hh) as [(sh & Eh & Qh)|(mh & eh & Eh & Bh & Qh & _)];
    [lra|].
  destruct (fval_cases y qy Hy) as [(sy & Ey & Qy)|(my & ey & Ey & By & Qy & Py)];
    rewrite Ex, Ey in S.
  - cbn [SFsub] in S. exists qx. split; [|lra].
    unfold fval. rewrite S. exact Qx.
  - destruct (SFsub_pos_unfold mx ex my ey ltac:(rewrite <- Qx, <- Qy; lra))
      as (mz & R & V).
    rewrite R in S.
    destruct (binary_round_upper mz (Z.min ex ey) mh eh Bh
                ltac:(rewrite V, <- Qx, <- Qy, <- Qh; exact U))
      as [Z|(mf & ef & F & Le)]; rewrite <- S in *.
    + exfalso.
      destruct (binary_round_lower mz (Z.min ex ey) ml el Bl
                  ltac:(rewrite V, <- Qx, <- Qy, <- Ql; exact L))
        as [I|(mf & ef & F & _)]; rewrite <- S in *; congruence.
    + destruct (binary_round_lower mz (Z.min ex ey) ml el Bl
                  ltac:(rewrite V, <- Qx, <- Qy, <- Ql; exact L))
        as [I|(mf' & ef' & F' & Ge)]; rewrite <- S in *; [congruence|].
      rewrite F in F'. injection F' as <- <-.
      exists (mval (Z.pos mf) ef). split; [exact (fval_finite _ _ _ F)|].
      rewrite Ql, Qh. split; assumption.
Qed.

Lemma in_range_sub (x y lo hi : float) (a b c d l1 l2 h1 h2 : Q) :
  in_range x a b -> in_range y c d ->
  in_range lo l1 l2 -> in_range hi h1 h2 ->
  (0 < l1)%Q -> (l2 <= a - d)%Q -> (b - c <= h1)%Q ->
  in_range (PrimFloat.sub x y) l1 h2.
Proof.
  intros (qx & Fx & Lx & Ux) (qy & Fy & Ly & Uy)
         (ql & Fl & Ll & Ul) (qh & Fh & Lh & Uh) Hl H1 H2.
  destruct (fsub_between x y lo hi qx qy ql qh Fx Fy Fl Fh)
    as (q & F & L & U); [lra|lra|lra|].
  exists q. split; [exact F|]. split; lra.
Qed.

(** *** Rounding to two decimals *)

Lemma b64_round_cent (x L H : float) (a b l1 l2 h1 h2 : Q) (lo hi : Z) :
  in_range x a b -> in_range L l1 l2 -> in_range H h1 h2 ->
  1 <= lo ->
  (inject_Z lo - (1 # 2) < a * 100)%Q -> (b * 100 < inject_Z hi + (1 # 2))%Q ->
  (l2 * 100 <= inject_Z lo)%Q -> (inject_Z hi <= h1 * 100)%Q ->
  in_range (Binary64.round_ndigits x 2) l1 h2.
Proof.
  intros (q & Fx & Lx & Ux) (ql & Fl & Ll & Ul) (qh & Fh & Lh & Uh)
         Hlo H1 H2 H3 H4.
  destruct (F2Q_fval x q Fx) as (q' & E & Eq').
  unfold Binary64.round_ndigits. rewrite E. rewrite round_ndigits_2.
  pose proof (round_half_even_bounds (q' * 100)) as [B1 B2].
  set (z := Exact.round_half_even (q' * 100)) in *.
  rewrite Eq' in B1, B2.
  assert (Lz : lo <= z).
  { assert (K : (inject_Z (lo - 1) < inject_Z z)%Q).
    { unfold Z.sub. rewrite inject_Z_plus, inject_Z_opp.
      change (inject_Z 1) with 1%Q. lra. }
    rewrite <- Zlt_Qlt in K. lia. }
  assert (Uz : z <= hi).
  { assert (K : (inject_Z z < inject_Z (hi + 1))%Q).
    { rewrite inject_Z_plus. change (inject_Z 1) with 1%Q. lra. }
    rewrite <- Zlt_Qlt in K. lia. }
  assert (Pz : (1 <= inject_Z z)%Q).
  { change 1%Q with (inject_Z 1). rewrite <- Zle_Qle. lia. }
  assert (N : Qeq_bool (inject_Z z * (1 # 100)) 0 = false).
  { apply Qeq_bool_false. intros C. lra. }
  rewrite N. cbn [andb].
  rewrite Zle_Qle in Lz, Uz.
  destruct (Q2F_between (inject_Z z * (1 # 100)) L H ql qh Fl Fh)
    as (r & Fr & Lr & Ur); [lra|lra|].
  exists r. split; [exact Fr|]. split; lra.
Qed.

End Binary64Rounding.

Ltac lit_range :=
  eexists; split;
  [apply fval_finite; vm_compute; reflexivity
  |split; vm_compute; discriminate].

(** ** The documented domain in binary64 *)

Section Binary64Domain.
Local Open Scope Q_scope.

(** *** The literals *)

Lemma lit_0_07 : in_range (Binary64.Q2F 0.07) 0.0699999 0.0700001.
Proof. lit_range. Qed.

Lemma lit_0_075 : in_range (Binary64.Q2F 0.075) 0.0749999 0.0750001.
Proof. lit_range. Qed.

Lemma lit_0_14 : in_range (Binary64.Q2F 0.14) 0.1399999 0.1400001.
Proof. lit_range. Qed.

Lemma lit_0_15 : in_range (Binary64.Q2F 0.15) 0.1499999 0.1500001.
Proof. lit_range. Qed.

Lemma lit_0_16 : in_range (Binary64.Q2F 0.16) 0.1599999 0.1600001.
Proof. lit_range. Qed.

Lemma lit_0_0058 : in_range (Binary64.Q2F 0.0058) 0.00579 0.00581.
Proof. lit_range. Qed.

Lemma lit_1_005 : in_range (Binary64.Q2F 1.005) 1.0049 1.0051.
Proof. lit_range. Qed.

Lemma lit_0_9955 : in_range (Binary64.Q2F 0.9955) 0.9954 0.9956.
Proof. lit_range. Qed.

Lemma lit_0_004 : in_range (Binary64.Q2F 0.004) 0.0039 0.0041.
Proof. lit_range. Qed.

Lemma lit_0_9 : in_range (Binary64.Q2F 0.9) 0.8999 0.9001.
Proof. lit_range. Qed.

Lemma lit_0_98 : in_range (Binary64.Q2F 0.98) 0.9799 0.9801.
Proof. lit_range. Qed.

Lemma lit_0_95 : in_range (Binary64.Q2F 0.95) 0.9499 0.9501.
Proof. lit_range. Qed.

Lemma lit_1 : in_range (Binary64.Q2F 1) 1 1.
Proof. lit_range. Qed.

Lemma lit_7_499 : in_range (Binary64.Q2F 7.499) 7.4989 7.4991.
Proof. lit_range. Qed.

Lemma lit_16_001 : in_range (Binary64.Q2F 16.001) 16.0009 16.0011.
Proof. lit_range. Qed.

Lemma lit_6_999 : in_range (Binary64.Q2F 6.999) 6.9989 6.9991.
Proof. lit_range. Qed.

Lemma lit_14_001 : in_range (Binary64.Q2F 14.001) 14.0009 14.0011.
Proof. lit_range. Qed.

Lemma lit_7_5 : in_range (Binary64.Q2F 7.5) 7.5 7.5.
Proof. lit_range. Qed.

Lemma lit_16 : in_range (Binary64.Q2F 16) 16 16.
Proof. lit_range. Qed.

Lemma lit_7 : in_range (Binary64.Q2F 7) 7 7.
Proof. lit_range. Qed.

Lemma lit_14 : in_range (Binary64.Q2F 14) 14 14.
Proof. lit_range. Qed.

Lemma in_range_int (n : Z) (a b : Q) :
  (0 <= n < 2 ^ 53)%Z -> a <= inject_Z n -> inject_Z n <= b ->
  in_range (Binary64.Z2F n) a b.
Proof.
  intros H L U. apply (in_range_weaken _ _ _ _ _ (in_range_Z n H)); assumption.
Qed.

Ltac int_range := apply in_range_int; [lia|vm_compute; discriminate..].

(** *** Rates, bases and powers of the lenders *)

Lemma b64_bank1_rate_bounds
    (pw : float -> Z -> res float) (score : Z) (base : float) :
  fle (Binary64.Q2F 0.075)
      (bank1_interest_rate (PF := Binary64.binary64 pw) score base)
  /\ fle (bank1_interest_rate (PF := Binary64.binary64 pw) score base)
         (Binary64.Q2F 0.16).
Proof.
  unfold fle, bank1_interest_rate.
  apply (py_min_max_bounds (PF := Binary64.binary64 pw));
    try exact float_lt_le; vm_compute; reflexivity.
Qed.

Lemma b64_bank2_rate_bounds
    (pw : float -> Z -> res float) (score : Z) (base : float) :
  fle (Binary64.Q2F 0.07)
      (bank2_interest_rate (PF := Binary64.binary64 pw) score base)
  /\ fle (bank2_interest_rate (PF := Binary64.binary64 pw) score base)
         (Binary64.Q2F 0.14).
Proof.
  unfold fle, bank2_interest_rate.
  apply (py_min_max_bounds (PF := Binary64.binary64 pw));
    try exact float_lt_le; vm_compute; reflexivity.
Qed.

Lemma b64_bank1_rate_range
    (pw : float -> Z -> res float) (score : Z) (base : float) :
  in_range (bank1_interest_rate (PF := Binary64.binary64 pw) score base)
           0.0749999 0.1600001.
Proof.
  destruct (b64_bank1_rate_bounds pw score base) as [L U].
  exact (in_range_fle _ _ _ _ _ _ _ lit_0_075 lit_0_16 L U).
Qed.

Lemma b64_bank2_rate_range
    (pw : float -> Z -> res float) (score : Z) (base : float) :
  in_range (bank2_interest_rate (PF := Binary64.binary64 pw) score base)
           0.0699999 0.1400001.
Proof.
  destruct (b64_bank2_rate_bounds pw score base) as [L U].
  exact (in_range_fle _ _ _ _ _ _ _ lit_0_07 lit_0_14 L U).
Qed.

(** The monthly rate and the base [1 + r / 12] of an annual rate between
    7% and 16%. *)
Lemma b64_monthly_rate_range (r : float) :
  in_range r 0.0699 0.1601 ->
  in_range (PrimFloat.div r (Binary64.Z2F 12)) 0.00579 1.
Proof.
  intros H.
  apply (in_range_div r (Binary64.Z2F 12) (Binary64.Q2F 0.0058) (Binary64.Z2F 1)
           0.0699 0.1601 12 12 0.00579 0.00581 1 1 H);
    [int_range|exact lit_0_0058|int_range|lra..].
Qed.

Lemma b64_monthly_base_range (r : float) :
  in_range r 0.0699 0.1601 -> in_range (monthly_base r) 1.0049 2.
Proof.
  intros H. unfold monthly_base.
  apply (in_range_add (Binary64.Z2F 1) _ (Binary64.Q2F 1.005) (Binary64.Z2F 2)
           1 1 0.00579 1 1.0049 1.0051 2 2);
    [int_range|exact (b64_monthly_rate_range r H)|exact lit_1_005|int_range
    |lra..].
Qed.

Lemma b64_lender_pow_returns (r : float) (n : Z) :
  in_range r 0.0699 0.1601 -> (-1000 <= n <= 1000)%Z ->
  returns (Binary64.pow_cr (monthly_base r) n).
Proof.
  intros H Hn. destruct (b64_monthly_base_range r H) as (q & Fq & L & U).
  apply (pow_cr_returns _ q n Fq); [lra|lra|exact Hn].
Qed.

Lemma b64_lender_powers_return (score years : Z) (base : float) :
  (0 <= years <= 30)%Z -> lender_powers_return (PF := b64) score years base.
Proof.
  intros Hy.
  pose proof (in_range_weaken _ _ _ 0.0699 0.1601
                (b64_bank1_rate_range Binary64.pow_cr score base)
                ltac:(lra) ltac:(lra)) as R1.
  pose proof (in_range_weaken _ _ _ 0.0699 0.1601
                (b64_bank2_rate_range Binary64.pow_cr score base)
                ltac:(lra) ltac:(lra)) as R2.
  split; [|split].
  - apply (b64_lender_pow_returns _ _ R1). lia.
  - apply (b64_lender_pow_returns _ _ R1). lia.
  - apply (b64_lender_pow_returns _ _ R2). lia.
Qed.

(** *** Amounts *)

Lemma b64_draw1_range (u : float) :
  fle (Binary64.Q2F 0.90) u -> fle u (Binary64.Q2F 0.98) ->
  in_range u 0.8999 0.9801.
Proof. intros L U. exact (in_range_fle _ _ _ _ _ _ _ lit_0_9 lit_0_98 L U). Qed.

Lemma b64_draw2_range (u : float) :
  fle (Binary64.Q2F 0.95) u -> fle u (Binary64.Q2F 1) ->
  in_range u 0.9499 1.
Proof. intros L U. exact (in_range_fle _ _ _ _ _ _ _ lit_0_95 lit_1 L U). Qed.

(** A share of at least 80% of 1,000,000, rounded to thousands, is
    above 10,000. *)
Lemma b64_amount_million (u : float) :
  in_range u 0.8 1 ->
  flt (Binary64.Z2F 10000)
      (Binary64.round_ndigits (PrimFloat.mul (Binary64.Z2F 1000000) u) (-3)).
Proof.
  intros H.
  destruct (in_range_mul (Binary64.Z2F 1000000) u
              (Binary64.Z2F 800000) (Binary64.Z2F 1000000)
              1000000 1000000 0.8 1 800000 800000 1000000 1000000)
    as (q & Fq & L & U);
    [int_range|exact H|int_range|int_range|lra..|].
  destruct (b64_round_thousand _ q 800 1000 Fq) as (z & Hz & Fz);
    [lia|lia|change (inject_Z 800) with 800; lra
    |change (inject_Z 1000) with 1000; lra|].
  apply (fval_ltb _ _ 10000 (inject_Z (z * 1000))
           (Z2F_fval 10000 ltac:(lia)) Fz).
  change 10000 with (inject_Z 10000). rewrite <- Zlt_Qlt. lia.
Qed.

(** A share of a maximum of at most 500 rounds to zero thousands. *)
Lemma b64_amount_small (max u : float) :
  in_range max 0 500 -> in_range u 0 1 ->
  PrimFloat.ltb (Binary64.Z2F 10000)
    (Binary64.round_ndigits (PrimFloat.mul max u) (-3)) = false.
Proof.
  intros Hm Hu.
  destruct (in_range_mul_upper max u (Binary64.Z2F 500) 0 500 0 1 500 500 Hm Hu)
    as (q & Fq & L & U); [int_range|lra|].
  pose proof (b64_round_thousand_zero _ q Fq U) as Fz.
  apply (fval_ltb_false _ _ 10000 0 (Z2F_fval 10000 ltac:(lia)) Fz). lra.
Qed.

(** *** Rates in percent *)

Lemma b64_bank1_percent_range
    (pw : float -> Z -> res float) (score : Z) (base : float) :
  in_range
    (Binary64.round_ndigits
       (PrimFloat.mul (bank1_interest_rate (PF := Binary64.binary64 pw)
                         score base) (Binary64.Z2F 100)) 2)
    7.5 16.
Proof.
  apply (b64_round_cent _ (Binary64.Q2F 7.5) (Binary64.Q2F 16)
           7.4989 16.0011 7.5 7.5 16 16 750 1600);
    [|exact lit_7_5|exact lit_16|lia
    |vm_compute; first [reflexivity|discriminate]..].
  apply (in_range_mul _ (Binary64.Z2F 100)
           (Binary64.Q2F 7.499) (Binary64.Q2F 16.001)
           0.0749999 0.1600001 100 100 7.4989 7.4991 16.0009 16.0011);
    [exact (b64_bank1_rate_range pw score base)|int_range
    |exact lit_7_499|exact lit_16_001|lra..].
Qed.

Lemma b64_bank2_percent_range
    (pw : float -> Z -> res float) (score : Z) (base : float) :
  in_range
    (Binary64.round_ndigits
       (PrimFloat.mul (bank2_interest_rate (PF := Binary64.binary64 pw)
                         score base) (Binary64.Z2F 100)) 2)
    7 14.
Proof.
  apply (b64_round_cent _ (Binary64.Q2F 7) (Binary64.Q2F 14)
           6.9989 14.0011 7 7 14 14 700 1400);
    [|exact lit_7|exact lit_14|lia
    |vm_compute; first [reflexivity|discriminate]..].
  apply (in_range_mul _ (Binary64.Z2F 100)
           (Binary64.Q2F 6.999) (Binary64.Q2F 14.001)
           0.0699999 0.1400001 100 100 6.9989 6.9991 14.0009 14.0011);
    [exact (b64_bank2_rate_range pw score base)|int_range
    |exact lit_6_999|exact lit_14_001|lra..].
Qed.

(** *** The offer lists *)

Section B64Offers.
Variable pw : float -> Z -> res float.
Variables (emi : float) (score years : Z) (base u1 u2 : float).
Hypothesis powers :
  lender_powers_return (PF := Binary64.binary64 pw) score years base.
Hypothesis draw1 : fle (Binary64.Q2F 0.90) u1 /\ fle u1 (Binary64.Q2F 0.98).
Hypothesis draw2 : fle (Binary64.Q2F 0.95) u2 /\ fle u2 (Binary64.Q2F 1).

Lemma b64_draws_unit : in_range u1 0.8 1 /\ in_range u2 0.8 1.
Proof.
  destruct draw1 as [L1 U1], draw2 as [L2 U2]. split.
  - apply (in_range_weaken _ _ _ _ _ (b64_draw1_range u1 L1 U1)); lra.
  - apply (in_range_weaken _ _ _ _ _ (b64_draw2_range u2 L2 U2)); lra.
Qed.

Lemma b64_offers_small (max : float) :
  in_range max 0 500 ->
  exists e1 e2,
    get_mock_bank_loan_options (PF := Binary64.binary64 pw)
      max emi score years base u1 u2
    = Ok (assemble_options (PF := Binary64.binary64 pw)
            max emi score years base
            (Binary64.round_ndigits (PrimFloat.mul max u1) (-3)) e1
            (Binary64.round_ndigits (PrimFloat.mul max u2) (-3)) e2)
    /\ PrimFloat.ltb (Binary64.Z2F 10000)
         (Binary64.round_ndigits (PrimFloat.mul max u1) (-3)) = false
    /\ PrimFloat.ltb (Binary64.Z2F 10000)
         (Binary64.round_ndigits (PrimFloat.mul max u2) (-3)) = false.
Proof.
  intros Hm. destruct powers as (P1 & P2 & P3).
  destruct b64_draws_unit as [D1 D2].
  destruct (get_mock_returns_pow (PF := Binary64.binary64 pw)
              max emi score years base u1 u2 P1 P2 P3) as (e1 & e2 & E).
  exists e1, e2. split; [exact E|]. split.
  - apply b64_amount_small; [exact Hm|].
    apply (in_range_weaken _ _ _ _ _ D1); lra.
  - apply b64_amount_small; [exact Hm|].
    apply (in_range_weaken _ _ _ _ _ D2); lra.
Qed.

(** maxLoanAmount = 0: no offer. *)
Lemma b64_offers_zero :
  get_mock_bank_loan_options (PF := Binary64.binary64 pw)
    (Binary64.Z2F 0) emi score years base u1 u2 = Ok [].
Proof.
  destruct (b64_offers_small (Binary64.Z2F 0)) as (e1 & e2 & E & A1 & A2).
  { int_range. }
  rewrite E. f_equal.
  apply (assemble_options_none (PF := Binary64.binary64 pw));
    [exact A1|exact A2|vm_compute; reflexivity].
Qed.

(** maxLoanAmount = 500: the generic offer alone. *)
Lemma b64_offers_500 :
  get_mock_bank_loan_options (PF := Binary64.binary64 pw)
    (Binary64.Z2F 500) emi score years base u1 u2
  = Ok [generic_offer (PF := Binary64.binary64 pw)
          (Binary64.Z2F 500) emi years base].
Proof.
  destruct (b64_offers_small (Binary64.Z2F 500)) as (e1 & e2 & E & A1 & A2).
  { int_range. }
  rewrite E. f_equal.
  apply (assemble_options_fallback (PF := Binary64.binary64 pw));
    [exact A1|exact A2|vm_compute; reflexivity].
Qed.

(** maxLoanAmount = 1,000,000: the two named lenders' offers. *)
Lemma b64_offers_million :
  exists l : list (offer float),
    get_mock_bank_loan_options (PF := Binary64.binary64 pw)
      (Binary64.Z2F 1000000) emi score years base u1 u2 = Ok l
    /\ map bank_name l
       = ["Inclusive Housing Finance Ltd."; "Progressive National Bank"]%string
    /\ Forall (fun o => flt (Binary64.Z2F 10000) (offered_loan_amount o)
                        /\ b64_rate_in_lender_range o) l.
Proof.
  destruct powers as (P1 & P2 & P3).
  destruct b64_draws_unit as [D1 D2].
  destruct (get_mock_returns_pow (PF := Binary64.binary64 pw)
              (Binary64.Z2F 1000000) emi score years base u1 u2 P1 P2 P3)
    as (e1 & e2 & E).
  pose proof (b64_amount_million u1 D1) as A1.
  pose proof (b64_amount_million u2 D2) as A2.
  rewrite (assemble_options_both (PF := Binary64.binary64 pw)) in E
    by (b64_ops; assumption).
  eexists. split; [exact E|]. split; [reflexivity|].
  apply Forall_cons; [|apply Forall_cons; [|apply Forall_nil]].
  - split; [exact A1|]. left. split; [reflexivity|].
    cbn [interest_rate_pa bank1_offer]. b64_ops.
    pose proof (b64_bank1_percent_range pw score base) as R. split.
    + apply (in_range_le _ _ _ _ _ _ lit_7_5 R). lra.
    + apply (in_range_le _ _ _ _ _ _ R lit_16). lra.
  - split; [exact A2|]. right. split; [reflexivity|].
    cbn [interest_rate_pa bank2_offer]. b64_ops.
    pose proof (b64_bank2_percent_range pw score base) as R. split.
    + apply (in_range_le _ _ _ _ _ _ lit_7 R). lra.
    + apply (in_range_le _ _ _ _ _ _ R lit_14). lra.
Qed.

End B64Offers.

(** *** The engine on the documented rates and tenures *)

Lemma documented_rate_range (rate : float) :
  documented_rate rate -> in_range rate 0.0699 0.1601.
Proof.
  intros [L U].
  apply (in_range_weaken _ _ _ _ _
           (in_range_fle _ _ _ _ _ _ _ lit_0_07 lit_0_15 L U)); lra.
Qed.

(** Neither power of the engine raises on the documented domain. *)
Lemma b64_engine_powers_return (rate : float) (years : Z) :
  documented_rate rate -> (0 <= years <= 30)%Z ->
  returns (Binary64.pow_cr (monthly_base rate) (- (years * 12)))
  /\ returns (Binary64.pow_cr (monthly_base rate) (years * 12)).
Proof.
  intros H Hy. apply documented_rate_range in H.
  split; apply (b64_lender_pow_returns _ _ H); lia.
Qed.

(** The discount factor [(1 + r/12) ** -n] stays below 1. *)
Lemma b64_discount_factor (rate : float) (years : Z) :
  in_range rate 0.0699 0.1601 -> (1 <= years <= 30)%Z ->
  exists p, Binary64.pow_cr (monthly_base rate) (- (years * 12)) = Ok p
            /\ in_range p 0 0.9956.
Proof.
  intros H Hy. destruct (b64_monthly_base_range rate H) as (qx & Fx & L & U).
  destruct (pow_cr_value _ qx (- (years * 12)) Fx ltac:(lra) ltac:(lia))
    as (q & Eq & ->).
  assert (P : 0 < q ^ (- (years * 12))) by (apply Qpower_0_lt; lra).
  assert (B : q ^ (- (years * 12)) <= 0.9954).
  { apply Qle_trans with (q ^ (-1)).
    - apply Qpower_le_compat_l; [lia|lra].
    - change (q ^ (-1)) with (/ q). apply Qle_shift_inv_r; lra. }
  destruct lit_0_9955 as (qh & Fh & Lh & Uh).
  destruct (Q2F_upper (q ^ (- (years * 12))) _ qh ltac:(lra) Fh ltac:(lra))
    as (q' & F' & U').
  rewrite (fval_is_finite _ _ F'). eexists. split; [reflexivity|].
  exists q'. split; [exact F'|]. split; [exact (fval_nonneg _ _ F')|lra].
Qed.

(** monthlyIncome <= 0 on the documented domain: (0, 0). *)
Lemma b64_engine_nonpositive_income (income rate : float) (years : Z) :
  fle income (Binary64.Z2F 0) -> documented_rate rate ->
  (1 <= years <= 30)%Z ->
  calculate_max_loan_and_emi (PF := b64) income rate years
  = Ok (Binary64.Z2F 0, Binary64.Z2F 0).
Proof.
  intros Hi R Hy. apply documented_rate_range in R.
  destruct (b64_discount_factor rate years R Hy) as (p & Ep & Rp).
  apply (b64_calculate_nonpositive_income Binary64.pow_cr income rate years p Hi).
  - apply (in_range_pos_finite _ _ _ (b64_monthly_rate_range rate R)). lra.
  - exact Ep.
  - apply (in_range_pos_finite _ 0.0039 1); [|lra].
    apply (in_range_sub (Binary64.Z2F 1) p (Binary64.Q2F 0.004) (Binary64.Z2F 1)
             1 1 0 0.9956 0.0039 0.0041 1 1);
      [int_range|exact Rp|exact lit_0_004|int_range|lra..].
Qed.

(** *** Overflows that do not end in (0, 0) *)

(** With an income of 1e308 the present value exceeds the range of
    binary64: the product becomes infinite without an exception, and the
    engine returns (inf, inf). *)
Lemma b64_silent_overflow :
  max_loan_amount_for (PF := b64)
    (PrimFloat.mul huge_income (Binary64.Q2F 0.45))
    (PrimFloat.div (Binary64.Q2F 0.09) (Binary64.Z2F 12)) (5 * 12)
  = Ok PrimFloat.infinity
  /\ calculate_max_loan_and_emi (PF := b64) huge_income (Binary64.Q2F 0.09) 5
     = Ok (PrimFloat.infinity, PrimFloat.infinity).
Proof. split; vm_compute; reflexivity. Qed.

(** At a rate of 1200% over 86 years the power of the installment
    recomputation raises [OverflowError]: the engine returns the income
    as the installment. *)
Lemma b64_installment_overflow :
  Binary64.pow_cr (monthly_base (Binary64.Z2F 12)) (86 * 12)
  = Raise OverflowError
  /\ calculate_max_loan_and_emi (PF := b64)
       (Binary64.Z2F 25000) (Binary64.Z2F 12) 86
     = Ok (Binary64.Z2F 11250, Binary64.Z2F 25000).
Proof. split; vm_compute; reflexivity. Qed.

Lemma b64_domain_facts :
  documented_rate (Binary64.Q2F 0.09) /\ In 5%Z LOAN_TENURES_YEARS
  /\ flt (Binary64.Z2F 0) huge_income
  /\ Binary64.is_finite huge_income = true.
Proof.
  split; [split; vm_compute; reflexivity|].
  split; [left; reflexivity|]. split; vm_compute; reflexivity.
Qed.

(** *** The simulated features and the offer generator *)

Lemma b64_simulate_unit (pw : float -> Z -> res float) (job_type : string) :
  Forall unit_float
    (map snd (simulate_alt_data_features (PF := Binary64.binary64 pw) job_type)).
Proof.
  unfold simulate_alt_data_features.
  repeat (destruct (String.eqb job_type _); [vm_compute; repeat constructor|]).
  vm_compute. repeat constructor.
Qed.

Lemma b64_get_mock_returns
    (max emi : float) (score years : Z) (base u1 u2 : float) :
  (0 <= years <= 30)%Z ->
  exists l, get_mock_bank_loan_options (PF := b64)
              max emi score years base u1 u2 = Ok l.
Proof.
  intros Hy.
  destruct (b64_lender_powers_return score years base Hy) as (P1 & P2 & P3).
  destruct (get_mock_returns_pow (PF := b64) max emi score years base u1 u2
              P1 P2 P3) as (e1 & e2 & E).
  eexists. exact E.
Qed.

(** *** The quote of a documented income *)

Lemma lit_0_45 : in_range (Binary64.Q2F 0.45) 0.4499 0.4501.
Proof. lit_range. Qed.

Lemma lit_0_0134 : in_range (Binary64.Q2F 0.0134) 0.01339 0.01341.
Proof. lit_range. Qed.

Lemma lit_1_0135 : in_range (Binary64.Q2F 1.0135) 1.01349 1.01351.
Proof. lit_range. Qed.

Lemma lit_1_004 : in_range (Binary64.Q2F 1.004) 1.0039 1.0041.
Proof. lit_range. Qed.

Lemma lit_0_003 : in_range (Binary64.Q2F 0.003) 0.0029 0.0031.
Proof. lit_range. Qed.

Lemma in_range_not_le_zero (x : float) (a b : Q) :
  in_range x a b -> 0 < a -> PrimFloat.leb x (Binary64.Z2F 0) = false.
Proof.
  intros (q & F & L & U) H.
  destruct (PrimFloat.leb x (Binary64.Z2F 0)) eqn:E; [|reflexivity].
  apply (fval_leb x _ q 0 F (Z2F_fval 0 ltac:(lia))) in E. lra.
Qed.

Lemma b64_monthly_rate_tight (r : float) :
  in_range r 0.0699 0.1601 ->
  in_range (PrimFloat.div r (Binary64.Z2F 12)) 0.00579 0.01341.
Proof.
  intros H.
  apply (in_range_div r (Binary64.Z2F 12)
           (Binary64.Q2F 0.0058) (Binary64.Q2F 0.0134)
           0.0699 0.1601 12 12 0.00579 0.00581 0.01339 0.01341 H);
    [int_range|exact lit_0_0058|exact lit_0_0134|lra..].
Qed.

Lemma b64_monthly_base_tight (r : float) :
  in_range r 0.0699 0.1601 -> in_range (monthly_base r) 1.0049 1.01351.
Proof.
  intros H. unfold monthly_base.
  apply (in_range_add (Binary64.Z2F 1) _
           (Binary64.Q2F 1.005) (Binary64.Q2F 1.0135)
           1 1 0.00579 0.01341 1.0049 1.0051 1.01349 1.01351);
    [int_range|exact (b64_monthly_rate_tight r H)|exact lit_1_005
    |exact lit_1_0135|lra..].
Qed.

Lemma growth_bound : 1.01351 ^ 360 <= 256.
Proof. vm_compute. discriminate. Qed.

(** The growth factor [(1 + r/12) ** n] lies between 1 and 256. *)
Lemma b64_growth_factor (rate : float) (years : Z) :
  in_range rate 0.0699 0.1601 -> (1 <= years <= 30)%Z ->
  exists p, Binary64.pow_cr (monthly_base rate) (years * 12) = Ok p
            /\ in_range p 1.0039 256.
Proof.
  intros H Hy. destruct (b64_monthly_base_tight rate H) as (qx & Fx & L & U).
  destruct (pow_cr_value _ qx (years * 12) Fx ltac:(lra) ltac:(lia))
    as (q & Eq & ->).
  assert (B1 : q <= q ^ (years * 12)).
  { change q with (q ^ 1) at 1. apply Qpower_le_compat_l; [lia|lra]. }
  assert (B2 : q ^ (years * 12) <= 256).
  { apply Qle_trans with (q ^ 360).
    - apply Qpower_le_compat_l; [lia|lra].
    - apply Qle_trans with (1.01351 ^ 360); [|exact growth_bound].
      apply (Qpower_base_le q 1.01351 360); lra. }
  destruct lit_1_004 as (ql & Fl & Ll & Ul).
  destruct (Q2F_between (q ^ (years * 12)) _ (Binary64.Z2F 256) ql 256 Fl
              (Z2F_fval 256 ltac:(lia)))
    as (q' & F' & L' & U'); [lra|lra|].
  rewrite (fval_is_finite _ _ F'). eexists. split; [reflexivity|].
  exists q'. split; [exact F'|]. split; lra.
Qed.

(** [round(x, 2)] of a float of value at most [b] is a float of value at
    most [b + 0.01]. *)
Lemma b64_round_cent_upper (x H : float) (a b h1 h2 : Q) :
  in_range x a b -> in_range H h1 h2 -> b + 0.01 <= h1 ->
  in_range (Binary64.round_ndigits x 2) 0 h2.
Proof.
  intros (q & Fx & Lx & Ux) (qh & Fh & Lh & Uh) Hb.
  pose proof (fval_nonneg x q Fx) as Pq.
  destruct (F2Q_fval x q Fx) as (q' & E & Eq').
  unfold Binary64.round_ndigits. rewrite E. rewrite round_ndigits_2.
  pose proof (round_half_even_bounds (q' * 100)) as [_ B2].
  assert (B1 : (0 <= Exact.round_half_even (q' * 100))%Z)
    by (apply round_half_even_ge; rewrite Eq'; change (inject_Z 0) with 0; lra).
  set (z := Exact.round_half_even (q' * 100)) in *.
  rewrite Eq' in B2. rewrite Zle_Qle in B1. change (inject_Z 0) with 0 in B1.
  destruct (Qeq_bool (inject_Z z * (1 # 100)) 0 && Binary64.sign_bit x).
  - exists 0. split; [vm_compute; reflexivity|]. split; lra.
  - destruct (Q2F_upper (inject_Z z * (1 # 100)) H qh ltac:(lra) Fh ltac:(lra))
      as (r & Fr & Ur).
    exists r. split; [exact Fr|]. split; [exact (fval_nonneg _ _ Fr)|lra].
Qed.

Lemma b64_loan_quote (income rate : float) (years : Z) :
  fle (Binary64.Z2F 5000) income -> fle income (Binary64.Z2F 500000) ->
  documented_rate rate -> (1 <= years <= 30)%Z ->
  exists L I : float,
    calculate_max_loan_and_emi (PF := b64) income rate years = Ok (L, I)
    /\ in_range L 7 50000000 /\ in_range I 0 200000000000.
Proof.
  intros Li Ui R Hy. apply documented_rate_range in R.
  assert (Ri : in_range income 5000 500000).
  { apply (in_range_fle (Binary64.Z2F 5000) income (Binary64.Z2F 500000)
             5000 5000 500000 500000); [int_range|int_range|exact Li|exact Ui]. }
  pose proof (b64_monthly_rate_tight rate R) as Rr.
  destruct (b64_discount_factor rate years R Hy) as (p & Ep & Rp).
  destruct (b64_growth_factor rate years R Hy) as (g & Eg & Rg).
  set (r := PrimFloat.div rate (Binary64.Z2F 12)) in *.
  assert (Re : in_range (PrimFloat.mul income (Binary64.Q2F 0.45)) 2000 250000).
  { apply (in_range_mul income _ (Binary64.Z2F 2000) (Binary64.Z2F 250000)
             5000 500000 0.4499 0.4501 2000 2000 250000 250000);
      [exact Ri|exact lit_0_45|int_range|int_range|lra..]. }
  set (e := PrimFloat.mul income (Binary64.Q2F 0.45)) in *.
  assert (R1 : in_range (PrimFloat.sub (Binary64.Z2F 1) p) 0.0039 1).
  { apply (in_range_sub (Binary64.Z2F 1) p (Binary64.Q2F 0.004) (Binary64.Z2F 1)
             1 1 0 0.9956 0.0039 0.0041 1 1);
      [int_range|exact Rp|exact lit_0_004|int_range|lra..]. }
  assert (Rt : in_range (PrimFloat.mul e (PrimFloat.sub (Binary64.Z2F 1) p))
                 7 250000).
  { apply (in_range_mul e _ (Binary64.Z2F 7) (Binary64.Z2F 250000)
             2000 250000 0.0039 1 7 7 250000 250000);
      [exact Re|exact R1|int_range|int_range|lra..]. }
  assert (RP : in_range
                 (PrimFloat.div
                    (PrimFloat.mul e (PrimFloat.sub (Binary64.Z2F 1) p)) r)
                 7 50000000).
  { apply (in_range_div _ r (Binary64.Z2F 7) (Binary64.Z2F 50000000)
             7 250000 0.00579 0.01341 7 7 50000000 50000000);
      [exact Rt|exact Rr|int_range|int_range|lra..]. }
  set (P := PrimFloat.div
              (PrimFloat.mul e (PrimFloat.sub (Binary64.Z2F 1) p)) r) in *.
  assert (Rn : in_range (PrimFloat.mul (PrimFloat.mul P r) g) 0 200000000).
  { apply (in_range_mul_upper _ g (Binary64.Z2F 200000000)
             0 700000 1.0039 256 200000000 200000000);
      [|exact Rg|int_range|lra].
    apply (in_range_mul_upper P r (Binary64.Z2F 700000)
             7 50000000 0.00579 0.01341 700000 700000);
      [exact RP|exact Rr|int_range|lra]. }
  assert (Rd : in_range (PrimFloat.sub g (Binary64.Z2F 1)) 0.0029 256).
  { apply (in_range_sub g (Binary64.Z2F 1) (Binary64.Q2F 0.003) (Binary64.Z2F 256)
             1.0039 256 1 1 0.0029 0.0031 256 256);
      [exact Rg|int_range|exact lit_0_003|int_range|lra..]. }
  assert (RE : in_range
                 (PrimFloat.div (PrimFloat.mul (PrimFloat.mul P r) g)
                    (PrimFloat.sub g (Binary64.Z2F 1)))
                 0 100000000000).
  { apply (in_range_div _ _ (Binary64.Z2F 0) (Binary64.Z2F 100000000000)
             0 200000000 0.0029 256 0 0 100000000000 100000000000);
      [exact Rn|exact Rd|int_range|int_range|lra..]. }
  assert (Nr : PrimFloat.eqb r (Binary64.Z2F 0) = false).
  { apply float_pos_finite_nonzero.
    apply (in_range_pos_finite _ _ _ Rr). lra. }
  assert (Nd : PrimFloat.eqb (PrimFloat.sub g (Binary64.Z2F 1)) (Binary64.Z2F 0)
               = false).
  { apply float_pos_finite_nonzero.
    apply (in_range_pos_finite _ _ _ Rd). lra. }
  exists (Binary64.round_ndigits P 2).
  exists (Binary64.round_ndigits
            (PrimFloat.div (PrimFloat.mul (PrimFloat.mul P r) g)
               (PrimFloat.sub g (Binary64.Z2F 1))) 2).
  split; [|split].
  - apply (calculate_positive (PF := b64) income rate years P).
    + apply (max_loan_amount_for_value (PF := b64)); [exact Nr|exact Ep].
    + b64_ops. apply (in_range_not_le_zero _ _ _ RP). lra.
    + apply (actual_emi_for_value (PF := b64)); [exact Nr|exact Eg|exact Nd].
  - apply (b64_round_cent P (Binary64.Z2F 7) (Binary64.Z2F 50000000)
             7 50000000 7 7 50000000 50000000 700 5000000000);
      [exact RP|int_range|int_range|lia
      |vm_compute; first [reflexivity|discriminate]..].
  - apply (b64_round_cent_upper _ (Binary64.Z2F 200000000000) 0 100000000000
             200000000000 200000000000); [exact RE|int_range|].
    vm_compute. discriminate.
Qed.

End Binary64Domain.

(** ** The claims *)

Section Claims.
Local Open Scope Q_scope.

(** C1. For monthlyIncome = 25000, annualRate = 0.09 and tenureYears = 15
    the engine returns a pair [(P, E)] whose installment [E] is 25000 x 0.45
    rounded to 2 decimals, and the present-value formula applied to [E],
    the rate and the tenure gives back [P] to within 1 currency unit.
    This holds in exact arithmetic, and in binary64 for every [pow] that
    is within one unit in the last place of the correctly rounded power
    at the two calls the engine makes. *)
Theorem C1_amortization_scenario :
  (exists P E V : Q,
      calculate_max_loan_and_emi (PF := Exact.exact) 25000 0.09 15
      = Ok (P, E)
      /\ E == Exact.round_ndigits (25000 * 0.45) 2
      /\ present_value (PF := Exact.exact) E (0.09 / 12) (15 * 12) = Ok V
      /\ Qabs (V - P) <= 1)
  /\
  (forall pw : float -> Z -> res float,
      pow_accurate_at pw (monthly_base (Binary64.Q2F 0.09)) (- (15 * 12)) ->
      pow_accurate_at pw (monthly_base (Binary64.Q2F 0.09)) (15 * 12) ->
      exists P E V : float,
        calculate_max_loan_and_emi (PF := Binary64.binary64 pw)
          (Binary64.Z2F 25000) (Binary64.Q2F 0.09) 15 = Ok (P, E)
        /\ E = Binary64.round_ndigits
                 (PrimFloat.mul (Binary64.Z2F 25000) (Binary64.Q2F 0.45)) 2
        /\ present_value (PF := Binary64.binary64 pw) E
             (PrimFloat.div (Binary64.Q2F 0.09) (Binary64.Z2F 12)) (15 * 12)
           = Ok V
        /\ fle (PrimFloat.abs (PrimFloat.sub V P)) (Binary64.Z2F 1)).
Proof.
  split.
  - eexists; eexists; eexists.
    split; [vm_compute; reflexivity|].
    split; [vm_compute; reflexivity|].
    split; [vm_compute; reflexivity|].
    vm_compute. discriminate.
  - exact b64_scenario.
Qed.

Lemma C1_amortization_scenario_witness :
  exists P E V : float,
    calculate_max_loan_and_emi (PF := b64)
      (Binary64.Z2F 25000) (Binary64.Q2F 0.09) 15 = Ok (P, E)
    /\ E = Binary64.round_ndigits
             (PrimFloat.mul (Binary64.Z2F 25000) (Binary64.Q2F 0.45)) 2
    /\ present_value (PF := b64) E
         (PrimFloat.div (Binary64.Q2F 0.09) (Binary64.Z2F 12)) (15 * 12)
       = Ok V
    /\ fle (PrimFloat.abs (PrimFloat.sub V P)) (Binary64.Z2F 1).
Proof.
  apply (proj2 C1_amortization_scenario Binary64.pow_cr).
  - exists scenario_pow_neg, scenario_pow_neg.
    split; [exact pow_cr_scenario_neg|].
    split; [exact pow_cr_scenario_neg|left; reflexivity].
  - exists scenario_pow_pos, scenario_pow_pos.
    split; [exact pow_cr_scenario_pos|].
    split; [exact pow_cr_scenario_pos|left; reflexivity].
Defined.



(** C3. For every score the RateEstimator returns
    clamp(0.09 - ((score - 600) / 100) x 0.0025, 0.07, 0.15); the result
    lies in [0.07, 0.15], never increases with the score, and
    rate(900) <= rate(300). In exact arithmetic this holds for every
    integer; in binary64 the bounds and the monotonicity hold for every
    credit score (300 to 900). *)
Theorem C3_rate_estimator :
  (forall score : Z,
      calculate_loan_interest_rate (PF := Exact.exact) score
      == clamp (0.09 - ((inject_Z score - 600) / 100) * 0.0025) 0.07 0.15
      /\ 0.07 <= calculate_loan_interest_rate (PF := Exact.exact) score <= 0.15)
  /\ (forall s1 s2 : Z,
        (s1 <= s2)%Z ->
        calculate_loan_interest_rate (PF := Exact.exact) s2
        <= calculate_loan_interest_rate (PF := Exact.exact) s1)
  /\ calculate_loan_interest_rate (PF := Exact.exact) 900
     <= calculate_loan_interest_rate (PF := Exact.exact) 300
  /\ (forall score : Z,
        (CIVIL_SCORE_MIN <= score <= CIVIL_SCORE_MAX)%Z ->
        fle (Binary64.Q2F 0.07) (calculate_loan_interest_rate (PF := b64) score)
        /\ fle (calculate_loan_interest_rate (PF := b64) score)
               (Binary64.Q2F 0.15))
  /\ (forall s1 s2 : Z,
        (CIVIL_SCORE_MIN <= s1)%Z -> (s1 <= s2)%Z ->
        (s2 <= CIVIL_SCORE_MAX)%Z ->
        fle (calculate_loan_interest_rate (PF := b64) s2)
            (calculate_loan_interest_rate (PF := b64) s1)).
Proof.
  split; [|split; [|split; [|split]]].
  - intros score. split; [apply exact_rate_clamp|apply exact_rate_bounds].
  - exact exact_rate_antitone.
  - apply exact_rate_antitone. lia.
  - intros score _. apply b64_rate_bounds.
  - exact b64_rate_antitone.
Qed.

Lemma C3_rate_estimator_witness :
  calculate_loan_interest_rate (PF := Exact.exact) 744
  <= calculate_loan_interest_rate (PF := Exact.exact) 720
  /\ fle (calculate_loan_interest_rate (PF := b64) 900)
         (calculate_loan_interest_rate (PF := b64) 300).
Proof.
  split.
  - apply (proj1 (proj2 C3_rate_estimator)). lia.
  - apply (proj2 (proj2 (proj2 (proj2 C3_rate_estimator))));
      unfold CIVIL_SCORE_MIN, CIVIL_SCORE_MAX; lia.
Defined.

(** C4. The ScoreGenerator returns an integer in [300, 900] for every
    feature set, the empty one included. In every reading of the float
    operations: the empty set is averaged as 0.5; the average of any
    other set is the sum of its values, added from 0 in their order,
    divided by their number, which is not zero; and a score that is
    returned is the integer [int(300 + average x 600)] clamped to
    [300, 900]. In binary64, for every feature set whose values lie in
    [0.0, 1.0] (with fewer than 2^53 entries) the generator returns: the
    average lies in [0.0, 1.0], [300 + average x 600] truncates to an
    integer in [300, 900], and that integer is the score. The empty set
    scores 600. *)
Theorem C4_score_generator :
  (forall (F : Type) (PF : PyFloat F),
      avg_feature_score (F := F) [] = Ok (lit 0.5)
      /\ (forall d : dict F,
            d <> [] ->
            avg_feature_score d
            = Ok (fdiv (fold_left fadd (map snd d) (of_int 0))
                       (of_int (Z.of_nat (List.length d)))))
      /\ (forall (d : dict F) (s : Z),
            generate_civil_score d = Ok s ->
            exists (avg : F) (c : Z),
              avg_feature_score d = Ok avg
              /\ py_int (fadd (of_int 300) (fmul avg (of_int 600))) = Ok c
              /\ s = Z.max 300 (Z.min c 900)
              /\ (300 <= s <= 900)%Z))
  /\ (forall (pw : float -> Z -> res float) (d : dict float),
        Forall unit_float (map snd d) ->
        (Z.of_nat (List.length d) < 2 ^ 53)%Z ->
        exists (avg : float) (c : Z),
          avg_feature_score (PF := Binary64.binary64 pw) d = Ok avg
          /\ unit_float avg
          /\ Binary64.to_int
               (PrimFloat.add (Binary64.Z2F 300)
                  (PrimFloat.mul avg (Binary64.Z2F 600))) = Ok c
          /\ (300 <= c <= 900)%Z
          /\ generate_civil_score (PF := Binary64.binary64 pw) d = Ok c)
  /\ generate_civil_score (PF := b64) [] = Ok 600%Z.
Proof.
  split; [|split].
  - intros F PF. split; [reflexivity|]. split.
    + exact avg_feature_score_nonempty.
    + exact generate_civil_score_inv.
  - exact b64_score_unit.
  - vm_compute. reflexivity.
Qed.

Lemma C4_score_generator_witness :
  exists (avg : float) (c : Z),
    avg_feature_score (PF := b64)
      (simulate_alt_data_features (PF := b64) SALARIED) = Ok avg
    /\ unit_float avg
    /\ Binary64.to_int
         (PrimFloat.add (Binary64.Z2F 300)
            (PrimFloat.mul avg (Binary64.Z2F 600))) = Ok c
    /\ (300 <= c <= 900)%Z
    /\ generate_civil_score (PF := b64)
         (simulate_alt_data_features (PF := b64) SALARIED) = Ok c.
Proof.
  apply (proj1 (proj2 C4_score_generator) Binary64.pow_cr).
  - vm_compute. repeat constructor.
  - vm_compute. reflexivity.
Defined.

(** C5, as stated, fails on the code: for "Salaried (Formal Employment)"
    the average feature score is 0.7 and not 0.74, the score is 720 and
    not 744, and the rate at that score is 8.7%, more than 0.4 points
    away from 8.28%; in exact arithmetic and in binary64 alike. *)
Lemma C5_salaried_scenario_counterexample :
  (exists (avg : Q) (s : Z),
      avg_feature_score (PF := Exact.exact)
        (simulate_alt_data_features SALARIED) = Ok avg
      /\ ~ avg == 0.74
      /\ generate_civil_score (PF := Exact.exact)
           (simulate_alt_data_features SALARIED) = Ok s
      /\ s <> 744%Z
      /\ 0.004 < Qabs (calculate_loan_interest_rate (PF := Exact.exact) s
                       - 0.0828))
  /\ (exists (avg : float) (s : Z),
        avg_feature_score (PF := b64)
          (simulate_alt_data_features (PF := b64) SALARIED) = Ok avg
        /\ avg <> Binary64.Q2F 0.74
        /\ generate_civil_score (PF := b64)
             (simulate_alt_data_features (PF := b64) SALARIED) = Ok s
        /\ s <> 744%Z
        /\ Binary64.round_ndigits
             (PrimFloat.mul (calculate_loan_interest_rate (PF := b64) s)
                            (Binary64.Z2F 100)) 2
           <> Binary64.Q2F 8.28).
Proof.
  split.
  - eexists; eexists.
    split; [vm_compute; reflexivity|].
    split; [vm_compute; discriminate|].
    split; [vm_compute; reflexivity|].
    split; [discriminate|].
    vm_compute. reflexivity.
  - eexists; eexists.
    split; [vm_compute; reflexivity|].
    split; [vm_compute; intros E; apply (f_equal Prim2SF) in E;
            vm_compute in E; discriminate|].
    split; [vm_compute; reflexivity|].
    split; [discriminate|].
    vm_compute. intros E. apply (f_equal Prim2SF) in E.
    vm_compute in E. discriminate.
Qed.

(** C5, amended. For the occupation "Salaried (Formal Employment)" the
    average feature score is 0.7, the resulting CreditScore is
    300 + 0.7 x 600 = 720, and the resulting annual rate is 8.7%: 0.087
    exactly in exact arithmetic, and 8.7 after the rounding to two
    decimals of the percentage in binary64. *)
Theorem C5_salaried_scenario :
  (exists avg : Q,
      avg_feature_score (PF := Exact.exact)
        (simulate_alt_data_features SALARIED) = Ok avg
      /\ avg == 0.7)
  /\ generate_civil_score (PF := Exact.exact)
       (simulate_alt_data_features SALARIED) = Ok 720%Z
  /\ (300 + 0.7 * 600 == 720)
  /\ calculate_loan_interest_rate (PF := Exact.exact) 720 == 0.087
  /\ avg_feature_score (PF := b64)
       (simulate_alt_data_features (PF := b64) SALARIED)
     = Ok (Binary64.Q2F 0.7)
  /\ generate_civil_score (PF := b64)
       (simulate_alt_data_features (PF := b64) SALARIED) = Ok 720%Z
  /\ Binary64.round_ndigits
       (PrimFloat.mul (calculate_loan_interest_rate (PF := b64) 720)
                      (Binary64.Z2F 100)) 2
     = Binary64.Q2F 8.7.
Proof.
  split; [eexists; split; vm_compute; reflexivity|].
  repeat split; vm_compute; reflexivity.
Qed.

(** C6, as stated, fails on the code: an overflow of the annuity
    computation does not always end in (0, 0). For an income of 1e308
    (a finite float), the rate 0.09 and the tenure 5, both in the
    documented domain, the present value exceeds the range of binary64;
    float products and quotients raise no exception, the present value
    is [inf], and the engine returns (inf, inf). And when it is the power
    of the installment recomputation that raises [OverflowError] (rate
    1200%, tenure 86), the engine returns the installment = income:
    (11250.0, 25000). *)
Lemma C6_nonpositive_income_or_overflow_counterexample :
  documented_rate (Binary64.Q2F 0.09)
  /\ In 5%Z LOAN_TENURES_YEARS
  /\ Binary64.is_finite huge_income = true
  /\ max_loan_amount_for (PF := b64)
       (PrimFloat.mul huge_income (Binary64.Q2F 0.45))
       (PrimFloat.div (Binary64.Q2F 0.09) (Binary64.Z2F 12)) (5 * 12)
     = Ok PrimFloat.infinity
  /\ calculate_max_loan_and_emi (PF := b64) huge_income (Binary64.Q2F 0.09) 5
     = Ok (PrimFloat.infinity, PrimFloat.infinity)
  /\ Binary64.pow_cr (monthly_base (Binary64.Z2F 12)) (86 * 12)
     = Raise OverflowError
  /\ calculate_max_loan_and_emi (PF := b64)
       (Binary64.Z2F 25000) (Binary64.Z2F 12) 86
     = Ok (Binary64.Z2F 11250, Binary64.Z2F 25000).
Proof.
  destruct b64_domain_facts as (D & T & _ & Fi).
  destruct b64_silent_overflow as [S1 S2].
  destruct b64_installment_overflow as [I1 I2].
  exact (conj D (conj T (conj Fi (conj S1 (conj S2 (conj I1 I2)))))).
Qed.

(** C6, amended. If monthlyIncome <= 0 the engine returns (0, 0): in
    binary64 with the correctly rounded power, for every float income
    <= 0 (a zero, a negative number, minus infinity), every rate in
    [0.07, 0.15] and every tenure from 1 to 30 years; and for any power
    function, whenever the monthly rate is positive and finite and the
    power [p] it returns leaves [1 - p] positive and finite. An
    [OverflowError] of the present-value power is caught and gives
    (0, 0) as well, in every reading of the float operations; on the
    documented rates and tenures neither power raises. The other
    overflows do not give (0, 0): an [OverflowError] of the installment
    recomputation gives (round(maxLoanAmount, 2), round(monthlyIncome,
    2)), in every reading and at (25000, 12, 86) in binary64; a present
    value that exceeds the float range raises nothing and gives
    (inf, inf), at (1e308, 0.09, 5). *)
Theorem C6_nonpositive_income_or_overflow :
  (forall (income rate : float) (years : Z),
      fle income (Binary64.Z2F 0) -> documented_rate rate ->
      (1 <= years <= 30)%Z ->
      calculate_max_loan_and_emi (PF := b64) income rate years
      = Ok (Binary64.Z2F 0, Binary64.Z2F 0))
  /\ (forall (pw : float -> Z -> res float) (income rate : float)
             (years : Z) (p : float),
        fle income (Binary64.Z2F 0) ->
        float_pos_finite (PrimFloat.div rate (Binary64.Z2F 12)) = true ->
        pw (monthly_base rate) (- (years * 12))%Z = Ok p ->
        float_pos_finite (PrimFloat.sub (Binary64.Z2F 1) p) = true ->
        calculate_max_loan_and_emi (PF := Binary64.binary64 pw)
          income rate years
        = Ok (Binary64.Z2F 0, Binary64.Z2F 0))
  /\ (forall (F : Type) (PF : PyFloat F) (income rate : F) (years : Z),
        fleb (of_int 0) (of_int 0) = true ->
        feqb (fdiv rate (of_int 12)) (of_int 0) = false ->
        fpow (fadd (of_int 1) (fdiv rate (of_int 12))) (- (years * 12))
        = Raise OverflowError ->
        calculate_max_loan_and_emi income rate years
        = Ok (of_int 0, of_int 0))
  /\ (forall (rate : float) (years : Z),
        documented_rate rate -> (0 <= years <= 30)%Z ->
        returns (Binary64.pow_cr (monthly_base rate) (- (years * 12)))
        /\ returns (Binary64.pow_cr (monthly_base rate) (years * 12)))
  /\ (forall (F : Type) (PF : PyFloat F) (income rate : F) (years : Z)
             (P : F),
        feqb (fdiv rate (of_int 12)) (of_int 0) = false ->
        max_loan_amount_for (fmul income (lit MAX_EMI_TO_INCOME_RATIO))
          (fdiv rate (of_int 12)) (years * 12) = Ok P ->
        fleb P (of_int 0) = false ->
        fpow (fadd (of_int 1) (fdiv rate (of_int 12))) (years * 12)
        = Raise OverflowError ->
        calculate_max_loan_and_emi income rate years
        = Ok (py_round P 2, py_round income 2))
  /\ calculate_max_loan_and_emi (PF := b64)
       (Binary64.Z2F 25000) (Binary64.Z2F 12) 86
     = Ok (Binary64.Z2F 11250, Binary64.Z2F 25000)
  /\ calculate_max_loan_and_emi (PF := b64) huge_income (Binary64.Q2F 0.09) 5
     = Ok (PrimFloat.infinity, PrimFloat.infinity).
Proof.
  split; [|split; [|split; [|split; [|split; [|split]]]]].
  - exact b64_engine_nonpositive_income.
  - exact b64_calculate_nonpositive_income.
  - intros F PF. exact calculate_pv_overflow.
  - exact b64_engine_powers_return.
  - intros F PF. exact calculate_installment_overflow.
  - exact (proj2 b64_installment_overflow).
  - exact (proj2 b64_silent_overflow).
Qed.

Lemma C6_nonpositive_income_or_overflow_witness :
  calculate_max_loan_and_emi (PF := b64)
    (Binary64.Z2F (-25000)) (Binary64.Q2F 0.09) 15
  = Ok (Binary64.Z2F 0, Binary64.Z2F 0)
  /\ calculate_max_loan_and_emi (PF := b64)
       (Binary64.Z2F 0) (Binary64.Q2F 0.15) 30
     = Ok (Binary64.Z2F 0, Binary64.Z2F 0)
  /\ calculate_max_loan_and_emi (PF := b64)
       PrimFloat.neg_infinity (Binary64.Q2F 0.07) 5
     = Ok (Binary64.Z2F 0, Binary64.Z2F 0)
  /\ calculate_max_loan_and_emi (PF := b64)
       (Binary64.Z2F 25000) (Binary64.Z2F (-6)) 100
     = Ok (Binary64.Z2F 0, Binary64.Z2F 0)
  /\ (returns (Binary64.pow_cr (monthly_base (Binary64.Q2F 0.09)) (- (15 * 12)))
      /\ returns (Binary64.pow_cr (monthly_base (Binary64.Q2F 0.09)) (15 * 12))).
Proof.
  pose proof C6_nonpositive_income_or_overflow as (A & _ & C & D & _).
  split; [|split; [|split; [|split]]].
  - apply A; [vm_compute; reflexivity|split; vm_compute; reflexivity|lia].
  - apply A; [vm_compute; reflexivity|split; vm_compute; reflexivity|lia].
  - apply A; [vm_compute; reflexivity|split; vm_compute; reflexivity|lia].
  - apply (C float b64); vm_compute; reflexivity.
  - apply D; [split; vm_compute; reflexivity|lia].
Defined.



(** C8. Whenever neither named lender's amount exceeds 10,000 and
    maxLoanAmount > 0, a list the OfferGenerator returns is exactly one
    generic offer: its amount is 90% of maxLoanAmount rounded to the
    nearest thousand, its rate (in percent) is the base rate rounded to
    two decimals plus 1, and its installment is the installment given
    times 1.05, not recomputed. This holds in every reading of the float
    operations; in exact arithmetic the list is returned for all such
    inputs. *)
Theorem C8_generic_fallback_offer :
  (forall (F : Type) (PF : PyFloat F) (max emi : F) (score years : Z)
          (base u1 u2 : F) (l : list (offer F)),
      get_mock_bank_loan_options max emi score years base u1 u2 = Ok l ->
      fltb (of_int 10000) (py_round (fmul max u1) (-3)) = false ->
      fltb (of_int 10000) (py_round (fmul max u2) (-3)) = false ->
      fltb (of_int 0) max = true ->
      exists o : offer F,
        l = [o]
        /\ bank_name o = "Generic Lender Co."%string
        /\ offered_loan_amount o = py_round (fmul max (lit 0.9)) (-3)
        /\ interest_rate_pa o
           = fadd (py_round (fmul base (of_int 100)) 2) (lit 1.0)
        /\ tenure_years o = years
        /\ estimated_emi o = fmul emi (lit 1.05))
  /\ (forall (max emi : Q) (score years : Z) (base u1 u2 : Q),
        Exact.round_ndigits (max * u1) (-3) <= 10000 ->
        Exact.round_ndigits (max * u2) (-3) <= 10000 ->
        0 < max ->
        get_mock_bank_loan_options (PF := Exact.exact)
          max emi score years base u1 u2
        = Ok [generic_offer max emi years base]).
Proof.
  split.
  - intros F PF max emi score years base u1 u2 l H H1 H2 H3.
    destruct (get_mock_inv _ _ _ _ _ _ _ _ H) as (e1 & e2 & ->).
    rewrite assemble_options_fallback by assumption.
    eexists. split; [reflexivity|]. repeat split.
  - exact exact_offers_fallback.
Qed.

Lemma C8_generic_fallback_offer_witness :
  get_mock_bank_loan_options (PF := Exact.exact)
    5000 56.25 720 15 0.087 0.93 0.97
  = Ok [generic_offer 5000 56.25 15 0.087].
Proof.
  apply (proj2 C8_generic_fallback_offer);
    [vm_compute; discriminate|vm_compute; discriminate|reflexivity].
Defined.

(** C9. Whatever the credit score and the base rate, the rate of
    Inclusive Housing Finance lies in [0.075, 0.16] and the rate of
    Progressive National Bank lies in [0.07, 0.14]; an offer's rate can
    exceed the general upper bound 0.15 (base rate 0.15 at score 300 gives
    0.158). In exact arithmetic for every integer score and every base
    rate, and in binary64 for every credit score and every float base
    rate, NaN and the infinities included. *)
Theorem C9_lender_rate_ranges :
  (forall (score : Z) (base : Q),
      0.075 <= bank1_interest_rate (PF := Exact.exact) score base <= 0.16
      /\ 0.07 <= bank2_interest_rate (PF := Exact.exact) score base <= 0.14)
  /\ 0.15 < bank1_interest_rate (PF := Exact.exact) 300 0.15
  /\ (forall (score : Z) (base : float),
        (CIVIL_SCORE_MIN <= score <= CIVIL_SCORE_MAX)%Z ->
        (fle (Binary64.Q2F 0.075) (bank1_interest_rate (PF := b64) score base)
         /\ fle (bank1_interest_rate (PF := b64) score base)
                (Binary64.Q2F 0.16))
        /\ (fle (Binary64.Q2F 0.07) (bank2_interest_rate (PF := b64) score base)
            /\ fle (bank2_interest_rate (PF := b64) score base)
                   (Binary64.Q2F 0.14)))
  /\ flt (Binary64.Q2F 0.15)
         (bank1_interest_rate (PF := b64) 300 (Binary64.Q2F 0.15)).
Proof.
  split; [|split; [|split]].
  - intros score base.
    split; [apply exact_bank1_rate_bounds|apply exact_bank2_rate_bounds].
  - vm_compute. reflexivity.
  - intros score base _. unfold fle, bank1_interest_rate, bank2_interest_rate.
    split; apply (py_min_max_bounds (PF := b64));
      try exact float_lt_le; vm_compute; reflexivity.
  - vm_compute. reflexivity.
Qed.

Lemma C9_lender_rate_ranges_witness :
  (fle (Binary64.Q2F 0.075)
       (bank1_interest_rate (PF := b64) 720 PrimFloat.nan)
   /\ fle (bank1_interest_rate (PF := b64) 720 PrimFloat.nan)
          (Binary64.Q2F 0.16))
  /\ (fle (Binary64.Q2F 0.07)
          (bank2_interest_rate (PF := b64) 720 PrimFloat.nan)
      /\ fle (bank2_interest_rate (PF := b64) 720 PrimFloat.nan)
             (Binary64.Q2F 0.14)).
Proof.
  apply (proj1 (proj2 (proj2 C9_lender_rate_ranges))).
  unfold CIVIL_SCORE_MIN, CIVIL_SCORE_MAX. lia.
Defined.



End Claims.

(** ** Further properties *)

Section Further.
Local Open Scope Q_scope.

(** X1. Whatever the job type, recognised or not, the feature set has the
    same five keys, in the same order (in every reading of the floats). *)
Theorem X1_feature_keys :
  forall (F : Type) (PF : PyFloat F) (job_type : string),
    map fst (simulate_alt_data_features job_type) = FEATURE_NAMES
    /\ List.length (simulate_alt_data_features job_type) = 5%nat.
Proof.
  intros F PF job_type. split; [apply simulate_keys|apply simulate_length].
Qed.

(** X2. In binary64 every feature score the simulator returns lies in
    [0.0, 1.0], whatever the job type, and the score generated from the
    simulated features is an integer in [300, 900]. *)
Theorem X2_simulated_scores :
  forall (pw : float -> Z -> res float) (job_type : string),
    Forall unit_float
      (map snd (simulate_alt_data_features (PF := Binary64.binary64 pw)
                  job_type))
    /\ exists s : Z,
         generate_civil_score (PF := Binary64.binary64 pw)
           (simulate_alt_data_features (PF := Binary64.binary64 pw) job_type)
         = Ok s
         /\ (CIVIL_SCORE_MIN <= s <= CIVIL_SCORE_MAX)%Z.
Proof.
  intros pw job_type. pose proof (b64_simulate_unit pw job_type) as U.
  split; [exact U|].
  destruct (b64_score_unit pw _ U) as (avg & c & _ & _ & _ & R & E).
  - rewrite simulate_length. vm_compute. reflexivity.
  - exists c. split; [exact E|]. unfold CIVIL_SCORE_MIN, CIVIL_SCORE_MAX. lia.
Qed.

(** X3. A job type that is none of the five named ones ("Other", or any
    unrecognised string) gets the baseline: every feature at 0.5, in every
    reading of the floats; the score of the baseline in binary64 is 600. *)
Theorem X3_unrecognised_job_baseline :
  (forall (F : Type) (PF : PyFloat F) (job_type : string),
      existsb (String.eqb job_type) NAMED_JOB_TYPES = false ->
      simulate_alt_data_features job_type
      = map (fun k => (k, lit 0.5)) FEATURE_NAMES)
  /\ generate_civil_score (PF := b64)
       (map (fun k => (k, Binary64.Q2F 0.5)) FEATURE_NAMES) = Ok 600%Z.
Proof.
  split.
  - intros F PF. apply simulate_other.
  - vm_compute. reflexivity.
Qed.

Lemma X3_unrecognised_job_baseline_witness :
  simulate_alt_data_features (PF := b64) "Other"
  = map (fun k => (k, Binary64.Q2F 0.5)) FEATURE_NAMES.
Proof.
  apply (proj1 X3_unrecognised_job_baseline float b64). reflexivity.
Defined.

(** X4. In binary64 (correctly rounded power) the engine raises nothing
    on the documented rates and tenures, whatever float the income is,
    NaN and the infinities included. *)
Theorem X4_engine_returns_on_domain :
  forall (income rate : float) (years : Z),
    documented_rate rate -> (0 <= years <= 30)%Z ->
    returns (calculate_max_loan_and_emi (PF := b64) income rate years).
Proof.
  intros income rate years R Hy.
  destruct (b64_engine_powers_return rate years R Hy) as [P1 P2].
  apply (calculate_returns (PF := b64)); right; assumption.
Qed.

Lemma X4_engine_returns_on_domain_witness :
  returns (calculate_max_loan_and_emi (PF := b64)
             PrimFloat.nan (Binary64.Q2F 0.09) 15).
Proof.
  apply X4_engine_returns_on_domain;
    [split; vm_compute; reflexivity|lia].
Defined.

(** X5. In every reading of the floats, a list the OfferGenerator returns
    has at most two offers (never three); it is not empty when the
    maximum is positive; every offer carries the tenure given; and an
    offer is either the generic one, then alone in the list with neither
    lender's amount above 10,000, or a named lender's with an amount
    above 10,000. *)
Theorem X5_offer_list_shape :
  forall (F : Type) (PF : PyFloat F) (max emi : F) (score years : Z)
         (base u1 u2 : F) (l : list (offer F)),
    get_mock_bank_loan_options max emi score years base u1 u2 = Ok l ->
    (List.length l <= 2)%nat
    /\ (fltb (of_int 0) max = true -> l <> [])
    /\ (forall o, In o l -> tenure_years o = years)
    /\ (forall o, In o l ->
          (bank_name o = "Generic Lender Co."%string /\ l = [o]
           /\ fltb (of_int 10000) (py_round (fmul max u1) (-3)) = false
           /\ fltb (of_int 10000) (py_round (fmul max u2) (-3)) = false)
          \/ (bank_name o <> "Generic Lender Co."%string
              /\ fltb (of_int 10000) (offered_loan_amount o) = true)).
Proof. intros F PF. exact offers_shape. Qed.

Lemma X5_offer_list_shape_witness :
  exists l : list (offer float),
    get_mock_bank_loan_options (PF := b64)
      (Binary64.Z2F 500) (Binary64.Z2F 5) 720 1 (Binary64.Q2F 0.087)
      (Binary64.Q2F 0.93) (Binary64.Q2F 0.97) = Ok l
    /\ (List.length l <= 2)%nat /\ l <> [].
Proof.
  assert (H : get_mock_bank_loan_options (PF := b64)
                (Binary64.Z2F 500) (Binary64.Z2F 5) 720 1 (Binary64.Q2F 0.087)
                (Binary64.Q2F 0.93) (Binary64.Q2F 0.97)
              = Ok [generic_offer (PF := b64) (Binary64.Z2F 500)
                      (Binary64.Z2F 5) 1 (Binary64.Q2F 0.087)])
    by (vm_compute; reflexivity).
  destruct (X5_offer_list_shape float b64 _ _ _ _ _ _ _ _ H) as (A & B & _).
  eexists. split; [exact H|]. split; [exact A|].
  apply B. vm_compute. reflexivity.
Defined.



(** X7. In binary64 the rate an offer of a named lender carries,
    [round(rate * 100, 2)] in percent, lies in [7.5, 16] for Inclusive
    Housing Finance and in [7, 14] for Progressive National Bank,
    whatever the score and the base rate (NaN and the infinities
    included). *)
Theorem X7_lender_percent_ranges :
  forall (pw : float -> Z -> res float) (amount emi : float)
         (score years : Z) (base : float),
    (fle (Binary64.Q2F 7.5)
         (interest_rate_pa
            (bank1_offer (PF := Binary64.binary64 pw) amount
               (bank1_interest_rate (PF := Binary64.binary64 pw) score base)
               years emi))
     /\ fle (interest_rate_pa
               (bank1_offer (PF := Binary64.binary64 pw) amount
                  (bank1_interest_rate (PF := Binary64.binary64 pw) score base)
                  years emi))
            (Binary64.Q2F 16))
    /\ (fle (Binary64.Q2F 7)
            (interest_rate_pa
               (bank2_offer (PF := Binary64.binary64 pw) amount
                  (bank2_interest_rate (PF := Binary64.binary64 pw) score base)
                  years emi))
        /\ fle (interest_rate_pa
                  (bank2_offer (PF := Binary64.binary64 pw) amount
                     (bank2_interest_rate (PF := Binary64.binary64 pw)
                        score base) years emi))
               (Binary64.Q2F 14)).
Proof.
  intros pw amount emi score years base.
  cbn [interest_rate_pa bank1_offer bank2_offer]. b64_ops.
  pose proof (b64_bank1_percent_range pw score base) as R1.
  pose proof (b64_bank2_percent_range pw score base) as R2.
  split; split.
  - apply (in_range_le _ _ _ _ _ _ lit_7_5 R1). lra.
  - apply (in_range_le _ _ _ _ _ _ R1 lit_16). lra.
  - apply (in_range_le _ _ _ _ _ _ lit_7 R2). lra.
  - apply (in_range_le _ _ _ _ _ _ R2 lit_14). lra.
Qed.

(** X8. In binary64 (correctly rounded power), for every float income
    between 5,000 and 500,000 (the range of the income field), every
    rate in [0.07, 0.15] and every tenure from 1 to 30 years, the engine
    returns a quote of two finite floats: a maxLoanAmount that is
    positive, at most 50,000,000, and an installment that is not
    negative. *)
Theorem X8_loan_quote :
  forall (income rate : float) (years : Z),
    fle (Binary64.Z2F 5000) income -> fle income (Binary64.Z2F 500000) ->
    documented_rate rate -> (1 <= years <= 30)%Z ->
    exists L I : float,
      calculate_max_loan_and_emi (PF := b64) income rate years = Ok (L, I)
      /\ Binary64.is_finite L = true /\ Binary64.is_finite I = true
      /\ flt (Binary64.Z2F 0) L /\ fle L (Binary64.Z2F 50000000)
      /\ fle (Binary64.Z2F 0) I.
Proof.
  intros income rate years Li Ui R Hy.
  destruct (b64_loan_quote income rate years Li Ui R Hy)
    as (L & I & E & RL & RI).
  exists L, I. split; [exact E|].
  pose proof (in_range_Z 0 ltac:(lia)) as Z0.
  pose proof (in_range_Z 50000000 ltac:(lia)) as ZM.
  change (inject_Z 0) with 0 in Z0. change (inject_Z 50000000) with 50000000 in ZM.
  split; [destruct RL as (q & F & _); exact (fval_is_finite _ _ F)|].
  split; [destruct RI as (q & F & _); exact (fval_is_finite _ _ F)|].
  split; [|split].
  - destruct RL as (q & F & Lq & _).
    apply (fval_ltb _ _ 0 q (Z2F_fval 0 ltac:(lia)) F). lra.
  - apply (in_range_le _ _ _ _ _ _ RL ZM). lra.
  - apply (in_range_le _ _ _ _ _ _ Z0 RI). lra.
Qed.

Lemma X8_loan_quote_witness :
  exists L I : float,
    calculate_max_loan_and_emi (PF := b64)
      (Binary64.Z2F 25000) (Binary64.Q2F 0.09) 15 = Ok (L, I)
    /\ Binary64.is_finite L = true /\ Binary64.is_finite I = true
    /\ flt (Binary64.Z2F 0) L /\ fle L (Binary64.Z2F 50000000)
    /\ fle (Binary64.Z2F 0) I.
Proof.
  apply X8_loan_quote;
    [vm_compute; reflexivity|vm_compute; reflexivity
    |split; vm_compute; reflexivity|lia].
Defined.

End Further.
